(** * SimBA-hap: founder allele fitting, verified against [src/simba-hap.cpp]

    The development embeds the parts of [simba-hap.cpp] that the
    specification talks about: genotypes and dosage distributions, the
    simulation of the haplotypes map, the two fitting strategies
    ([descent_fitting] and [mip_fitting]), the VCF loader and the driver
    in [run]/[main].  The program comes first, then the vocabulary in
    which its specification is stated, then the properties.

    Conventions of the embedding.
    - [float] values that are numbers are modelled by exact rationals
      ([Q]); rounding and overflow are outside the model.  The program
      makes one value that is not a number, the NaN that
      [normalize_dosages_distribution] computes for a marker without a
      known genotype: [Module ieee] holds the normalization and the greedy
      fitter on IEEE values, which agree with the functions on rationals
      wherever the values are numbers.  [std::numeric_limits<float>::max()]
      is the rational number it denotes.
    - [uint32_t] arithmetic that can wrap is written with an explicit
      [mod 2^32]; counters that are bounded by a container size are [nat].
    - a [reference_view<uint16_t>] is modelled by the index of the founder
      it points to; reading through it is a lookup in the current
      founders vector, so writes to the vector are seen through the view.
    - what the program writes to [std::cerr] is a list of lines; a
      computation ends in a value, an exception, a failed assertion or
      undefined behaviour.
    - the standard library's generator and the solver behind [lemon::Mip]
      are parameters, constrained by what their documentation promises. *)

From Stdlib Require Import QArith Qabs Lqa ZArith Lia Ascii String.
From stdpp Require Import base list pretty.

Local Open Scope Q_scope.

(** ** Rational helpers *)

(** [a < b] on floats, as a boolean. *)
Definition Qltb (a b : Q) : bool := negb (Qle_bool b a).

(** [std::numeric_limits<float>::max()] = (2 - 2^-23) * 2^127. *)
Definition FLT_MAX : Q := inject_Z 340282346638528859811704183484516925440.

(** The [uint32_t -> float] conversion of a counter. *)
Definition of_count (n : nat) : Q := inject_Z (Z.of_nat n).

(** ** Genotypes *)

(** [get_dosage]: [std::count(genotype.begin(), genotype.end(), value)]. *)
Definition get_dosage {A} `{EqDecision A} (genotype : list A) (value : A) : nat :=
  length (filter (λ a, a = value) genotype).

(** [get_ploidy]: [genotype.size()]. *)
Definition get_ploidy {A} (genotype : list A) : nat := length genotype.

(** ** Dosage distributions *)

(** [dosages_distribution<value_t, n_ploidy>] is an array of
    [n_ploidy + 1] values: entry [i] counts the samples of dosage [i]. *)

(** [make_dosages_distribution<n_ploidy>]: zero-fill, then
    [dosages_d[get_dosage(genotype, 1u)]++] for every genotype. *)
Definition make_dosages_distribution (n_ploidy : nat) (genotypes : list (list nat))
  : list nat :=
  foldl (λ dosages_d genotype, alter S (get_dosage genotype 1%nat) dosages_d)
        (replicate (S n_ploidy) 0%nat) genotypes.

(** [l1_norm]: [std::inner_product] with [+] and [|a_i - b_i|], from
    [value_t()] = 0, over the entries of [a]; both arrays have
    [n_ploidy + 1] entries. *)
Fixpoint inner_product (a : list Q) (b : list nat) (init : Q) : Q :=
  match a, b with
  | a_i :: a', b_i :: b' => inner_product a' b' (init + Qabs (a_i - of_count b_i))
  | _, _ => init
  end.

Definition l1_norm (a : list Q) (b : list nat) : Q := inner_product a b 0.

(** [normalize_dosages_distribution]: [dosages_sum] accumulates the
    entries from [0.0f]; every entry [d] becomes
    [n_samples * d / dosages_sum].  The rationals give the quotient for a
    [dosages_sum] that is not zero; the quotient by zero is that of
    [ieee.normalize_dosages_distribution]. *)
Definition accumulate (l : list Q) (init : Q) : Q := foldl Qplus init l.

Definition normalize_dosages_distribution (dosages_d : list Q) (n_samples : nat)
  : list Q :=
  let dosages_sum := accumulate dosages_d 0 in
  map (λ d, of_count n_samples * d / dosages_sum) dosages_d.

(** ** Haplotypes map and the samples view *)

(** [haplotypes_map]: [sample][haplotype] -> founder. *)
Abbreviation haplotypes_map := (list (list nat)).

(** [founders_alts]: one [uint16_t] allele per founder. *)
Abbreviation founders_alts := (list nat).

(** [samples_alts]: [sample][haplotype] -> reference to a founder allele. *)
Abbreviation samples_alts := (list (list nat)).

(** [fill_samples_alts]: slot [(sample, haplotype)] refers to
    [founders_alts[haplotypes_m[sample][haplotype]]]. *)
Definition fill_samples_alts (haplotypes_m : haplotypes_map) : samples_alts :=
  map (λ sample, map (λ founder, founder) sample) haplotypes_m.

(** [reference_view::get] in the current founders vector.  The map only
    holds founder indices below the vector's size; the model reads 0
    outside. *)
Definition view_get (alts : founders_alts) (ref : nat) : nat :=
  default 0%nat (alts !! ref).

(** The genotypes seen through the view. *)
Definition view_genotypes (view : samples_alts) (alts : founders_alts)
  : list (list nat) :=
  map (λ sample, map (view_get alts) sample) view.

(** ** Greedy descent fitting *)

(** The loop on a target of numbers; [ieee.descent_fit] is the same loop
    on a target that may hold NaN. *)
Section descent_fitting.
Variable n_ploidy : nat.
Variable haplotypes_m : haplotypes_map.
(** [dosages_d_in], the target distribution. *)
Variable dosages_d_in : list Q.

Definition samples_alts_view : samples_alts := fill_samples_alts haplotypes_m.

(** Distance of the target to the distribution induced by [alts]. *)
Definition induced_distance (alts : founders_alts) : Q :=
  l1_norm dosages_d_in
          (make_dosages_distribution n_ploidy (view_genotypes samples_alts_view alts)).

(** The lambda of the [std::transform] call, applied to
    [founders_alts[j]]: a founder at 1 yields [FLT_MAX]; any other is set
    to 1, probed, and set to 0. *)
Definition probe (alts : founders_alts) (j : nat) : Q * founders_alts :=
  if decide (view_get alts j = 1%nat) then (FLT_MAX, alts)
  else
    let alts1 := <[j := 1%nat]> alts in
    let distance_x := induced_distance alts1 in
    (distance_x, <[j := 0%nat]> alts1).

(** [std::transform] over [founders_alts], left to right, writing
    [distances]; [j] is the position reached, [k] what remains. *)
Fixpoint transform_probe (alts : founders_alts) (j k : nat)
  : list Q * founders_alts :=
  match k with
  | O => ([], alts)
  | S k' =>
      let '(d, alts') := probe alts j in
      let '(ds, alts'') := transform_probe alts' (S j) k' in
      (d :: ds, alts'')
  end.

(** [std::min_element]: the first position holding the smallest value. *)
Fixpoint min_element_from (best_i : nat) (best : Q) (i : nat) (l : list Q)
  : nat * Q :=
  match l with
  | [] => (best_i, best)
  | x :: l' =>
      if Qltb x best then min_element_from i x (S i) l'
      else min_element_from best_i best (S i) l'
  end.

Definition min_element (l : list Q) : option (nat * Q) :=
  match l with
  | [] => None
  | x :: l' => Some (min_element_from 0%nat x 1%nat l')
  end.

(** State of the loop: the founders vector and [distance]. *)
Record descent_state := DescentState {
  ds_alts : founders_alts;
  ds_distance : Q;
}.

(** One iteration of the [for] loop: [None] is the [break]. *)
Definition descent_iteration (st : descent_state) : option descent_state :=
  let '(distances, alts) :=
    transform_probe (ds_alts st) 0 (length (ds_alts st)) in
  match min_element distances with
  | None => None
  | Some (min_i, min_distance) =>
      if Qltb (ds_distance st) min_distance then None
      else Some (DescentState (<[min_i := 1%nat]> alts) min_distance)
  end.

(** The loop [for (ones = 0; ones < n_founders; ones++)]; [fuel] is
    [n_founders - ones]. *)
Fixpoint descent_loop (fuel : nat) (st : descent_state) : descent_state :=
  match fuel with
  | O => st
  | S fuel' =>
      match descent_iteration st with
      | None => st
      | Some st' => descent_loop fuel' st'
      end
  end.

(** The states reached after each committed iteration, in order. *)
Fixpoint descent_commits (fuel : nat) (st : descent_state) : list descent_state :=
  match fuel with
  | O => []
  | S fuel' =>
      match descent_iteration st with
      | None => []
      | Some st' => st' :: descent_commits fuel' st'
      end
  end.

(** [descent_fitting::fit]: the vector is zero-filled, the starting
    distance is that of the all-zero vector. *)
Definition descent_init (alts_in : founders_alts) : descent_state :=
  let alts := map (λ _, 0%nat) alts_in in
  DescentState alts (induced_distance alts).

Definition descent_fit (alts_in : founders_alts) : founders_alts * Q :=
  let st := descent_loop (length alts_in) (descent_init alts_in) in
  (ds_alts st, ds_distance st).
End descent_fitting.

(** ** Values that are not numbers *)

(** The rationals above are the finite values of [float].  The program
    leaves them in one place, the quotient of
    [normalize_dosages_distribution]: a marker without a known genotype
    has [dosages_sum = 0.0f], and [0.0f / 0.0f] is NaN.  This module holds
    the functions that such a value passes through, on IEEE values: a
    number, an infinity or NaN.  Arithmetic on numbers stays exact (no
    rounding, no overflow) and zero has no sign: the sums of the program
    start from [0.0f], so they are never [-0.0f].  On numbers these
    functions are the ones above, see [ieee_descent_fit_finite] and
    [ieee_normalize_finite]. *)
Module ieee.

(** An IEEE value. *)
Inductive float :=
| Finite (q : Q)
| Infinity (negative : bool)
| NaN.

Definition is_zero (q : Q) : bool := Qeq_bool q 0.

(** [a + b]: opposite infinities have no sum. *)
Definition add (a b : float) : float :=
  match a, b with
  | NaN, _ | _, NaN => NaN
  | Finite x, Finite y => Finite (x + y)
  | Infinity s, Finite _ | Finite _, Infinity s => Infinity s
  | Infinity s, Infinity t => if Bool.eqb s t then Infinity s else NaN
  end.

(** [a - b]. *)
Definition sub (a b : float) : float :=
  match a, b with
  | NaN, _ | _, NaN => NaN
  | Finite x, Finite y => Finite (x - y)
  | Infinity s, Finite _ => Infinity s
  | Finite _, Infinity s => Infinity (negb s)
  | Infinity s, Infinity t => if Bool.eqb s t then NaN else Infinity s
  end.

(** [a * b]: zero times an infinity is NaN. *)
Definition mul (a b : float) : float :=
  match a, b with
  | NaN, _ | _, NaN => NaN
  | Finite x, Finite y => Finite (x * y)
  | Infinity s, Finite x | Finite x, Infinity s =>
      if is_zero x then NaN else Infinity (xorb s (Qltb x 0))
  | Infinity s, Infinity t => Infinity (xorb s t)
  end.

(** [a / b]: zero by zero and infinity by infinity are NaN, any other
    number by zero is an infinity. *)
Definition div (a b : float) : float :=
  match a, b with
  | NaN, _ | _, NaN => NaN
  | Finite x, Finite y =>
      if is_zero y then (if is_zero x then NaN else Infinity (Qltb x 0))
      else Finite (x / y)
  | Finite _, Infinity _ => Finite 0
  | Infinity s, Finite y => Infinity (xorb s (Qltb y 0))
  | Infinity _, Infinity _ => NaN
  end.

(** [std::abs]. *)
Definition abs (a : float) : float :=
  match a with
  | Finite x => Finite (Qabs x)
  | Infinity _ => Infinity false
  | NaN => NaN
  end.

(** [a < b]: false as soon as one side is NaN. *)
Definition ltb (a b : float) : bool :=
  match a, b with
  | NaN, _ | _, NaN => false
  | Finite x, Finite y => Qltb x y
  | Infinity s, Finite _ => s
  | Finite _, Infinity t => negb t
  | Infinity s, Infinity t => s && negb t
  end.

(** [l1_norm] on a target of IEEE values. *)
Fixpoint inner_product (a : list float) (b : list nat) (init : float) : float :=
  match a, b with
  | a_i :: a', b_i :: b' =>
      inner_product a' b' (add init (abs (sub a_i (Finite (of_count b_i)))))
  | _, _ => init
  end.

Definition l1_norm (a : list float) (b : list nat) : float :=
  inner_product a b (Finite 0).

(** [normalize_dosages_distribution], with the quotient of IEEE. *)
Definition accumulate (l : list float) (init : float) : float := foldl add init l.

Definition normalize_dosages_distribution (dosages_d : list float) (n_samples : nat)
  : list float :=
  let dosages_sum := accumulate dosages_d (Finite 0) in
  map (λ d, div (mul (Finite (of_count n_samples)) d) dosages_sum) dosages_d.

(** [descent_fitting::fit] on a target of IEEE values: the same loop,
    with the comparisons of IEEE. *)
Section descent_fitting.
Variable n_ploidy : nat.
Variable haplotypes_m : haplotypes_map.
Variable dosages_d_in : list float.

Definition induced_distance (alts : founders_alts) : float :=
  l1_norm dosages_d_in
          (make_dosages_distribution n_ploidy
             (view_genotypes (fill_samples_alts haplotypes_m) alts)).

Definition probe (alts : founders_alts) (j : nat) : float * founders_alts :=
  if decide (view_get alts j = 1%nat) then (Finite FLT_MAX, alts)
  else
    let alts1 := <[j := 1%nat]> alts in
    let distance_x := induced_distance alts1 in
    (distance_x, <[j := 0%nat]> alts1).

Fixpoint transform_probe (alts : founders_alts) (j k : nat)
  : list float * founders_alts :=
  match k with
  | O => ([], alts)
  | S k' =>
      let '(d, alts') := probe alts j in
      let '(ds, alts'') := transform_probe alts' (S j) k' in
      (d :: ds, alts'')
  end.

(** [std::min_element]: an entry replaces the best one only when it
    compares smaller, so NaN never does, and nothing replaces NaN. *)
Fixpoint min_element_from (best_i : nat) (best : float) (i : nat) (l : list float)
  : nat * float :=
  match l with
  | [] => (best_i, best)
  | x :: l' =>
      if ltb x best then min_element_from i x (S i) l'
      else min_element_from best_i best (S i) l'
  end.

Definition min_element (l : list float) : option (nat * float) :=
  match l with
  | [] => None
  | x :: l' => Some (min_element_from 0%nat x 1%nat l')
  end.

Record descent_state := DescentState {
  ds_alts : founders_alts;
  ds_distance : float;
}.

Definition descent_iteration (st : descent_state) : option descent_state :=
  let '(distances, alts) :=
    transform_probe (ds_alts st) 0 (length (ds_alts st)) in
  match min_element distances with
  | None => None
  | Some (min_i, min_distance) =>
      if ltb (ds_distance st) min_distance then None
      else Some (DescentState (<[min_i := 1%nat]> alts) min_distance)
  end.

Fixpoint descent_loop (fuel : nat) (st : descent_state) : descent_state :=
  match fuel with
  | O => st
  | S fuel' =>
      match descent_iteration st with
      | None => st
      | Some st' => descent_loop fuel' st'
      end
  end.

Fixpoint descent_commits (fuel : nat) (st : descent_state) : list descent_state :=
  match fuel with
  | O => []
  | S fuel' =>
      match descent_iteration st with
      | None => []
      | Some st' => st' :: descent_commits fuel' st'
      end
  end.

Definition descent_init (alts_in : founders_alts) : descent_state :=
  let alts := map (λ _, 0%nat) alts_in in
  DescentState alts (induced_distance alts).

Definition descent_fit (alts_in : founders_alts) : founders_alts * float :=
  let st := descent_loop (length alts_in) (descent_init alts_in) in
  (ds_alts st, ds_distance st).
End descent_fitting.

(** [a <= b], false as soon as one side is NaN. *)
Definition leb (a b : float) : bool :=
  match a, b with
  | NaN, _ | _, NaN => false
  | Finite x, Finite y => Qle_bool x y
  | Infinity s, Finite _ => s
  | Finite _, Infinity t => negb t
  | Infinity s, Infinity t => s || negb t
  end.

End ieee.

(** ** Outcomes and the error stream *)

(** The SeqAn exceptions the program throws. *)
Inductive exception :=
| IOError (what : string)
| RuntimeError (what : string).

(** How a computation ends: with a value, with an exception in flight,
    in a failed [SEQAN_ASSERT] (which aborts the process), or in
    behaviour that C++ leaves undefined. *)
Inductive outcome (A : Type) : Type :=
| Ok (a : A)
| Throw (e : exception)
| AssertFail (what : string)
| Undef.
Arguments Ok {A} a.
Arguments Throw {A} e.
Arguments AssertFail {A} what.
Arguments Undef {A}.

(** The lines written to [std::cerr]; separator lines and the
    [SECONDS] line are left out.  [LogError] is the line of the [catch]
    in [main], [LogAssertion] the report of a failed assertion. *)
Inductive log_line :=
| LogPolyallelic (position : nat * nat)
| LogUnknown (position : nat * nat)
| LogInputDosages (position : nat * nat) (dosages_d : list Q)
| LogFoundersDistribution (founders_d : list N)
| LogHaplotypesMap (haplotypes_m : haplotypes_map)
| LogDistance (distance : Q) (dosages_d_in : list Q) (dosages_d_out : list nat)
| LogDistances (distances : Q)
| LogFoundersAllele (alts : founders_alts)
| LogSamplesAllele (alleles : list (list nat))
| LogError (what : string)
| LogAssertion (what : string).

(** Computations that write to [std::cerr] and may fail. *)
Definition M (A : Type) : Type := list log_line * outcome A.

Global Instance M_ret : MRet M := λ A a, ([], Ok a).

Global Instance M_bind : MBind M := λ A B f m,
  match m with
  | (log, Ok a) => let '(log', r) := f a in (log ++ log', r)
  | (log, Throw e) => (log, Throw e)
  | (log, AssertFail what) => (log, AssertFail what)
  | (log, Undef) => (log, Undef)
  end.

Definition cerr (line : log_line) : M unit := ([line], Ok ()).
Definition throw {A} (e : exception) : M A := ([], Throw e).
Definition undefined {A} : M A := ([], Undef).

(** Modelled from the spec: the [SEQAN_ASSERT*] macros belong to the
    SeqAn library, not to these sources.  The specification treats a
    violated assertion as a rejection of the run, so a failed assertion
    stops the computation (SeqAn prints the failed condition and calls
    [abort()]).  The assertions on the static size of the dosage arrays
    always hold and are left out. *)
Definition SEQAN_ASSERT (what : string) (cond : bool) : M unit :=
  if cond then mret () else ([], AssertFail what).

(** ** VCF input *)

(** [seqan::VcfRecord], the fields that [read_vcf] reads. *)
Record VcfRecord := {
  rID : nat;
  beginPos : nat;
  ref : string;
  alt : string;
  genotypeInfos : list string;
}.

(** [seqan::VcfFileIn]: the contig names of the header and the records. *)
Record VcfFileIn := {
  contigNames : list string;
  records : list VcfRecord;
}.

(** [seqan::readUntil]: the characters before the first one that
    satisfies [stop], and what follows (starting at that character). *)
Fixpoint readUntil (stop : ascii -> bool) (input : list ascii)
  : list ascii * list ascii :=
  match input with
  | [] => ([], [])
  | c :: rest =>
      if stop c then ([], input)
      else let '(target, rest') := readUntil stop rest in (c :: target, rest')
  end.

(** [read_genotype]: the first [:]-separated field, without the
    separators [/] and [|]. *)
Definition read_genotype (genotype_info : string) : list ascii :=
  let genotype :=
    fst (readUntil (Ascii.eqb ":") (list_ascii_of_string genotype_info)) in
  let genotype := filter (λ c, c <> "/"%char) genotype in
  filter (λ c, c <> "|"%char) genotype.

(** [is_unknown]: [genotype.back() == '.'].  [back()] of an empty vector
    is undefined: [None]. *)
Definition is_unknown (genotype : list ascii) : option bool :=
  match last genotype with
  | Some c => Some (Ascii.eqb c ".")
  | None => None
  end.

Definition ploidy_mismatch : exception :=
  IOError "Input ploidy does not match VCF genotypes".

(** The loop over [vcf_record.genotypeInfos] in [read_vcf]. *)
Fixpoint read_genotypes (n_ploidy : nat) (position : nat * nat)
    (infos : list string) (dosages_d : list Q) : M (list Q) :=
  match infos with
  | [] => mret dosages_d
  | genotype_info :: infos' =>
      let genotype := read_genotype genotype_info in
      match is_unknown genotype with
      | None => undefined
      | Some true =>
          cerr (LogUnknown position);;
          read_genotypes n_ploidy position infos' dosages_d
      | Some false =>
          if decide (get_ploidy genotype <> n_ploidy) then throw ploidy_mismatch
          else
            read_genotypes n_ploidy position infos'
              (alter (λ d, d + 1) (get_dosage genotype "1"%char) dosages_d)
      end
  end.

(** [variants]: positions and ref/alt strings, one entry per marker. *)
Record variants := {
  positions : list (nat * nat);
  alleles : list (string * string);
}.

(** What [read_vcf] has filled so far. *)
Record vcf_data := {
  vd_variants : variants;
  vd_dosages_v : list (list Q);
}.

(** One turn of the [while (!atEnd(vcf_file_in))] loop. *)
Definition read_record (n_ploidy : nat) (data : vcf_data) (vcf_record : VcfRecord)
  : M vcf_data :=
  let position := (rID vcf_record, beginPos vcf_record) in
  let '(alt_first, alt_rest) :=
    readUntil (Ascii.eqb ",") (list_ascii_of_string (alt vcf_record)) in
  if decide (alt_rest <> []) then
    cerr (LogPolyallelic position);; mret data
  else
    dosages_d ← read_genotypes n_ploidy position (genotypeInfos vcf_record)
                               (replicate (S n_ploidy) 0);
    cerr (LogInputDosages position dosages_d);;
    mret {| vd_variants :=
              {| positions := positions (vd_variants data) ++ [position];
                 alleles := alleles (vd_variants data)
                            ++ [(ref vcf_record, string_of_list_ascii alt_first)] |};
            vd_dosages_v := vd_dosages_v data ++ [dosages_d] |}.

Fixpoint read_records (n_ploidy : nat) (data : vcf_data) (rs : list VcfRecord)
  : M vcf_data :=
  match rs with
  | [] => mret data
  | vcf_record :: rs' =>
      data' ← read_record n_ploidy data vcf_record;
      read_records n_ploidy data' rs'
  end.

(** [read_vcf<n_ploidy>]. *)
Definition read_vcf (n_ploidy : nat) (vcf_file_in : VcfFileIn)
  : M (list string * vcf_data) :=
  data ← read_records n_ploidy
         {| vd_variants := {| positions := []; alleles := [] |};
            vd_dosages_v := [] |}
         (records vcf_file_in);
  mret (contigNames vcf_file_in, data).

(** [normalize_dosages_vector]. *)
Definition normalize_dosages_vector (dosages_v : list (list Q)) (n_samples : nat)
  : list (list Q) :=
  map (λ dosages_d, normalize_dosages_distribution dosages_d n_samples) dosages_v.

(** ** Exact fitting by mixed-integer programming *)

(** Sums built by the [+=] loops over [0 .. n-1]. *)
Fixpoint sum_upto_Z (f : nat -> Z) (n : nat) : Z :=
  match n with
  | O => 0%Z
  | S k => (sum_upto_Z f k + f k)%Z
  end.

Fixpoint sum_upto_Q (f : nat -> Q) (n : nat) : Q :=
  match n with
  | O => 0
  | S k => sum_upto_Q f k + f k
  end.

(** A value for every column of the program: [mip_z] and [mip_errors]
    are [REAL] columns, [mip_dosages], [mip_indicators] and [mip_alts]
    are [INTEGER] columns. *)
Record mip_solution := {
  sol_z : nat -> Q;                    (* [dosage] *)
  sol_dosages : nat -> Z;              (* [dosage] *)
  sol_errors : nat -> nat -> Q;        (* [sample][dosage] *)
  sol_indicators : nat -> nat -> Z;    (* [sample][dosage] *)
  sol_alts : nat -> Z;                 (* [founder] *)
}.

Section mip_fitting.
Variable n_ploidy : nat.
Variable haplotypes_m : haplotypes_map.
Variable n_founders : nat.

(** [haplotypes_m[sample_id][haplotype_id]]. *)
Definition haplotypes_m_at (sample_id haplotype_id : nat) : nat :=
  default 0%nat (haplotypes_m !! sample_id ≫= (.!! haplotype_id)).

(** Column bounds set by [mip_fitting::init]. *)
Definition mip_cols (sol : mip_solution) : Prop :=
  (forall dosage, (dosage < S n_ploidy)%nat -> 0 <= sol_z sol dosage) /\
  (forall dosage, (dosage < S n_ploidy)%nat -> (0 <= sol_dosages sol dosage)%Z) /\
  (forall sample_id dosage,
      (sample_id < length haplotypes_m)%nat -> (dosage < S n_ploidy)%nat ->
      0 <= sol_errors sol sample_id dosage) /\
  (forall sample_id dosage,
      (sample_id < length haplotypes_m)%nat -> (dosage < S n_ploidy)%nat ->
      (0 <= sol_indicators sol sample_id dosage)%Z) /\
  (forall a, (a < n_founders)%nat -> (0 <= sol_alts sol a <= 1)%Z).

(** [sample_sum]: the sum of [mip_alts] over the sample's haplotypes. *)
Definition sample_sum (sol : mip_solution) (sample_id : nat) : Z :=
  sum_upto_Z (λ haplotype_id, sol_alts sol (haplotypes_m_at sample_id haplotype_id))
             n_ploidy.

(** Rows added by [mip_fitting::init]. *)
Definition mip_init_rows (sol : mip_solution) : Prop :=
  (* d_p = Σ_s i_s,p *)
  (forall dosage, (dosage < S n_ploidy)%nat ->
      sol_dosages sol dosage
      = sum_upto_Z (λ sample_id, sol_indicators sol sample_id dosage)
                   (length haplotypes_m)) /\
  (* Σ_p i_s,p = 1 *)
  (forall sample_id, (sample_id < length haplotypes_m)%nat ->
      sum_upto_Z (λ dosage, sol_indicators sol sample_id dosage) (S n_ploidy) = 1%Z) /\
  (* e_s,p >= p - Σ h(f), e_s,p >= Σ h(f) - p, e_s,p <= n_ploidy * (1 - i_s,p) *)
  (forall sample_id dosage,
      (sample_id < length haplotypes_m)%nat -> (dosage < S n_ploidy)%nat ->
      inject_Z (Z.of_nat dosage - sample_sum sol sample_id)
        <= sol_errors sol sample_id dosage /\
      inject_Z (sample_sum sol sample_id - Z.of_nat dosage)
        <= sol_errors sol sample_id dosage /\
      sol_errors sol sample_id dosage
        <= inject_Z (Z.of_nat n_ploidy * (1 - sol_indicators sol sample_id dosage))).

(** Rows added by [mip_fitting::fit] for the target [dosages_d_in]:
    [d - d_obs <= z] and [d_obs - d <= z]. *)
Definition mip_fit_rows (dosages_d_in : list Q) (sol : mip_solution) : Prop :=
  forall dosage, (dosage < S n_ploidy)%nat ->
    inject_Z (sol_dosages sol dosage) - default 0 (dosages_d_in !! dosage)
      <= sol_z sol dosage /\
    default 0 (dosages_d_in !! dosage) - inject_Z (sol_dosages sol dosage)
      <= sol_z sol dosage.

(** The objective [Σ z], minimized. *)
Definition mip_objective (sol : mip_solution) : Q := sum_upto_Q (sol_z sol) (S n_ploidy).

Definition mip_feasible (dosages_d_in : list Q) (sol : mip_solution) : Prop :=
  mip_cols sol /\ mip_init_rows sol /\ mip_fit_rows dosages_d_in sol.

(** What [mip.type() == OPTIMAL] stands for. *)
Definition mip_optimal (dosages_d_in : list Q) (sol : mip_solution) : Prop :=
  mip_feasible dosages_d_in sol /\
  forall sol', mip_feasible dosages_d_in sol' -> mip_objective sol <= mip_objective sol'.

(** The solver behind [lemon::Mip]: [mip.solve()] on the program with
    the rows of the target; [None] is any [mip.type()] other than
    [OPTIMAL]. *)
Variable solve : list Q -> option mip_solution.

(** [mip_fitting::fit]. *)
Definition mip_fit (alts : founders_alts) (dosages_d_in : list Q)
  : M (founders_alts * Q) :=
  match solve dosages_d_in with
  | None => ([], AssertFail "mip.type() == lemon::MipSolver::OPTIMAL")
  | Some sol =>
      let distance := mip_objective sol in
      let dosages_d_out :=
        map (λ dosage, Z.to_nat (sol_dosages sol dosage)) (seq 0 (S n_ploidy)) in
      cerr (LogDistance distance dosages_d_in dosages_d_out);;
      SEQAN_ASSERT "accumulate(dosages_d_out) == haplotypes_m.size()"
                   (sum_list dosages_d_out =? length haplotypes_m)%nat;;
      if decide (length alts < n_founders)%nat then undefined
      else
        mret (map (λ a, Z.to_nat (sol_alts sol a)) (seq 0 n_founders)
                ++ drop n_founders alts,
              distance)
  end.
End mip_fitting.

(** ** Simulation of the founders distribution and the haplotypes map *)

(** [uint32_t] wrap-around. *)
Definition u32 (n : N) : N := (n mod 2 ^ 32)%N.

(** [uint32_t] subtraction. *)
Definition u32_sub (a b : N) : N := u32 (a + 2 ^ 32 - u32 b).

(** [std::vector::resize(n, x)]. *)
Definition resize {A} (l : list A) (n : nat) (x : A) : list A :=
  take n l ++ replicate (n - length l) x.

(** [std::accumulate(begin, end, 0u)] on [uint32_t]. *)
Definition accumulate_u32 (l : list N) : N := foldl (λ acc x, u32 (acc + x)) 0%N l.

(** Rows of [cols] entries out of a flat array, as
    [boost::multi_array] lays them out. *)
Fixpoint reshape (rows cols : nat) (flat : list nat) : list (list nat) :=
  match rows with
  | O => []
  | S rows' => take cols flat :: reshape rows' cols (drop cols flat)
  end.

Section simulation.
(** The state of the [std::mt19937] generator. *)
Context {generator : Type}.
(** [std::uniform_int_distribution<uint32_t>(a, b)(generator)]. *)
Variable uniform_int_distribution : N -> N -> generator -> N * generator.
(** [std::shuffle(first, last, generator)]. *)
Variable shuffle : list nat -> generator -> list nat * generator.

(** The loop [founders_d[distribution(generator)]++], [count] times. *)
Fixpoint draw_founders (count : nat) (a b : N) (founders_d : list N) (g : generator)
  : M (list N * generator) :=
  match count with
  | O => mret (founders_d, g)
  | S count' =>
      let '(f, g') := uniform_int_distribution a b g in
      if decide (N.to_nat f < length founders_d)%nat then
        draw_founders count' a b
                      (alter (λ m, u32 (m + 1)) (N.to_nat f) founders_d) g'
      else undefined
  end.

(** [simulate_founders_distribution]. *)
Definition simulate_founders_distribution (founders_d : list N)
    (n_founders n_samples n_ploidy : N) (g : generator)
  : M (list N * generator) :=
  SEQAN_ASSERT "n_samples > 0u" (0 <? n_samples)%N;;
  SEQAN_ASSERT "n_founders <= n_samples * n_ploidy"
               (n_founders <=? u32 (n_samples * n_ploidy))%N;;
  let founders_d := resize founders_d (N.to_nat n_founders) 1%N in
  let count := u32_sub (u32 (n_samples * n_ploidy)) n_founders in
  '(founders_d, g) ← draw_founders (N.to_nat count) 0 (u32_sub n_founders 1)
                                   founders_d g;
  cerr (LogFoundersDistribution founders_d);;
  mret (founders_d, g).

(** The [std::fill_n] loop: founder [f] is written [founders_d[f]]
    times, founders in order. *)
Definition fill_founders (founders_d : list N) : list nat :=
  concat (imap (λ f m, replicate (N.to_nat m) f) founders_d).

(** [simulate_haplotypes_map].  The table has [n_samples * n_ploidy]
    entries, a [size_t] that does not wrap.  Writing past its end is
    undefined; entries that [fill_n] does not reach stay 0. *)
Definition simulate_haplotypes_map (founders_d : list N)
    (n_samples n_ploidy : N) (g : generator)
  : M (haplotypes_map * generator) :=
  SEQAN_ASSERT "accumulate(founders_d) == n_samples * n_ploidy"
               (accumulate_u32 founders_d =? u32 (n_samples * n_ploidy))%N;;
  let num_elements := (n_samples * n_ploidy)%N in
  let filled := fill_founders founders_d in
  if decide (num_elements < N.of_nat (length filled))%N then undefined
  else
    SEQAN_ASSERT "haplotypes_m_it == haplotypes_m_end"
                 (N.of_nat (length filled) =? num_elements)%N;;
    let data :=
      filled ++ replicate (N.to_nat num_elements - length filled) 0%nat in
    let '(data, g) := shuffle data g in
    let haplotypes_m := reshape (N.to_nat n_samples) (N.to_nat n_ploidy) data in
    cerr (LogHaplotypesMap haplotypes_m);;
    mret (haplotypes_m, g).
End simulation.

(** ** Fitting all markers *)

(** [descent_fitting<n_ploidy>::fit], with its [DISTANCE] line. *)
Definition descent_fitting_fit (n_ploidy : nat) (haplotypes_m : haplotypes_map)
    (alts : founders_alts) (dosages_d_in : list Q) : M (founders_alts * Q) :=
  let '(alts, distance) := descent_fit n_ploidy haplotypes_m dosages_d_in alts in
  let dosages_d_out :=
    make_dosages_distribution n_ploidy
      (view_genotypes (fill_samples_alts haplotypes_m) alts) in
  cerr (LogDistance distance dosages_d_in dosages_d_out);;
  mret (alts, distance).

(** The loop of [fit_founders_alts_vector]; reading [dosages_v] past its
    end is undefined. *)
Fixpoint fit_markers (fit : founders_alts -> list Q -> M (founders_alts * Q))
    (founders_alts_v : list founders_alts) (dosages_v : list (list Q)) (distances : Q)
  : M (list founders_alts * Q) :=
  match founders_alts_v, dosages_v with
  | [], _ => mret ([], distances)
  | _ :: _, [] => undefined
  | alts :: founders_alts_v', dosages_d :: dosages_v' =>
      '(alts', distance) ← fit alts dosages_d;
      '(fitted, distances') ← fit_markers fit founders_alts_v' dosages_v'
                                          (distances + distance);
      mret (alts' :: fitted, distances')
  end.

(** [fit_founders_alts_vector]. *)
Definition fit_founders_alts_vector
    (fit : founders_alts -> list Q -> M (founders_alts * Q))
    (founders_alts_v : list founders_alts) (dosages_v : list (list Q))
  : M (list founders_alts) :=
  '(fitted, distances) ← fit_markers fit founders_alts_v dosages_v 0;
  cerr (LogDistances distances);;
  foldr (λ alts rest, cerr (LogFoundersAllele alts);; rest) (mret ()) fitted;;
  mret fitted.

(** ** VCF output *)

(** A text between double quotes. *)
Definition quoted (s : string) : string :=
  (String (ascii_of_nat 34) s ++ String (ascii_of_nat 34) EmptyString)%string.

(** [write_genotype]: the alleles joined by [|]. *)
Definition write_genotype (genotype : list nat) : string :=
  String.concat "|" (map pretty genotype).

(** [seqan::VcfFileOut], as [write_vcf] fills it. *)
Record VcfFileOut := {
  out_contigNames : list string;
  out_sampleNames : list string;
  out_header : list (string * string);
  out_records : list (VcfRecord * string);   (* record and its [id] *)
}.

(** [write_vcf]; [samples_alts_v.front()] of an empty vector is
    undefined.  The output is taken as opened: [seqan::_open] belongs to
    SeqAn, and its failure, an exception that [main] answers with status
    1, is outside the model. *)
Definition write_vcf (contig_names : list string) (vars : variants)
    (samples_alts_v : list (list (list nat))) : M VcfFileOut :=
  match samples_alts_v with
  | [] => undefined
  | front :: _ =>
      let n_samples := length front in
      mret {|
        out_contigNames := contig_names;
        out_sampleNames :=
          map (λ sample, ("SAMPLE_" ++ pretty sample)%string) (seq 0 n_samples);
        out_header :=
          [("fileformat", "VCFv4.2");
           ("FORMAT", "<ID=GT,Number=1,Type=String,Description=" ++ quoted "Genotype" ++ ">")]%string
          ++ map (λ contigName, ("contig", "<ID=" ++ contigName ++ ">")%string)
                 contig_names;
        out_records :=
          imap (λ marker_id genotypes,
                  let position := default (0, 0)%nat (positions vars !! marker_id) in
                  let allele := default (EmptyString, EmptyString)
                                        (alleles vars !! marker_id) in
                  ({| rID := position.1; beginPos := position.2;
                      ref := allele.1; alt := allele.2;
                      genotypeInfos := map write_genotype genotypes |},
                   pretty marker_id))
               samples_alts_v
      |}
  end.

(** ** The application *)

Module app_options.
(** [struct app_options], after [parse]. *)
Record t := {
  vcf_filename_in : string;
  vcf_filename_out : string;
  n_ploidy : N;
  n_founders : N;
  n_samples : N;
  n_markers : N;
  seed : N;
  mip : bool;
}.
End app_options.

(** How the process ends: [main] returns a status, [abort()] is called,
    or the behaviour is undefined. *)
Inductive termination :=
| Returned (status : Z)
| Aborted
| UndefinedBehaviour.

(** What a run of the program leaves behind. *)
Record process := {
  stderr : list log_line;
  output : option VcfFileOut;
  result : termination;
}.

Definition exception_what (e : exception) : string :=
  match e with
  | IOError what => what
  | RuntimeError what => what
  end.

Section app.
Context {generator : Type}.
(** [std::mt19937 generator(seed)]. *)
Variable seed_generator : N -> generator.
Variable uniform_int_distribution : N -> N -> generator -> N * generator.
Variable shuffle : list nat -> generator -> list nat * generator.
(** [mip.solve()] on the program built for a ploidy, a map, a number
    of founders and a target. *)
Variable solve : nat -> haplotypes_map -> nat -> list Q -> option mip_solution.

(** [run<n_ploidy>].  The targets are numbers: the normalization is the
    one on rationals, so the run of a file with a marker without a known
    genotype, whose target is NaN in the code, is outside this
    definition (see [ieee]). *)
Definition run (n_ploidy : nat) (options : app_options.t) (vcf_file_in : VcfFileIn)
  : M VcfFileOut :=
  let g := seed_generator (app_options.seed options) in
  let n_founders := app_options.n_founders options in
  let n_samples := app_options.n_samples options in
  '(contig_names, data) ← read_vcf n_ploidy vcf_file_in;
  let n_markers := length (vd_dosages_v data) in
  let dosages_v :=
    normalize_dosages_vector (vd_dosages_v data) (N.to_nat n_samples) in
  '(founders_d, g) ← simulate_founders_distribution uniform_int_distribution
                       [] n_founders n_samples (N.of_nat n_ploidy) g;
  '(haplotypes_m, g) ← simulate_haplotypes_map shuffle founders_d n_samples
                         (N.of_nat n_ploidy) g;
  let founders_alts_v :=
    replicate n_markers (replicate (N.to_nat n_founders) 0%nat) in
  fitted ←
    (if app_options.mip options then
       fit_founders_alts_vector
         (mip_fit n_ploidy haplotypes_m (N.to_nat n_founders)
                  (solve n_ploidy haplotypes_m (N.to_nat n_founders)))
         founders_alts_v dosages_v
     else
       fit_founders_alts_vector (descent_fitting_fit n_ploidy haplotypes_m)
                                founders_alts_v dosages_v);
  let samples_alts_v :=
    map (view_genotypes (fill_samples_alts haplotypes_m)) fitted in
  foldr (λ alleles rest, cerr (LogSamplesAllele alleles);; rest) (mret ())
        samples_alts_v;;
  write_vcf contig_names (vd_variants data) samples_alts_v.

(** [main], from the parsed options on: the [switch] over the ploidy,
    and the [catch] that reports the exception and returns 1. *)
Definition main (options : app_options.t) (vcf_file_in : VcfFileIn) : process :=
  let n_ploidy := app_options.n_ploidy options in
  let run_result :=
    if decide (2 <= n_ploidy <= 8)%N then run (N.to_nat n_ploidy) options vcf_file_in
    else throw (RuntimeError "Unsupported ploidy") in
  match run_result with
  | (log, Ok vcf_file_out) =>
      {| stderr := log; output := Some vcf_file_out; result := Returned 0 |}
  | (log, Throw e) =>
      {| stderr := log ++ [LogError (exception_what e)]; output := None;
         result := Returned 1 |}
  | (log, AssertFail what) =>
      {| stderr := log ++ [LogAssertion what]; output := None; result := Aborted |}
  | (log, Undef) =>
      {| stderr := log; output := None; result := UndefinedBehaviour |}
  end.
End app.

(** ** A stand-in generator for the examples *)

(** A linear congruential generator in place of [std::mt19937]: the
    state is a number, a draw from [[a, b]] is [a] plus the state modulo
    the width of the interval, and a shuffle reverses when the state is
    odd. *)
Module lcg.
Definition next (g : N) : N := ((g * 1103515245 + 12345) mod 2 ^ 31)%N.

Definition seed_generator (seed : N) : N := seed.

Definition uniform_int_distribution (a b : N) (g : N) : N * N :=
  ((a + g mod (b - a + 1))%N, next g).

Definition shuffle (l : list nat) (g : N) : list nat * N :=
  (if N.odd g then rev l else l, next g).

(** No solver at hand: [mip.type()] is never [OPTIMAL]. *)
Definition solve (n_ploidy : nat) (haplotypes_m : haplotypes_map)
    (n_founders : nat) (dosages_d_in : list Q) : option mip_solution := None.

Definition main := main seed_generator uniform_int_distribution shuffle solve.
End lcg.

(* ===================================================================== *)
(** * Vocabulary of the specification                                      *)
(* ===================================================================== *)

(** ** Greedy descent fitting *)

(** A founders vector whose entries are all 0 or 1. *)
Definition binary (alts : founders_alts) : Prop :=
  Forall (λ a, a = 0%nat \/ a = 1%nat) alts.

(** Number of founders at 1. *)
Definition ones (alts : founders_alts) : nat := get_dosage alts 1%nat.

(** The target's entries are floats of ordinary size: the probed
    distances stay below [FLT_MAX]. *)
Definition target_in_range (haplotypes_m : haplotypes_map) (dosages_d_in : list Q)
  : Prop :=
  accumulate (map Qabs dosages_d_in) 0 + of_count (length haplotypes_m) < FLT_MAX.

Section descent_vocabulary.
Variable n_ploidy : nat.
Variable haplotypes_m : haplotypes_map.
Variable dosages_d_in : list Q.

Local Abbreviation induced := (induced_distance n_ploidy haplotypes_m dosages_d_in).

(** What the probing pass writes at position [j] of [distances]. *)
Definition probed (alts : founders_alts) (j : nat) : Q :=
  if decide (view_get alts j = 1%nat) then FLT_MAX
  else induced (<[j := 1%nat]> alts).

(** A 0/1 state whose distance, and the distance its vector induces,
    are both at most [bound]. *)
Definition descent_below (bound : Q) (st : descent_state) : Prop :=
  binary (ds_alts st) /\ ds_distance st <= bound /\ induced (ds_alts st) <= bound.

End descent_vocabulary.

(** What the probing pass writes at position [j] of [distances] when the
    target holds NaN. *)
Definition nan_probed (alts : founders_alts) (j : nat) : ieee.float :=
  if decide (view_get alts j = 1%nat) then ieee.Finite FLT_MAX else ieee.NaN.

(** A state of the loop on rationals, as a state on IEEE values. *)
Definition finite_state (st : descent_state) : ieee.descent_state :=
  ieee.DescentState (ds_alts st) (ieee.Finite (ds_distance st)).

(** The stop rule as the specification words it: whenever the smallest
    probed distance is not strictly smaller than the current distance,
    the iteration stops without committing. *)
Definition stops_unless_strictly_smaller : Prop :=
  forall n_ploidy haplotypes_m dosages_d_in st distances alts min_i min_distance,
    transform_probe n_ploidy haplotypes_m dosages_d_in
                    (ds_alts st) 0 (length (ds_alts st)) = (distances, alts) ->
    min_element distances = Some (min_i, min_distance) ->
    ~ min_distance < ds_distance st ->
    descent_iteration n_ploidy haplotypes_m dosages_d_in st = None.

(** ** Loading *)

(** The loader ends in a value, in the ploidy exception, or undefined. *)
Definition load_outcome {A} (r : outcome A) : Prop :=
  (exists a, r = Ok a) \/ r = Throw ploidy_mismatch \/ r = Undef.

(** A known genotype of the wrong ploidy among the genotypes of a record. *)
Definition wrong_ploidy (n_ploidy : nat) (genotype_info : string) : Prop :=
  is_unknown (read_genotype genotype_info) = Some false /\
  get_ploidy (read_genotype genotype_info) <> n_ploidy.

(** A record that [read_vcf] skips: its [alt] holds a comma. *)
Definition polyallelic (vcf_record : VcfRecord) : Prop :=
  (readUntil (Ascii.eqb ",") (list_ascii_of_string (alt vcf_record))).2 <> [].

(** The statement of C5 as the specification words it: any known
    genotype of the wrong ploidy, anywhere in the file, makes the load
    end in the ploidy exception. *)
Definition wrong_ploidy_always_aborts : Prop :=
  forall n_ploidy vcf_file_in r gi,
    r ∈ records vcf_file_in -> gi ∈ genotypeInfos r ->
    wrong_ploidy n_ploidy gi ->
    (read_vcf n_ploidy vcf_file_in).2 = Throw ploidy_mismatch.

(** The process ends with a non-zero status: [main] returns one, or
    [abort()] ends it with [SIGABRT]. *)
Definition exits_nonzero (t : termination) : Prop :=
  match t with
  | Returned status => status <> 0%Z
  | Aborted => True
  | UndefinedBehaviour => False
  end.

(** The [DISTANCE] line that every call of a fitter writes. *)
Definition fit_line (line : log_line) : Prop :=
  match line with
  | LogDistance _ _ _ => True
  | _ => False
  end.

(** ** Example inputs *)

(** A file whose second marker has two alternate alleles and a genotype
    of three alleles. *)
Definition polyallelic_file : VcfFileIn :=
  {| contigNames := ["chr1"%string];
     records :=
       [ {| rID := 0; beginPos := 10; ref := "A"; alt := "C";
            genotypeInfos := ["0/1"; "1/1"]%string |};
         {| rID := 0; beginPos := 20; ref := "G"; alt := "T,C";
            genotypeInfos := ["0/1/1"; "0/0"]%string |} ] |}.

(** A file whose second marker holds a genotype of three alleles. *)
Definition triploid_genotype_file : VcfFileIn :=
  {| contigNames := ["chr1"%string];
     records :=
       [ {| rID := 0; beginPos := 10; ref := "A"; alt := "C";
            genotypeInfos := ["0/1"; "./."]%string |};
         {| rID := 0; beginPos := 20; ref := "G"; alt := "T";
            genotypeInfos := ["0/0"; "0/1/1"; "1/1"]%string |};
         {| rID := 0; beginPos := 30; ref := "G"; alt := "T";
            genotypeInfos := ["0/0"; "0/1"; "1/1"]%string |} ] |}.

(** A file whose only marker has no known genotype. *)
Definition unknown_genotypes_file : VcfFileIn :=
  {| contigNames := ["chr1"%string];
     records :=
       [ {| rID := 0; beginPos := 10; ref := "A"; alt := "C";
            genotypeInfos := ["./."; "./."]%string |} ] |}.

(** Two founders, two diploid samples, greedy fitting. *)
Definition diploid_options : app_options.t :=
  {| app_options.vcf_filename_in := "in.vcf";
     app_options.vcf_filename_out := "out.vcf";
     app_options.n_ploidy := 2; app_options.n_founders := 2;
     app_options.n_samples := 2; app_options.n_markers := 1;
     app_options.seed := 0; app_options.mip := false |}.

(** Five founders for four haplotypes. *)
Definition too_many_founders_options : app_options.t :=
  {| app_options.vcf_filename_in := "in.vcf";
     app_options.vcf_filename_out := "out.vcf";
     app_options.n_ploidy := 2; app_options.n_founders := 5;
     app_options.n_samples := 2; app_options.n_markers := 1;
     app_options.seed := 0; app_options.mip := false |}.

(** ** Simulation *)

(** What the standard library promises of the generator: a draw from
    [[a, b]] lies in that interval, and a shuffle permutes. *)
Definition draws_in_range {generator : Type}
    (uniform_int_distribution : N -> N -> generator -> N * generator) : Prop :=
  forall a b g, (a <= b)%N ->
    (a <= (uniform_int_distribution a b g).1 <= b)%N.

Definition shuffle_permutes {generator : Type}
    (shuffle : list nat -> generator -> list nat * generator) : Prop :=
  forall l g, (shuffle l g).1 ≡ₚ l.

(** The sum of the multiplicities, without wrap-around. *)
Definition sum_N (l : list N) : N := foldr N.add 0%N l.

(** The haplotypes map the specification asks for: [n_samples] rows of
    [n_ploidy] founders below [n_founders]; founder [f] fills exactly
    [founders_d[f]] slots, at least one; the multiplicities sum to
    [n_samples * n_ploidy]. *)
Definition haplotypes_map_ok (n_founders n_samples n_ploidy : N)
    (founders_d : list N) (haplotypes_m : haplotypes_map) : Prop :=
  length haplotypes_m = N.to_nat n_samples /\
  Forall (λ sample, length sample = N.to_nat n_ploidy) haplotypes_m /\
  length founders_d = N.to_nat n_founders /\
  (forall f m, founders_d !! f = Some m ->
     (1 <= m)%N /\ get_dosage (concat haplotypes_m) f = N.to_nat m) /\
  sum_N founders_d = (n_samples * n_ploidy)%N /\
  Forall (λ f, f < N.to_nat n_founders)%nat (concat haplotypes_m).

(** The simulation succeeds with such a map. *)
Definition simulates_map {generator : Type}
    (uniform_int_distribution : N -> N -> generator -> N * generator)
    (shuffle : list nat -> generator -> list nat * generator)
    (n_founders n_samples n_ploidy : N) (g : generator) : Prop :=
  exists log1 founders_d g1 log2 haplotypes_m g2,
    simulate_founders_distribution uniform_int_distribution []
                                   n_founders n_samples n_ploidy g
      = (log1, Ok (founders_d, g1)) /\
    simulate_haplotypes_map shuffle founders_d n_samples n_ploidy g1
      = (log2, Ok (haplotypes_m, g2)) /\
    haplotypes_map_ok n_founders n_samples n_ploidy founders_d haplotypes_m.

(** C7 as the specification words it: every seed, every configuration
    with [1 <= n_founders <= n_samples * n_ploidy]. *)
Definition every_valid_configuration_simulates : Prop :=
  forall (generator : Type)
         (uniform_int_distribution : N -> N -> generator -> N * generator)
         (shuffle : list nat -> generator -> list nat * generator),
    draws_in_range uniform_int_distribution -> shuffle_permutes shuffle ->
    forall (n_founders n_samples n_ploidy : N) (g : generator),
      (n_founders < 2 ^ 32)%N -> (n_samples < 2 ^ 32)%N -> (2 <= n_ploidy <= 8)%N ->
      (1 <= n_founders <= n_samples * n_ploidy)%N ->
      simulates_map uniform_int_distribution shuffle
                    n_founders n_samples n_ploidy g.

(** The table filled from founder [k] on. *)
Definition fill_from (k : nat) (founders_d : list N) : list nat :=
  concat (imap (λ f m, replicate (N.to_nat m) (k + f)%nat) founders_d).

(** ** Exact fitting *)

(** The histogram loop of [make_dosages_distribution], on the dosages. *)
Definition histogram (dosages : list nat) (init : list nat) : list nat :=
  foldl (λ dosages_d dosage, alter S dosage dosages_d) init dosages.

(** The founders vector read back from a solution. *)
Definition alts_of (n_founders : nat) (sol : mip_solution) : founders_alts :=
  map (λ a, Z.to_nat (sol_alts sol a)) (seq 0 n_founders).

(** Every sample has [n_ploidy] haplotypes, mapped to founders below
    [n_founders]. *)
Definition map_in_range (n_ploidy : nat) (haplotypes_m : haplotypes_map)
    (n_founders : nat) : Prop :=
  Forall (λ sample, length sample = n_ploidy /\
                    Forall (λ f, f < n_founders)%nat sample) haplotypes_m.

(** The dosage of every sample under a founders vector. *)
Definition sample_dosages (haplotypes_m : haplotypes_map) (alts : founders_alts)
  : list nat :=
  map (λ genotype, get_dosage genotype 1%nat)
      (view_genotypes (fill_samples_alts haplotypes_m) alts).

(** The point of the program that a founders vector stands for: the
    indicator of a sample is set at its dosage, the error is the gap to
    the dosage, [mip_dosages] counts the samples, and [z] is the gap to
    the target. *)
Definition point_of (haplotypes_m : haplotypes_map) (alts : founders_alts)
    (dosages_d_in : list Q) : mip_solution :=
  let dosages := sample_dosages haplotypes_m alts in
  {| sol_z := λ p, Qabs (inject_Z (Z.of_nat (get_dosage dosages p))
                         - default 0 (dosages_d_in !! p));
     sol_dosages := λ p, Z.of_nat (get_dosage dosages p);
     sol_errors := λ s p,
       inject_Z (Z.abs (Z.of_nat p - Z.of_nat (default 0%nat (dosages !! s))));
     sol_indicators := λ s p,
       if decide (default 0%nat (dosages !! s) = p) then 1%Z else 0%Z;
     sol_alts := λ a, Z.of_nat (view_get alts a) |}.

(** What is assumed of [mip.solve()] on the program of one target: when
    it reports [OPTIMAL] the point is optimal, and it reports [OPTIMAL]
    whenever an optimal point exists. *)
Definition solver_exact (n_ploidy : nat) (haplotypes_m : haplotypes_map)
    (n_founders : nat) (solve : list Q -> option mip_solution)
    (dosages_d_in : list Q) : Prop :=
  (forall sol, solve dosages_d_in = Some sol ->
               mip_optimal n_ploidy haplotypes_m n_founders dosages_d_in sol) /\
  ((exists sol, mip_optimal n_ploidy haplotypes_m n_founders dosages_d_in sol) ->
   is_Some (solve dosages_d_in)).

(** Every founder is mapped to exactly one haplotype slot. *)
Definition bijective_map (n_ploidy : nat) (haplotypes_m : haplotypes_map)
    (n_founders : nat) : Prop :=
  Forall (λ sample, length sample = n_ploidy) haplotypes_m /\
  concat haplotypes_m ≡ₚ seq 0 n_founders.

(** The founders vector with the founders of [marked] at 1. *)
Definition mark (marked : list nat) (n_founders : nat) : founders_alts :=
  map (λ f, if decide (f ∈ marked) then 1%nat else 0%nat) (seq 0 n_founders).

(** The dosages to hand out, sample by sample: [target[0]] samples of
    dosage 0, then [target[1]] of dosage 1, and so on. *)
Definition wanted_dosages (target : list nat) : list nat :=
  fill_from 0 (map N.of_nat target).

(** The first [dosage] founders of every sample. *)
Definition first_founders (wanted : list nat) (haplotypes_m : haplotypes_map)
  : list nat :=
  concat (zip_with take wanted haplotypes_m).

(** C2 as the specification words it: on a bijective map, for every
    target of non-negative entries that sum to [n_samples], the exact
    fitter returns distance 0 and a vector that induces the target. *)
Definition mip_reproduces_every_target : Prop :=
  forall n_ploidy haplotypes_m n_founders solve (alts : founders_alts)
         (dosages_d_in : list Q),
    bijective_map n_ploidy haplotypes_m n_founders ->
    length dosages_d_in = S n_ploidy ->
    Forall (λ d, 0 <= d) dosages_d_in ->
    accumulate dosages_d_in 0 == of_count (length haplotypes_m) ->
    length alts = n_founders ->
    solver_exact n_ploidy haplotypes_m n_founders solve dosages_d_in ->
    exists log alts' distance,
      mip_fit n_ploidy haplotypes_m n_founders solve alts dosages_d_in
        = (log, Ok (alts', distance)) /\
      distance == 0 /\
      Forall2 (λ d d', d == of_count d') dosages_d_in
              (make_dosages_distribution n_ploidy
                 (view_genotypes (fill_samples_alts haplotypes_m) alts')).

(** ** Vocabulary of the further properties *)
(** *** Loading, field by field *)

(** A genotype field that the loader counts: its genotype is not empty
    and does not end in [.]. *)
Definition known (genotype_info : string) : Prop :=
  is_unknown (read_genotype genotype_info) = Some false.

Global Instance known_dec genotype_info : Decision (known genotype_info) :=
  decide (is_unknown (read_genotype genotype_info) = Some false).

(** A genotype field that the loader skips with an [UNKNOWN] line. *)
Definition unknown (genotype_info : string) : Prop :=
  is_unknown (read_genotype genotype_info) = Some true.

Global Instance unknown_dec genotype_info : Decision (unknown genotype_info) :=
  decide (is_unknown (read_genotype genotype_info) = Some true).

(** The dosages of the counted genotypes of a record, in order. *)
Definition known_dosages (infos : list string) : list nat :=
  map (λ genotype_info, get_dosage (read_genotype genotype_info) "1"%char)
      (filter known infos).

Global Instance polyallelic_dec vcf_record : Decision (polyallelic vcf_record) :=
  decide ((readUntil (Ascii.eqb ",") (list_ascii_of_string (alt vcf_record))).2 <> []).

(** The records that [read_vcf] keeps, in order. *)
Definition biallelic_records (rs : list VcfRecord) : list VcfRecord :=
  filter (λ vcf_record, ~ polyallelic vcf_record) rs.

(** The character that [appendNumber] writes for an allele 0 or 1. *)
Definition allele_char (allele : nat) : ascii :=
  if decide (allele = 1%nat) then "1"%char else "0"%char.

(** *** Exact fitting: all candidate vectors *)

(** All 0/1 founders vectors of a given length. *)
Fixpoint binary_vectors (n_founders : nat) : list founders_alts :=
  match n_founders with
  | O => [[]]
  | S n => map (cons 0%nat) (binary_vectors n) ++ map (cons 1%nat) (binary_vectors n)
  end.

(** *** Fitting all markers *)

(** The [DISTANCE] line of the greedy fitter for one marker. *)
Definition descent_line (n_ploidy : nat) (haplotypes_m : haplotypes_map)
    (alts : founders_alts) (dosages_d_in : list Q) : log_line :=
  let '(alts', distance) := descent_fit n_ploidy haplotypes_m dosages_d_in alts in
  LogDistance distance dosages_d_in
    (make_dosages_distribution n_ploidy
       (view_genotypes (fill_samples_alts haplotypes_m) alts')).

(** *** The application *)





(** Closed instances of [binary] and [map_in_range]. *)
Ltac solve_binary :=
  unfold binary; repeat (apply List.Forall_cons; [auto|]); apply List.Forall_nil.

Ltac solve_map_in_range :=
  unfold map_in_range;
  repeat (apply List.Forall_cons;
          [split; [reflexivity
                  | repeat (apply List.Forall_cons; [simpl; lia|]);
                    apply List.Forall_nil]|]);
  apply List.Forall_nil.

(* ===================================================================== *)
(** * Properties                                                           *)
(* ===================================================================== *)

(** ** Comparison of distances *)

Lemma Qltb_lt a b : Qltb a b = true <-> a < b.
Proof.
  unfold Qltb. rewrite negb_true_iff. split.
  - intros H. apply Qnot_le_lt. intros Hle.
    apply Qle_bool_iff in Hle. congruence.
  - intros H. destruct (Qle_bool b a) eqn:E; [|reflexivity].
    apply Qle_bool_iff in E. lra.
Qed.

Lemma Qltb_ge a b : Qltb a b = false <-> b <= a.
Proof.
  unfold Qltb. rewrite negb_false_iff. apply Qle_bool_iff.
Qed.

(** ** Greedy descent fitting *)

Example descent_fit_tie :
  let '(alts, distance) := descent_fit 2 [[0; 0]]%nat [1 # 2; 0; 1 # 2] [0%nat] in
  alts = [1%nat] /\ distance == 1.
Proof. vm_compute. split; reflexivity. Qed.

Lemma binary_zeros (alts_in : founders_alts) : binary (map (λ _, 0%nat) alts_in).
Proof. induction alts_in; constructor; auto. Qed.

Lemma binary_insert_1 alts i : binary alts -> binary (<[i := 1%nat]> alts).
Proof.
  intros H. revert i. induction H as [|a l Ha Hl IH]; intros [|i]; simpl;
    constructor; auto. apply IH.
Qed.

Lemma binary_lookup alts j a :
  binary alts -> alts !! j = Some a -> a = 0%nat \/ a = 1%nat.
Proof. intros H Hj. eapply (proj1 (Forall_lookup _ _) H); eauto. Qed.

Lemma ones_zeros (alts_in : founders_alts) : ones (map (λ _, 0%nat) alts_in) = 0%nat.
Proof.
  unfold ones, get_dosage. induction alts_in as [|a l IH]; [reflexivity|].
  simpl. rewrite filter_cons_False; [exact IH | discriminate].
Qed.

Lemma ones_insert_1 alts i :
  (i < length alts)%nat -> view_get alts i <> 1%nat ->
  ones (<[i := 1%nat]> alts) = S (ones alts).
Proof.
  unfold ones, get_dosage, view_get. revert i.
  induction alts as [|a l IH]; intros i Hi Hne; [simpl in Hi; lia|].
  destruct i as [|i]; cbn [list_insert insert] in *.
  - simpl in Hne. rewrite !filter_cons.
    destruct (decide (1%nat = 1%nat)); [|congruence].
    destruct (decide (a = 1%nat)); [congruence|]. reflexivity.
  - simpl in Hi, Hne. rewrite !filter_cons.
    destruct (decide (a = 1%nat)); simpl; rewrite IH; auto; lia.
Qed.

Lemma insert_1_id alts i : view_get alts i = 1%nat -> <[i := 1%nat]> alts = alts.
Proof.
  unfold view_get. intros H. apply list_insert_id.
  destruct (alts !! i) as [a|]; simpl in H; [subst a; reflexivity | discriminate].
Qed.

(** [std::min_element] returns a position of the list holding a value
    that no entry undercuts, and every entry before it is strictly
    larger. *)
Lemma min_element_from_spec l : forall best_i best i r_i r,
  min_element_from best_i best i l = (r_i, r) ->
  r <= best /\ Forall (λ x, r <= x) l /\
  ((r_i = best_i /\ r = best) \/
   (exists k, r_i = (i + k)%nat /\ l !! k = Some r /\ r < best /\
              forall k' x, (k' < k)%nat -> l !! k' = Some x -> r < x)).
Proof.
  induction l as [|x l IH]; intros best_i best i r_i r H; simpl in H.
  - inversion H; subst. split; [lra|]. split; [constructor|]. left; auto.
  - destruct (Qltb x best) eqn:E.
    + apply Qltb_lt in E.
      destruct (IH _ _ _ _ _ H) as (Hle & Hall & Hpos).
      split; [lra|]. split; [constructor; auto|].
      right. destruct Hpos as [[-> ->] | (k & -> & Hk & Hlt & Hfirst)].
      * exists 0%nat. split; [lia|]. split; [reflexivity|]. split; [exact E|].
        intros k' y Hk'. lia.
      * exists (S k). split; [lia|]. split; [exact Hk|]. split; [lra|].
        intros [|k'] y Hk' Hy; simpl in Hy.
        -- inversion Hy; subst. exact Hlt.
        -- apply (Hfirst k' y); [lia | exact Hy].
    + apply Qltb_ge in E.
      destruct (IH _ _ _ _ _ H) as (Hle & Hall & Hpos).
      split; [exact Hle|]. split; [constructor; [lra | exact Hall]|].
      destruct Hpos as [[-> ->] | (k & -> & Hk & Hlt & Hfirst)].
      * left; auto.
      * right. exists (S k). split; [lia|]. split; [exact Hk|]. split; [exact Hlt|].
        intros [|k'] y Hk' Hy; simpl in Hy.
        -- inversion Hy; subst. lra.
        -- apply (Hfirst k' y); [lia | exact Hy].
Qed.

Lemma min_element_spec l i m :
  min_element l = Some (i, m) ->
  l !! i = Some m /\ Forall (λ x, m <= x) l /\
  forall k x, (k < i)%nat -> l !! k = Some x -> m < x.
Proof.
  destruct l as [|x l]; simpl; [discriminate|]. intros H. inversion H as [H'].
  destruct (min_element_from_spec _ _ _ _ _ _ H') as (Hle & Hall & Hpos).
  destruct Hpos as [[-> ->] | (k & -> & Hk & Hlt & Hfirst)].
  - split; [reflexivity|]. split; [constructor; [lra | exact Hall]|].
    intros k y Hk. lia.
  - split; [exact Hk|]. split; [constructor; [lra | exact Hall]|].
    intros [|k'] y Hk' Hy; simpl in Hy.
    + inversion Hy; subst. exact Hlt.
    + apply (Hfirst k' y); [lia | exact Hy].
Qed.

(** *** Arithmetic of distances *)

Lemma of_count_nonneg n : 0 <= of_count n.
Proof. unfold of_count, Qle. simpl. lia. Qed.

Lemma of_count_plus n m : of_count (n + m) == of_count n + of_count m.
Proof. unfold of_count. rewrite Nat2Z.inj_add, inject_Z_plus. reflexivity. Qed.

Lemma of_count_le n m : (n <= m)%nat -> of_count n <= of_count m.
Proof. intros H. unfold of_count. rewrite <- Zle_Qle. lia. Qed.

Lemma accumulate_init l : forall init, accumulate l init == init + accumulate l 0.
Proof.
  unfold accumulate. induction l as [|x l IH]; intros init; simpl.
  - lra.
  - rewrite (IH (init + x)), (IH (0 + x)). lra.
Qed.

Lemma accumulate_cons x l : accumulate (x :: l) 0 == x + accumulate l 0.
Proof.
  change (accumulate (x :: l) 0) with (accumulate l (0 + x)).
  rewrite accumulate_init. lra.
Qed.

Lemma accumulate_abs_nonneg l : 0 <= accumulate (map Qabs l) 0.
Proof.
  induction l as [|x l IH]; [unfold accumulate; simpl; lra|].
  change (map Qabs (x :: l)) with (Qabs x :: map Qabs l).
  rewrite accumulate_cons. pose proof (Qabs_nonneg x). lra.
Qed.

Lemma Qabs_sub_count a n : Qabs (a - of_count n) <= Qabs a + of_count n.
Proof.
  pose proof (of_count_nonneg n).
  apply Qabs_case; intros; revert H; apply (Qabs_case a); intros; lra.
Qed.

Lemma inner_product_bound a : forall b init,
  inner_product a b init <=
  init + accumulate (map Qabs a) 0 + of_count (sum_list b).
Proof.
  induction a as [|x a IH]; intros b init.
  - pose proof (of_count_nonneg (sum_list b)).
    change (accumulate (map Qabs []) 0) with 0.
    destruct b; cbn [inner_product]; lra.
  - pose proof (accumulate_abs_nonneg (x :: a)).
    destruct b as [|y b]; cbn [inner_product].
    + pose proof (of_count_nonneg (sum_list [])). lra.
    + pose proof (IH b (init + Qabs (x - of_count y))) as IHb.
      change (map Qabs (x :: a)) with (Qabs x :: map Qabs a).
      rewrite accumulate_cons.
      change (sum_list (y :: b)) with (y + sum_list b)%nat.
      rewrite of_count_plus. pose proof (Qabs_sub_count x y). lra.
Qed.

Lemma sum_list_alter_S (l : list nat) k : (sum_list (alter S k l) <= S (sum_list l))%nat.
Proof.
  revert k. induction l as [|x l IH]; intros [|k]; simpl; try lia.
  specialize (IH k). change (list_alter S k l) with (alter S k l). lia.
Qed.

Lemma sum_list_replicate_0 n : sum_list (replicate n 0%nat) = 0%nat.
Proof. induction n; simpl; auto. Qed.

Lemma sum_make_dosages_distribution n_ploidy genotypes :
  (sum_list (make_dosages_distribution n_ploidy genotypes) <= length genotypes)%nat.
Proof.
  unfold make_dosages_distribution.
  assert (G : forall gs d,
    (sum_list (foldl (λ dosages_d genotype,
                        alter S (get_dosage genotype 1%nat) dosages_d) d gs)
     <= sum_list d + length gs)%nat).
  { induction gs as [|g gs IH]; intros d; simpl; [lia|].
    specialize (IH (alter S (get_dosage g 1%nat) d)).
    pose proof (sum_list_alter_S d (get_dosage g 1%nat)). lia. }
  specialize (G genotypes (replicate (S n_ploidy) 0%nat)).
  rewrite sum_list_replicate_0 in G. exact G.
Qed.

Lemma induced_distance_in_range n_ploidy haplotypes_m dosages_d_in alts :
  target_in_range haplotypes_m dosages_d_in ->
  induced_distance n_ploidy haplotypes_m dosages_d_in alts < FLT_MAX.
Proof.
  unfold target_in_range, induced_distance, l1_norm. intros H.
  eapply Qle_lt_trans; [apply inner_product_bound|].
  eapply Qle_lt_trans; [|exact H].
  match goal with |- context [sum_list ?d] =>
    assert (Hs : of_count (sum_list d) <= of_count (length haplotypes_m)) end.
  { apply of_count_le.
    etransitivity; [apply sum_make_dosages_distribution|].
    unfold view_genotypes, samples_alts_view, fill_samples_alts.
    rewrite !length_map. reflexivity. }
  lra.
Qed.

Lemma accumulate_abs_nonneg_entries l :
  Forall (λ d, 0 <= d) l -> accumulate (map Qabs l) 0 == accumulate l 0.
Proof.
  induction 1 as [|x l Hx Hl IH]; [reflexivity|].
  change (map Qabs (x :: l)) with (Qabs x :: map Qabs l).
  rewrite !accumulate_cons, IH, (Qabs_pos x Hx). reflexivity.
Qed.

(** A normalized target (non-negative entries that sum to the number of
    samples, a [uint32_t]) is in range. *)
Lemma normalized_target_in_range haplotypes_m dosages_d_in :
  Forall (λ d, 0 <= d) dosages_d_in ->
  accumulate dosages_d_in 0 == of_count (length haplotypes_m) ->
  (Z.of_nat (length haplotypes_m) < 2 ^ 32)%Z ->
  target_in_range haplotypes_m dosages_d_in.
Proof.
  intros Hpos Hsum Hu32. unfold target_in_range.
  rewrite (accumulate_abs_nonneg_entries _ Hpos), Hsum.
  assert (H : of_count (length haplotypes_m) < inject_Z (2 ^ 32))
    by (unfold of_count; rewrite <- Zlt_Qlt; exact Hu32).
  assert (Hmax : inject_Z (2 ^ 32) + inject_Z (2 ^ 32) < FLT_MAX) by reflexivity.
  lra.
Qed.

(** *** The probing pass *)

Section descent_props.
Variable n_ploidy : nat.
Variable haplotypes_m : haplotypes_map.
Variable dosages_d_in : list Q.

Local Abbreviation induced := (induced_distance n_ploidy haplotypes_m dosages_d_in).
Local Abbreviation iteration := (descent_iteration n_ploidy haplotypes_m dosages_d_in).
Local Abbreviation loop := (descent_loop n_ploidy haplotypes_m dosages_d_in).
Local Abbreviation commits := (descent_commits n_ploidy haplotypes_m dosages_d_in).
Local Abbreviation probed_at := (probed n_ploidy haplotypes_m dosages_d_in).
Local Abbreviation below := (descent_below n_ploidy haplotypes_m dosages_d_in).

(** On a 0/1 vector a probe restores the vector. *)
Lemma probe_binary alts j :
  binary alts ->
  probe n_ploidy haplotypes_m dosages_d_in alts j = (probed_at alts j, alts).
Proof.
  intros Hb. unfold probe, probed.
  destruct (decide (view_get alts j = 1%nat)) as [E|E]; [reflexivity|].
  f_equal. rewrite list_insert_insert_eq.
  destruct (alts !! j) as [a|] eqn:Hj.
  - apply list_insert_id. rewrite Hj. f_equal.
    destruct (binary_lookup _ _ _ Hb Hj) as [->| ->]; [reflexivity|].
    exfalso. apply E. unfold view_get. rewrite Hj. reflexivity.
  - apply list_insert_ge. apply lookup_ge_None. exact Hj.
Qed.

Lemma transform_probe_binary alts :
  binary alts -> forall k j,
  transform_probe n_ploidy haplotypes_m dosages_d_in alts j k
  = (map (probed_at alts) (seq j k), alts).
Proof.
  intros Hb. induction k as [|k IH]; intros j; [reflexivity|].
  cbn [transform_probe]. rewrite (probe_binary _ _ Hb), IH. reflexivity.
Qed.

(** An iteration on a 0/1 vector, in terms of the probed distances. *)
Lemma descent_iteration_binary st :
  binary (ds_alts st) ->
  iteration st =
  match min_element (map (probed_at (ds_alts st)) (seq 0 (length (ds_alts st)))) with
  | None => None
  | Some (min_i, min_distance) =>
      if Qltb (ds_distance st) min_distance then None
      else Some (DescentState (<[min_i := 1%nat]> (ds_alts st)) min_distance)
  end.
Proof.
  intros Hb. unfold descent_iteration.
  rewrite (transform_probe_binary _ Hb). reflexivity.
Qed.

(** What a committed iteration does. *)
Lemma descent_iteration_commit st st' :
  binary (ds_alts st) -> iteration st = Some st' ->
  exists i, (i < length (ds_alts st))%nat /\
    ds_alts st' = <[i := 1%nat]> (ds_alts st) /\
    ds_distance st' = probed_at (ds_alts st) i /\
    ds_distance st' <= ds_distance st /\
    (forall j, (j < length (ds_alts st))%nat ->
               ds_distance st' <= probed_at (ds_alts st) j) /\
    (forall j, (j < i)%nat -> ds_distance st' < probed_at (ds_alts st) j).
Proof.
  intros Hb. rewrite (descent_iteration_binary _ Hb).
  destruct (min_element _) as [[i m]|] eqn:Hmin; [|discriminate].
  destruct (Qltb (ds_distance st) m) eqn:Hlt; [discriminate|].
  intros H. inversion H; subst st'; clear H. cbn [ds_alts ds_distance].
  apply Qltb_ge in Hlt.
  destruct (min_element_spec _ _ _ Hmin) as (Hi & Hall & Hfirst).
  rewrite list_lookup_fmap in Hi.
  destruct (seq 0 (length (ds_alts st)) !! i) as [i'|] eqn:Hseq; [|discriminate].
  apply lookup_seq in Hseq. destruct Hseq as [-> Hlen]. simpl in Hi.
  inversion Hi as [Hm]. exists i. repeat split; auto.
  - rewrite Hm. exact Hlt.
  - intros j Hj. rewrite Hm.
    apply (proj1 (Forall_lookup _ _) Hall j).
    rewrite list_lookup_fmap, lookup_seq_lt by exact Hj. reflexivity.
  - intros j Hj. rewrite Hm. apply (Hfirst j); [exact Hj|].
    rewrite list_lookup_fmap, lookup_seq_lt by lia. reflexivity.
Qed.

Lemma descent_iteration_preserves_binary st st' :
  binary (ds_alts st) -> iteration st = Some st' -> binary (ds_alts st').
Proof.
  intros Hb H. destruct (descent_iteration_commit _ _ Hb H) as (i & _ & -> & _).
  apply binary_insert_1. exact Hb.
Qed.

(** *** Distances never increase *)

Lemma descent_iteration_below bound st st' :
  below bound st -> iteration st = Some st' -> below bound st'.
Proof.
  intros (Hb & Hd & Hi) H.
  pose proof (descent_iteration_preserves_binary _ _ Hb H) as Hb'.
  destruct (descent_iteration_commit _ _ Hb H) as (i & Hlen & Ha & Hp & Hle & _).
  split; [exact Hb'|]. split; [lra|]. rewrite Ha.
  unfold probed in Hp. destruct (decide (view_get (ds_alts st) i = 1%nat)) as [E|E].
  - rewrite (insert_1_id _ _ E). exact Hi.
  - rewrite <- Hp. lra.
Qed.

Lemma descent_loop_below bound fuel : forall st,
  below bound st -> below bound (loop fuel st).
Proof.
  induction fuel as [|fuel IH]; intros st Hst; [exact Hst|].
  cbn [descent_loop]. destruct (iteration st) as [st'|] eqn:E; [|exact Hst].
  apply IH. eapply descent_iteration_below; eauto.
Qed.

Lemma descent_init_below alts_in :
  let st0 := descent_init n_ploidy haplotypes_m dosages_d_in alts_in in
  below (ds_distance st0) st0.
Proof.
  cbn. split; [apply binary_zeros|]. split; cbn; lra.
Qed.
End descent_props.

(** *** The stop rule *)

(** C1 fails on a tie: with one sample mapped to [f0,f0], target
    [1/2, 0, 1/2] and the all-zero vector at distance 1, the only probe
    also gives distance 1 (not strictly smaller), yet the iteration
    commits the flip instead of stopping. *)
Lemma descent_stop_rule_tie_commits : ~ stops_unless_strictly_smaller.
Proof.
  intros H.
  specialize (H 2%nat [[0; 0]]%nat [1 # 2; 0; 1 # 2] (DescentState [0%nat] 1)
                [4 # 4] [0%nat] 0%nat (4 # 4)).
  assert (E : descent_iteration 2 [[0; 0]]%nat [1 # 2; 0; 1 # 2]
                (DescentState [0%nat] 1) = Some (DescentState [1%nat] (4 # 4)))
    by (vm_compute; reflexivity).
  rewrite E in H. discriminate H.
  - vm_compute; reflexivity.
  - vm_compute; reflexivity.
  - intros Hlt. vm_compute in Hlt. discriminate.
Qed.

(** C1, amended: in every iteration, with [min_distance] the smallest
    entry of the probed [distances] and [min_i] the first position that
    holds it, the fitter stops without committing exactly when the
    current distance is strictly smaller than [min_distance]; whenever
    [min_distance] is smaller than or equal to the current distance (a
    tie included) the flip of founder [min_i], the lowest-index founder
    reaching [min_distance], is committed and [min_distance] becomes the
    current distance.  On a 0/1 vector the entries of [distances] are the
    distances induced by the flip of each founder at 0, and [FLT_MAX] for
    each founder at 1; the pass leaves the vector as it was. *)
Theorem descent_stop_rule n_ploidy haplotypes_m dosages_d_in st
    distances alts min_i min_distance :
  transform_probe n_ploidy haplotypes_m dosages_d_in
                  (ds_alts st) 0 (length (ds_alts st)) = (distances, alts) ->
  min_element distances = Some (min_i, min_distance) ->
  (binary (ds_alts st) ->
   alts = ds_alts st /\
   distances = map (probed n_ploidy haplotypes_m dosages_d_in (ds_alts st))
                   (seq 0 (length (ds_alts st)))) /\
  (distances !! min_i = Some min_distance /\
   Forall (λ d, min_distance <= d) distances /\
   forall j d, (j < min_i)%nat -> distances !! j = Some d -> min_distance < d) /\
  (descent_iteration n_ploidy haplotypes_m dosages_d_in st = None
   <-> ds_distance st < min_distance) /\
  (min_distance <= ds_distance st ->
   descent_iteration n_ploidy haplotypes_m dosages_d_in st
   = Some (DescentState (<[min_i := 1%nat]> alts) min_distance)).
Proof.
  intros Ht Hmin. split.
  { intros Hb. rewrite (transform_probe_binary _ _ _ _ Hb) in Ht.
    inversion Ht. split; reflexivity. }
  split; [exact (min_element_spec _ _ _ Hmin)|].
  unfold descent_iteration. rewrite Ht, Hmin.
  destruct (Qltb (ds_distance st) min_distance) eqn:E.
  - apply Qltb_lt in E. split; [tauto|]. intros H. lra.
  - apply Qltb_ge in E. split; [|reflexivity].
    split; [discriminate|]. intros H. lra.
Qed.

Lemma descent_stop_rule_witness :
  (descent_iteration 2 [[0; 0]]%nat [1 # 2; 0; 1 # 2] (DescentState [0%nat] 1) = None
   <-> 1 < 4 # 4) /\
  (descent_iteration 2 [[0; 1]]%nat [1; 0; 0] (DescentState [0; 0]%nat 0) = None
   <-> 0 < 2 # 1) /\
  (transform_probe 2 [[0; 0]; [1; 2]]%nat [1; 1; 0] [0; 0; 0]%nat 0 3
   = ([2; 0; 0], [0; 0; 0]%nat) /\
   [2; 0; 0] !! 1%nat = Some 0 /\
   (forall j d, (j < 1)%nat -> [2; 0; 0] !! j = Some d -> 0 < d) /\
   descent_iteration 2 [[0; 0]; [1; 2]]%nat [1; 1; 0] (DescentState [0; 0; 0]%nat 2)
   = Some (DescentState [0; 1; 0]%nat 0)).
Proof.
  split; [|split].
  - refine (proj1 (proj2 (proj2 (descent_stop_rule 2 [[0; 0]]%nat [1 # 2; 0; 1 # 2]
        (DescentState [0%nat] 1) [4 # 4] [0%nat] 0%nat (4 # 4) _ _))));
      vm_compute; reflexivity.
  - refine (proj1 (proj2 (proj2 (descent_stop_rule 2 [[0; 1]]%nat [1; 0; 0]
        (DescentState [0; 0]%nat 0) [2 # 1; 2 # 1] [0; 0]%nat 0%nat (2 # 1) _ _))));
      vm_compute; reflexivity.
  - assert (Ht : transform_probe 2 [[0; 0]; [1; 2]]%nat [1; 1; 0] [0; 0; 0]%nat 0 3
                 = ([2; 0; 0], [0; 0; 0]%nat)) by (vm_compute; reflexivity).
    assert (Hmin : min_element [2; 0; 0] = Some (1%nat, 0)) by (vm_compute; reflexivity).
    destruct (descent_stop_rule 2 [[0; 0]; [1; 2]]%nat [1; 1; 0]
                (DescentState [0; 0; 0]%nat 2) [2; 0; 0] [0; 0; 0]%nat 1%nat 0 Ht Hmin)
      as (_ & (Hat & _ & Hfirst) & _ & Hcommit).
    split; [exact Ht|]. split; [exact Hat|]. split; [exact Hfirst|].
    apply Hcommit. vm_compute. discriminate.
Defined.

(** *** The result is no farther than the all-zero vector *)

(** X23: for every target of numbers, the distance returned by the
    greedy fitter, and the L1 distance of the target to the distribution
    induced by the final founders vector, are both at most the L1
    distance of the target to the distribution induced by the all-zero
    vector. *)
Theorem descent_fit_not_worse_than_zero n_ploidy haplotypes_m dosages_d_in
    (alts_in : founders_alts) :
  let zero := map (λ _, 0%nat) alts_in in
  let '(alts, distance) := descent_fit n_ploidy haplotypes_m dosages_d_in alts_in in
  distance <= induced_distance n_ploidy haplotypes_m dosages_d_in zero /\
  induced_distance n_ploidy haplotypes_m dosages_d_in alts
  <= induced_distance n_ploidy haplotypes_m dosages_d_in zero.
Proof.
  cbn zeta. unfold descent_fit.
  pose proof (descent_loop_below n_ploidy haplotypes_m dosages_d_in _
                (length alts_in) _ (descent_init_below _ _ _ alts_in)) as (_ & Hd & Hi).
  split; [exact Hd | exact Hi].
Qed.

(** *** The result does not depend on the vector's contents *)

(** C9: two runs on founders vectors of the same length, with the same
    map and target, return the same vector and the same distance. *)
Theorem descent_fit_ignores_input n_ploidy haplotypes_m dosages_d_in
    (alts_a alts_b : founders_alts) :
  length alts_a = length alts_b ->
  descent_fit n_ploidy haplotypes_m dosages_d_in alts_a
  = descent_fit n_ploidy haplotypes_m dosages_d_in alts_b.
Proof.
  intros Hlen. unfold descent_fit, descent_init. rewrite Hlen.
  assert (Hz : map (λ _ : nat, 0%nat) alts_a = map (λ _ : nat, 0%nat) alts_b).
  { revert alts_b Hlen. induction alts_a as [|a l IH]; intros [|b l'] Hlen;
      simpl in Hlen; try discriminate; [reflexivity|].
    simpl. f_equal. apply IH. lia. }
  rewrite Hz. reflexivity.
Qed.

Lemma descent_fit_ignores_input_witness :
  descent_fit 2 [[0; 1]; [1; 2]]%nat [0; 1; 1] [7; 1; 0]%nat
  = descent_fit 2 [[0; 1]; [1; 2]]%nat [0; 1; 1] [0; 0; 1]%nat.
Proof. apply descent_fit_ignores_input. reflexivity. Defined.

(** *** Committed flips *)

Lemma exists_founder_at_0 alts :
  (ones alts < length alts)%nat ->
  exists j, (j < length alts)%nat /\ view_get alts j <> 1%nat.
Proof.
  unfold ones, get_dosage. induction alts as [|a l IH]; [simpl; lia|].
  rewrite filter_cons. destruct (decide (a = 1%nat)) as [E|E].
  - simpl. intros H. destruct IH as (j & Hj & Hne); [lia|].
    exists (S j). split; [lia | exact Hne].
  - intros _. exists 0%nat. split; [simpl; lia | exact E].
Qed.

Section descent_trace.
Variable n_ploidy : nat.
Variable haplotypes_m : haplotypes_map.
Variable dosages_d_in : list Q.

Local Abbreviation iteration := (descent_iteration n_ploidy haplotypes_m dosages_d_in).
Local Abbreviation loop := (descent_loop n_ploidy haplotypes_m dosages_d_in).
Local Abbreviation commits := (descent_commits n_ploidy haplotypes_m dosages_d_in).

Lemma descent_commits_length fuel : forall st, (length (commits fuel st) <= fuel)%nat.
Proof.
  induction fuel as [|fuel IH]; intros st; cbn [descent_commits]; [simpl; lia|].
  destruct (iteration st) as [st'|]; simpl; [|lia]. specialize (IH st'). lia.
Qed.

(** The loop ends in the last committed state. *)
Lemma descent_loop_last fuel : forall st,
  loop fuel st = default st (last (commits fuel st)).
Proof.
  induction fuel as [|fuel IH]; intros st; cbn [descent_loop descent_commits];
    [reflexivity|].
  destruct (iteration st) as [st'|]; [|reflexivity].
  rewrite IH, last_cons. destruct (last (commits fuel st')); reflexivity.
Qed.

(** Every state of the run holds a 0/1 vector of the same length, and
    between two consecutive states a founder at 1 stays at 1. *)
Lemma descent_commits_steps fuel : forall st,
  binary (ds_alts st) ->
  forall k st1 st2,
    (st :: commits fuel st) !! k = Some st1 -> commits fuel st !! k = Some st2 ->
    binary (ds_alts st1) /\ iteration st1 = Some st2 /\
    length (ds_alts st1) = length (ds_alts st).
Proof.
  induction fuel as [|fuel IH]; intros st Hb k st1 st2;
    cbn [descent_commits]; [intros _ H; discriminate H|].
  destruct (iteration st) as [st'|] eqn:E; [|intros _ H; discriminate H].
  destruct k as [|k]; simpl.
  - intros H1 H2. inversion H1; inversion H2; subst. auto.
  - intros H1 H2.
    pose proof (descent_iteration_preserves_binary _ _ _ _ _ Hb E) as Hb'.
    destruct (IH st' Hb' k st1 st2 H1 H2) as (? & ? & Hlen).
    split; [assumption|]. split; [assumption|]. rewrite Hlen.
    destruct (descent_iteration_commit _ _ _ _ _ Hb E) as (i & _ & -> & _).
    apply length_insert.
Qed.

Lemma descent_iteration_keeps_ones st st' j :
  binary (ds_alts st) -> iteration st = Some st' ->
  view_get (ds_alts st) j = 1%nat -> view_get (ds_alts st') j = 1%nat.
Proof.
  intros Hb E Hj. destruct (descent_iteration_commit _ _ _ _ _ Hb E) as (i & Hi & -> & _).
  unfold view_get in *. destruct (decide (i = j)) as [->|Hne].
  - rewrite list_lookup_insert_eq by exact Hi. reflexivity.
  - rewrite list_lookup_insert_ne by exact Hne. exact Hj.
Qed.

(** With a founder still at 0 and a target in range, the committed
    flip is that of a founder at 0. *)
Lemma descent_iteration_ones st st' :
  target_in_range haplotypes_m dosages_d_in ->
  binary (ds_alts st) -> (ones (ds_alts st) < length (ds_alts st))%nat ->
  iteration st = Some st' -> ones (ds_alts st') = S (ones (ds_alts st)).
Proof.
  intros Hr Hb Hlt E.
  destruct (descent_iteration_commit _ _ _ _ _ Hb E) as (i & Hi & -> & Hp & _ & Hmin & _).
  apply ones_insert_1; [exact Hi|]. intros Hone.
  destruct (exists_founder_at_0 _ Hlt) as (j & Hj & Hne).
  specialize (Hmin j Hj). rewrite Hp in Hmin. unfold probed in Hmin.
  destruct (decide (view_get (ds_alts st) i = 1%nat)); [|contradiction].
  destruct (decide (view_get (ds_alts st) j = 1%nat)); [contradiction|].
  pose proof (induced_distance_in_range n_ploidy _ _ (<[j := 1%nat]> (ds_alts st)) Hr).
  lra.
Qed.

Lemma descent_commits_ones fuel : forall st,
  target_in_range haplotypes_m dosages_d_in ->
  binary (ds_alts st) -> (ones (ds_alts st) + fuel <= length (ds_alts st))%nat ->
  forall k st', (st :: commits fuel st) !! k = Some st' ->
    ones (ds_alts st') = (ones (ds_alts st) + k)%nat.
Proof.
  induction fuel as [|fuel IH]; intros st Hr Hb Hlen k st';
    cbn [descent_commits].
  - destruct k; simpl; [|discriminate]. intros H; inversion H; subst. lia.
  - destruct k as [|k]; simpl; [intros H; inversion H; subst; lia|].
    destruct (iteration st) as [st1|] eqn:E; [|discriminate].
    intros H.
    pose proof (descent_iteration_preserves_binary _ _ _ _ _ Hb E) as Hb1.
    assert (Hones : ones (ds_alts st1) = S (ones (ds_alts st)))
      by (apply (descent_iteration_ones st); auto; lia).
    assert (Hl : length (ds_alts st1) = length (ds_alts st)).
    { destruct (descent_iteration_commit _ _ _ _ _ Hb E) as (i & _ & -> & _).
      apply length_insert. }
    rewrite (IH st1 Hr Hb1) with (k := k) (st' := st'); [lia | lia | exact H].
Qed.
End descent_trace.

(** X24: on a target of numbers the greedy fitter commits at most
    [n_founders] iterations and then returns the last committed state;
    between consecutive states a founder at 1 stays at 1 and is not
    probed (its entry of [distances] is [FLT_MAX] and the vector is left
    as it is); and, for a target in range (the normalized target of a
    marker with a known genotype is, see [normalized_target_in_range]),
    the state after [k] committed iterations has exactly [k] founders
    at 1. *)
Theorem descent_commits_grow n_ploidy haplotypes_m dosages_d_in
    (alts_in : founders_alts) :
  let n_founders := length alts_in in
  let st0 := descent_init n_ploidy haplotypes_m dosages_d_in alts_in in
  let cs := descent_commits n_ploidy haplotypes_m dosages_d_in n_founders st0 in
  (length cs <= n_founders)%nat /\
  descent_loop n_ploidy haplotypes_m dosages_d_in n_founders st0
    = default st0 (last cs) /\
  (forall k st st', (st0 :: cs) !! k = Some st -> cs !! k = Some st' ->
     descent_iteration n_ploidy haplotypes_m dosages_d_in st = Some st' /\
     forall j, view_get (ds_alts st) j = 1%nat ->
       view_get (ds_alts st') j = 1%nat /\
       probe n_ploidy haplotypes_m dosages_d_in (ds_alts st) j
         = (FLT_MAX, ds_alts st)) /\
  (target_in_range haplotypes_m dosages_d_in ->
   forall k st, (st0 :: cs) !! k = Some st -> ones (ds_alts st) = k).
Proof.
  cbn zeta.
  assert (Hb0 : binary (ds_alts (descent_init n_ploidy haplotypes_m dosages_d_in alts_in)))
    by apply binary_zeros.
  split; [apply descent_commits_length|].
  split; [apply descent_loop_last|]. split.
  - intros k st st' H1 H2.
    destruct (descent_commits_steps _ _ _ _ _ Hb0 _ _ _ H1 H2) as (Hb & E & _).
    split; [exact E|]. intros j Hj. split.
    + eapply descent_iteration_keeps_ones; eauto.
    + unfold probe. destruct (decide (view_get (ds_alts st) j = 1%nat));
        [reflexivity | contradiction].
  - intros Hr k st H.
    assert (Hlen : (ones (ds_alts (descent_init n_ploidy haplotypes_m dosages_d_in alts_in))
                    + length alts_in
                    <= length (ds_alts (descent_init n_ploidy haplotypes_m dosages_d_in alts_in)))%nat).
    { cbn [descent_init ds_alts]. rewrite ones_zeros, length_map. lia. }
    rewrite (descent_commits_ones n_ploidy _ _ _ _ Hr Hb0 Hlen k st H).
    cbn [descent_init ds_alts]. rewrite ones_zeros. reflexivity.
Qed.

Lemma descent_commits_grow_witness :
  let st0 := descent_init 2 [[0; 1]; [1; 2]]%nat [0; 1; 1] [0; 0; 0]%nat in
  let cs := descent_commits 2 [[0; 1]; [1; 2]]%nat [0; 1; 1] 3 st0 in
  target_in_range [[0; 1]; [1; 2]]%nat [0; 1; 1] /\
  forall k st, (st0 :: cs) !! k = Some st -> ones (ds_alts st) = k.
Proof.
  cbn zeta.
  assert (Hr : target_in_range [[0; 1]; [1; 2]]%nat [0; 1; 1])
    by (vm_compute; reflexivity).
  split; [exact Hr|].
  exact (proj2 (proj2 (proj2
    (descent_commits_grow 2 [[0; 1]; [1; 2]]%nat [0; 1; 1] [0; 0; 0]%nat))) Hr).
Defined.

(** ** Normalization *)

Lemma accumulate_scale (c s : Q) l :
  accumulate (map (λ d, c * d / s) l) 0 == c * accumulate l 0 / s.
Proof.
  induction l as [|x l IH].
  - change (accumulate _ 0) with 0 at 1. change (accumulate [] 0) with 0.
    unfold Qdiv. ring.
  - change (map (λ d, c * d / s) (x :: l))
      with (c * x / s :: map (λ d, c * d / s) l).
    rewrite !accumulate_cons, IH. unfold Qdiv. ring.
Qed.

(** C8: for a distribution whose entries have a positive sum,
    normalization multiplies every entry by [n_samples / sum], the
    normalized entries sum to [n_samples], and a distribution that already
    sums to [n_samples] is left unchanged entry by entry. *)
Theorem normalize_dosages_distribution_spec (dosages_d : list Q) (n_samples : nat) :
  0 < accumulate dosages_d 0 ->
  Forall2 (λ d d', d' == d * (of_count n_samples / accumulate dosages_d 0))
          dosages_d (normalize_dosages_distribution dosages_d n_samples) /\
  accumulate (normalize_dosages_distribution dosages_d n_samples) 0
    == of_count n_samples /\
  (accumulate dosages_d 0 == of_count n_samples ->
   Forall2 Qeq (normalize_dosages_distribution dosages_d n_samples) dosages_d).
Proof.
  intros Hpos. unfold normalize_dosages_distribution.
  set (s := accumulate dosages_d 0) in *.
  assert (Hs : ~ s == 0) by lra.
  split; [|split].
  - clearbody s. induction dosages_d as [|x l IH]; constructor; [|exact IH].
    unfold Qdiv. ring.
  - rewrite accumulate_scale. fold s. field. exact Hs.
  - intros Hn. clearbody s. induction dosages_d as [|x l IH]; constructor; [|exact IH].
    rewrite <- Hn. field. exact Hs.
Qed.

Lemma normalize_dosages_distribution_spec_witness :
  0 < accumulate [1; 2; 1] 0 /\
  accumulate (normalize_dosages_distribution [1; 2; 1] 8) 0 == of_count 8 /\
  Forall2 Qeq (normalize_dosages_distribution
                 (normalize_dosages_distribution [1; 2; 1] 8) 8)
          (normalize_dosages_distribution [1; 2; 1] 8).
Proof.
  split; [reflexivity|]. split.
  - apply (normalize_dosages_distribution_spec [1; 2; 1] 8). reflexivity.
  - apply (normalize_dosages_distribution_spec
             (normalize_dosages_distribution [1; 2; 1] 8) 8);
      vm_compute; reflexivity.
Defined.

(** ** Loading genotypes *)




Lemma bind_snd_Ok {A B} (m : M A) (f : A -> M B) a :
  m.2 = Ok a -> (m ≫= f).2 = (f a).2.
Proof.
  destruct m as [log r]. simpl. intros ->. unfold mbind, M_bind.
  destruct (f a). reflexivity.
Qed.

Lemma bind_snd_Throw {A B} (m : M A) (f : A -> M B) e :
  m.2 = Throw e -> (m ≫= f).2 = Throw e.
Proof. destruct m as [log r]. simpl. intros ->. reflexivity. Qed.

Lemma bind_snd_Undef {A B} (m : M A) (f : A -> M B) :
  m.2 = Undef -> (m ≫= f).2 = Undef.
Proof. destruct m as [log r]. simpl. intros ->. reflexivity. Qed.

Lemma bind_load_outcome {A B} (m : M A) (f : A -> M B) :
  load_outcome m.2 -> (forall a, load_outcome (f a).2) -> load_outcome (m ≫= f).2.
Proof.
  intros [[a Ha]|[H|H]] Hf.
  - rewrite (bind_snd_Ok _ _ _ Ha). apply Hf.
  - rewrite (bind_snd_Throw _ _ _ H). right; left; reflexivity.
  - rewrite (bind_snd_Undef _ _ H). right; right; reflexivity.
Qed.

Lemma read_genotypes_outcome n_ploidy position infos : forall dosages_d,
  load_outcome (read_genotypes n_ploidy position infos dosages_d).2.
Proof.
  induction infos as [|gi infos IH]; intros dosages_d; cbn [read_genotypes].
  - left. eexists; reflexivity.
  - destruct (is_unknown (read_genotype gi)) as [[|]|].
    + apply bind_load_outcome; [left; eexists; reflexivity | intros; apply IH].
    + destruct (decide _); [right; left; reflexivity | apply IH].
    + right; right; reflexivity.
Qed.

Lemma read_record_outcome n_ploidy data r :
  load_outcome (read_record n_ploidy data r).2.
Proof.
  unfold read_record. destruct (readUntil _ _) as [alt_first alt_rest].
  destruct (decide _).
  - apply bind_load_outcome; left; eexists; reflexivity.
  - apply bind_load_outcome; [apply read_genotypes_outcome|].
    intros d. apply bind_load_outcome; left; eexists; reflexivity.
Qed.

Lemma read_records_outcome n_ploidy rs : forall data,
  load_outcome (read_records n_ploidy data rs).2.
Proof.
  induction rs as [|r rs IH]; intros data; cbn [read_records].
  - left. eexists; reflexivity.
  - apply bind_load_outcome; [apply read_record_outcome | intros; apply IH].
Qed.

Lemma read_genotypes_wrong_ploidy n_ploidy position before gi after :
  wrong_ploidy n_ploidy gi -> forall dosages_d,
  let r := (read_genotypes n_ploidy position (before ++ gi :: after) dosages_d).2 in
  r = Throw ploidy_mismatch \/ r = Undef.
Proof.
  intros [Hk Hp]. induction before as [|g before IH]; intros dosages_d;
    cbn [read_genotypes app].
  - rewrite Hk. destruct (decide _); [left; reflexivity | contradiction].
  - destruct (is_unknown (read_genotype g)) as [[|]|].
    + cbn zeta in IH. rewrite (bind_snd_Ok _ _ ()) by reflexivity. apply IH.
    + destruct (decide _); [left; reflexivity | apply IH].
    + right; reflexivity.
Qed.

Lemma read_record_wrong_ploidy n_ploidy data r before gi after :
  ~ polyallelic r -> genotypeInfos r = before ++ gi :: after ->
  wrong_ploidy n_ploidy gi ->
  (read_record n_ploidy data r).2 = Throw ploidy_mismatch \/
  (read_record n_ploidy data r).2 = Undef.
Proof.
  unfold polyallelic, read_record. intros Hpoly Hinfos Hw.
  destruct (readUntil _ _) as [alt_first alt_rest]. simpl in Hpoly.
  destruct (decide _); [contradiction|]. rewrite Hinfos.
  destruct (read_genotypes_wrong_ploidy n_ploidy (rID r, beginPos r) before gi after
              Hw (replicate (S n_ploidy) 0)) as [H|H].
  - left. apply bind_snd_Throw. exact H.
  - right. apply bind_snd_Undef. exact H.
Qed.

Lemma read_records_wrong_ploidy n_ploidy pre r post before gi after :
  ~ polyallelic r -> genotypeInfos r = before ++ gi :: after ->
  wrong_ploidy n_ploidy gi -> forall data,
  (read_records n_ploidy data (pre ++ r :: post)).2 = Throw ploidy_mismatch \/
  (read_records n_ploidy data (pre ++ r :: post)).2 = Undef.
Proof.
  intros Hpoly Hinfos Hw. induction pre as [|r0 pre IH]; intros data;
    cbn [read_records app].
  - destruct (read_record_wrong_ploidy n_ploidy data r before gi after Hpoly Hinfos Hw)
      as [H|H].
    + left. apply bind_snd_Throw. exact H.
    + right. apply bind_snd_Undef. exact H.
  - destruct (read_record_outcome n_ploidy data r0) as [[d Hd]|[H|H]].
    + rewrite (bind_snd_Ok _ _ _ Hd). apply IH.
    + left. apply bind_snd_Throw. exact H.
    + right. apply bind_snd_Undef. exact H.
Qed.

(** *** A wrong ploidy stops the load *)

(** C5 fails on a marker that is skipped as polyallelic: its genotypes
    are never read, so the three-allele genotype [0/1/1] under ploidy 2
    does not stop the load; the run goes on, writes its output and
    returns 0. *)
Lemma wrong_ploidy_in_polyallelic_marker :
  ~ wrong_ploidy_always_aborts /\
  wrong_ploidy 2 "0/1/1" /\
  (exists loaded, (read_vcf 2 polyallelic_file).2 = Ok loaded) /\
  result (lcg.main diploid_options polyallelic_file) = Returned 0 /\
  is_Some (output (lcg.main diploid_options polyallelic_file)).
Proof.
  assert (Hw : wrong_ploidy 2 "0/1/1") by (split; [reflexivity | discriminate]).
  split; [|split; [exact Hw|]].
  - intros H.
    specialize (H 2%nat polyallelic_file
                  {| rID := 0; beginPos := 20; ref := "G"; alt := "T,C";
                     genotypeInfos := ["0/1/1"; "0/0"]%string |} "0/1/1"%string).
    assert (E : exists loaded, (read_vcf 2 polyallelic_file).2 = Ok loaded)
      by (eexists; vm_compute; reflexivity).
    destruct E as [loaded E]. rewrite E in H. discriminate H.
    + unfold polyallelic_file; simpl. apply list_elem_of_In. right; left; reflexivity.
    + simpl. apply list_elem_of_In. left; reflexivity.
    + exact Hw.
  - split; [eexists; vm_compute; reflexivity|].
    split; [vm_compute; reflexivity|].
    eexists; vm_compute; reflexivity.
Qed.

Section app_props.
Context {generator : Type}.
Variable seed_generator : N -> generator.
Variable uniform_int_distribution : N -> N -> generator -> N * generator.
Variable shuffle : list nat -> generator -> list nat * generator.
Variable solve : nat -> haplotypes_map -> nat -> list Q -> option mip_solution.

Local Abbreviation the_main :=
  (main seed_generator uniform_int_distribution shuffle solve).

(** When the load throws, [main] reports the exception and returns 1
    without an output file. *)
Lemma main_load_throws options vcf_file_in e :
  (2 <= app_options.n_ploidy options <= 8)%N ->
  (read_vcf (N.to_nat (app_options.n_ploidy options)) vcf_file_in).2 = Throw e ->
  the_main options vcf_file_in
  = {| stderr := (read_vcf (N.to_nat (app_options.n_ploidy options)) vcf_file_in).1
                 ++ [LogError (exception_what e)];
       output := None; result := Returned 1 |}.
Proof.
  intros Hp He. unfold main. destruct (decide _) as [_|]; [|contradiction].
  unfold run.
  destruct (read_vcf _ vcf_file_in) as [log r]. simpl in He. subst r.
  reflexivity.
Qed.
End app_props.

(** C5, amended: a known genotype whose number of alleles differs from
    the configured ploidy, in a marker that is not skipped as
    polyallelic, stops the whole load with the ploidy exception whatever
    records follow (provided no genotype field read before it is empty,
    which is undefined); [main] then reports the error, returns 1 and
    produces no output file.  A genotype of 3 alleles under ploidy 2 is
    such a genotype. *)
Theorem wrong_ploidy_aborts_load {generator : Type}
    (seed_generator : N -> generator)
    (uniform_int_distribution : N -> N -> generator -> N * generator)
    (shuffle : list nat -> generator -> list nat * generator)
    (solve : nat -> haplotypes_map -> nat -> list Q -> option mip_solution)
    (options : app_options.t) (vcf_file_in : VcfFileIn)
    (pre post : list VcfRecord) (r : VcfRecord)
    (before after : list string) (gi : string) :
  let n_ploidy := N.to_nat (app_options.n_ploidy options) in
  (2 <= app_options.n_ploidy options <= 8)%N ->
  records vcf_file_in = pre ++ r :: post ->
  ~ polyallelic r ->
  genotypeInfos r = before ++ gi :: after ->
  wrong_ploidy n_ploidy gi ->
  (read_vcf n_ploidy vcf_file_in).2 <> Undef ->
  let p := main seed_generator uniform_int_distribution shuffle solve
                options vcf_file_in in
  (read_vcf n_ploidy vcf_file_in).2 = Throw ploidy_mismatch /\
  result p = Returned 1 /\ exits_nonzero (result p) /\
  output p = None /\
  last (stderr p) = Some (LogError "Input ploidy does not match VCF genotypes").
Proof.
  intros n_ploidy Hp Hrs Hpoly Hinfos Hw Hdef p.
  assert (Hload : (read_vcf n_ploidy vcf_file_in).2 = Throw ploidy_mismatch).
  { unfold read_vcf in *. rewrite Hrs in *.
    match goal with |- (?m ≫= ?f).2 = _ =>
      destruct (read_records_wrong_ploidy n_ploidy pre r post before gi after
                  Hpoly Hinfos Hw
                  {| vd_variants := {| positions := []; alleles := [] |};
                     vd_dosages_v := [] |}) as [H|H] end.
    - apply bind_snd_Throw. exact H.
    - exfalso. apply Hdef. apply bind_snd_Undef. exact H. }
  split; [exact Hload|]. subst p.
  rewrite (main_load_throws _ _ _ _ _ _ _ Hp Hload). cbn [result output stderr].
  split; [reflexivity|]. split; [simpl; discriminate|].
  split; [reflexivity|]. apply last_snoc.
Qed.

Lemma wrong_ploidy_aborts_load_witness :
  let p := lcg.main diploid_options triploid_genotype_file in
  get_ploidy (read_genotype "0/1/1") = 3%nat /\
  result p = Returned 1 /\ output p = None.
Proof.
  cbn zeta. split; [reflexivity|].
  refine (let H := wrong_ploidy_aborts_load lcg.seed_generator
            lcg.uniform_int_distribution lcg.shuffle lcg.solve
            diploid_options triploid_genotype_file
            [ {| rID := 0; beginPos := 10; ref := "A"; alt := "C";
                 genotypeInfos := ["0/1"; "./."]%string |} ]
            [ {| rID := 0; beginPos := 30; ref := "G"; alt := "T";
                 genotypeInfos := ["0/0"; "0/1"; "1/1"]%string |} ]
            {| rID := 0; beginPos := 20; ref := "G"; alt := "T";
               genotypeInfos := ["0/0"; "0/1/1"; "1/1"]%string |}
            ["0/0"%string] ["1/1"%string] "0/1/1"%string _ _ _ _ _ _ in
          conj (proj1 (proj2 H)) (proj1 (proj2 (proj2 (proj2 H))))).
  - vm_compute. split; discriminate.
  - reflexivity.
  - intros H. vm_compute in H. apply H. reflexivity.
  - reflexivity.
  - split; [reflexivity | discriminate].
  - vm_compute. discriminate.
Defined.

(** *** More founders than haplotypes *)

Lemma bind_fst_Forall {A B} (P : log_line -> Prop) (m : M A) (f : A -> M B) :
  Forall P m.1 -> (forall a, Forall P (f a).1) -> Forall P (m ≫= f).1.
Proof.
  destruct m as [log [a| | |]]; simpl; intros Hm Hf; try exact Hm.
  specialize (Hf a). unfold mbind, M_bind. destruct (f a) as [log' r]. simpl in *.
  apply Forall_app. split; assumption.
Qed.

Lemma read_genotypes_log n_ploidy position infos : forall dosages_d,
  Forall (λ line, ~ fit_line line)
         (read_genotypes n_ploidy position infos dosages_d).1.
Proof.
  induction infos as [|gi infos IH]; intros dosages_d; cbn [read_genotypes];
    [constructor|].
  destruct (is_unknown (read_genotype gi)) as [[|]|]; [| |constructor].
  - apply bind_fst_Forall; [repeat constructor; auto | intros; apply IH].
  - destruct (decide _); [constructor | apply IH].
Qed.

Lemma read_vcf_log n_ploidy vcf_file_in :
  Forall (λ line, ~ fit_line line) (read_vcf n_ploidy vcf_file_in).1.
Proof.
  unfold read_vcf. apply bind_fst_Forall; [|intros; constructor].
  generalize ({| vd_variants := {| positions := []; alleles := [] |};
                 vd_dosages_v := [] |}).
  induction (records vcf_file_in) as [|r rs IH]; intros data; cbn [read_records];
    [constructor|].
  apply bind_fst_Forall; [|intros; apply IH].
  unfold read_record. destruct (readUntil _ _) as [alt_first alt_rest].
  destruct (decide _).
  - apply bind_fst_Forall; [repeat constructor; auto | intros; constructor].
  - apply bind_fst_Forall; [apply read_genotypes_log|]. intros d.
    apply bind_fst_Forall; [repeat constructor; auto | intros; constructor].
Qed.

(** With more founders than haplotypes an assertion of
    [simulate_founders_distribution] fails, before anything is drawn. *)
Lemma simulate_founders_distribution_rejects {generator : Type}
    (uniform_int_distribution : N -> N -> generator -> N * generator)
    founders_d (n_founders n_samples n_ploidy : N) (g : generator) :
  (n_samples * n_ploidy < n_founders)%N ->
  exists what,
    simulate_founders_distribution uniform_int_distribution founders_d
                                   n_founders n_samples n_ploidy g
    = ([], AssertFail what).
Proof.
  intros H. unfold simulate_founders_distribution, SEQAN_ASSERT.
  destruct (0 <? n_samples)%N; [|eexists; reflexivity].
  assert (E : (n_founders <=? u32 (n_samples * n_ploidy))%N = false).
  { apply N.leb_gt. unfold u32.
    pose proof (N.Div0.mod_le (n_samples * n_ploidy) (2 ^ 32)). lia. }
  rewrite E. eexists; reflexivity.
Qed.

(** C6: with [n_founders > n_samples * n_ploidy] the run is rejected
    before any fitting: no [DISTANCE] line is written, no output file is
    produced, and the process ends with a non-zero status; when the load
    itself succeeds, the run is stopped by the failed assertion on the
    number of founders, which is the last thing reported. *)
Theorem too_many_founders_rejected {generator : Type}
    (seed_generator : N -> generator)
    (uniform_int_distribution : N -> N -> generator -> N * generator)
    (shuffle : list nat -> generator -> list nat * generator)
    (solve : nat -> haplotypes_map -> nat -> list Q -> option mip_solution)
    (options : app_options.t) (vcf_file_in : VcfFileIn) :
  let n_ploidy := app_options.n_ploidy options in
  let load := read_vcf (N.to_nat n_ploidy) vcf_file_in in
  (2 <= n_ploidy <= 8)%N ->
  (app_options.n_samples options * n_ploidy < app_options.n_founders options)%N ->
  load.2 <> Undef ->
  let p := main seed_generator uniform_int_distribution shuffle solve
                options vcf_file_in in
  exits_nonzero (result p) /\
  ((exists loaded, load.2 = Ok loaded) ->
   result p = Aborted /\ exists what, last (stderr p) = Some (LogAssertion what)) /\
  output p = None /\
  Forall (λ line, ~ fit_line line) (stderr p).
Proof.
  intros n_ploidy load Hp Hf Hdef p.
  pose proof (read_vcf_log (N.to_nat n_ploidy) vcf_file_in) as Hlog.
  destruct (read_records_outcome (N.to_nat n_ploidy) (records vcf_file_in)
              {| vd_variants := {| positions := []; alleles := [] |};
                 vd_dosages_v := [] |}) as [[data Hd]|[Ht|Hu]].
  - (* the load succeeds: the assertion fails *)
    assert (Hok : load.2 = Ok (contigNames vcf_file_in, data)).
    { subst load. unfold read_vcf. rewrite (bind_snd_Ok _ _ _ Hd). reflexivity. }
    assert (E : exists what,
              p = {| stderr := (load.1 ++ []) ++ [LogAssertion what];
                     output := None; result := Aborted |}).
    { subst p. unfold main. destruct (decide _) as [_|]; [|contradiction].
      unfold run. fold n_ploidy. fold load.
      destruct load as [log r]. simpl in Hok. subst r.
      rewrite N2Nat.id.
      destruct (simulate_founders_distribution_rejects uniform_int_distribution []
                  (app_options.n_founders options) (app_options.n_samples options)
                  n_ploidy (seed_generator (app_options.seed options)) Hf)
        as [what Hs].
      exists what. cbn [mbind M_bind]. rewrite Hs. reflexivity. }
    destruct E as [what E]. rewrite E. cbn [result output stderr].
    split; [exact I|].
    split; [intros _; split; [reflexivity | exists what; apply last_snoc]|].
    split; [reflexivity|].
    rewrite app_nil_r. apply Forall_app. split; [exact Hlog|].
    repeat constructor. auto.
  - (* the load throws *)
    assert (Hthrow : load.2 = Throw ploidy_mismatch)
      by (subst load; unfold read_vcf; apply bind_snd_Throw; exact Ht).
    subst p. rewrite (main_load_throws _ _ _ _ _ _ _ Hp Hthrow).
    cbn [result output stderr].
    split; [simpl; discriminate|]. split.
    + intros [loaded Hl]. rewrite Hthrow in Hl. discriminate.
    + split; [reflexivity|]. apply Forall_app. split; [exact Hlog|].
      repeat constructor. auto.
  - exfalso. apply Hdef. subst load. unfold read_vcf. apply bind_snd_Undef. exact Hu.
Qed.

Lemma too_many_founders_rejected_witness :
  let p := lcg.main too_many_founders_options polyallelic_file in
  result p = Aborted /\ output p = None /\
  Forall (λ line, ~ fit_line line) (stderr p).
Proof.
  cbn zeta.
  assert (Hp : (2 <= app_options.n_ploidy too_many_founders_options <= 8)%N)
    by (split; discriminate).
  assert (Hf : (app_options.n_samples too_many_founders_options
                * app_options.n_ploidy too_many_founders_options
                < app_options.n_founders too_many_founders_options)%N)
    by reflexivity.
  assert (Hdef : (read_vcf (N.to_nat (app_options.n_ploidy too_many_founders_options))
                           polyallelic_file).2 <> Undef)
    by (vm_compute; discriminate).
  destruct (too_many_founders_rejected lcg.seed_generator
              lcg.uniform_int_distribution lcg.shuffle lcg.solve
              too_many_founders_options polyallelic_file Hp Hf Hdef)
    as (_ & Hab & Hout & Hlog).
  split; [|split; assumption].
  apply Hab. eexists. vm_compute. reflexivity.
Defined.

(** ** Simulation of the haplotypes map *)

Lemma lcg_draws_in_range : draws_in_range lcg.uniform_int_distribution.
Proof.
  intros a b g Hab. unfold lcg.uniform_int_distribution. simpl.
  assert (g mod (b - a + 1) < b - a + 1)%N by (apply N.mod_upper_bound; lia).
  set (r := (g mod (b - a + 1))%N) in *. clearbody r. lia.
Qed.

Lemma lcg_shuffle_permutes : shuffle_permutes lcg.shuffle.
Proof.
  intros l g. unfold lcg.shuffle. simpl.
  destruct (N.odd g); [symmetry; apply Permutation_rev | reflexivity].
Qed.

(** [every_valid_configuration_simulates] does not hold when
    [n_samples * n_ploidy] does not fit [uint32_t]: with 2^30 + 1 samples
    of ploidy 4 the product 2^32 + 4 wraps to 4, so two founders get 4
    haplotypes in all and [fill_n] stops 2^32 entries short of the end of
    the table; the last assertion fails and no map is made. *)
Lemma simulation_wraps_around : ~ every_valid_configuration_simulates.
Proof.
  intros H.
  destruct (H N lcg.uniform_int_distribution lcg.shuffle
              lcg_draws_in_range lcg_shuffle_permutes
              2%N (2 ^ 30 + 1)%N 4%N 0%N)
    as (log1 & founders_d & g1 & log2 & haplotypes_m & g2 & E1 & E2 & _);
    try (vm_compute; congruence).
  - split; discriminate.
  - split; discriminate.
  - vm_compute in E1. inversion E1; subst founders_d g1.
    vm_compute in E2. discriminate E2.
Qed.

Lemma u32_small n : (n < 2 ^ 32)%N -> u32 n = n.
Proof. intros H. unfold u32. apply N.mod_small. exact H. Qed.

Lemma sum_N_alter (h : N -> N) (l : list N) i m :
  l !! i = Some m -> (sum_N (alter h i l) + m = sum_N l + h m)%N.
Proof.
  revert i. induction l as [|x l IH]; intros [|i] H; simpl in H; try discriminate.
  - inversion H; subst. simpl. lia.
  - simpl. specialize (IH i H). change (list_alter h i l) with (alter h i l). lia.
Qed.

Lemma sum_N_lookup_le (l : list N) i m : l !! i = Some m -> (m <= sum_N l)%N.
Proof.
  revert i. induction l as [|x l IH]; intros [|i] H; simpl in H; try discriminate.
  - inversion H; subst. simpl. lia.
  - simpl. specialize (IH i H). lia.
Qed.

Lemma sum_N_replicate n x : sum_N (replicate n x) = (N.of_nat n * x)%N.
Proof. induction n as [|n IH]; [reflexivity|]. simpl replicate. simpl sum_N. lia. Qed.

Lemma accumulate_u32_small (l : list N) :
  (sum_N l < 2 ^ 32)%N -> accumulate_u32 l = sum_N l.
Proof.
  unfold accumulate_u32.
  assert (G : forall acc, (acc + sum_N l < 2 ^ 32)%N ->
            foldl (λ acc x, u32 (acc + x)) acc l = (acc + sum_N l)%N).
  { induction l as [|x l IH]; intros acc H; simpl in *; [lia|].
    rewrite u32_small by lia. rewrite IH by lia. lia. }
  intros H. rewrite G by (simpl; lia). lia.
Qed.

(** The draws keep the multiplicities positive and add one haplotype
    each, as long as the total fits [uint32_t]. *)
Lemma draw_founders_ok {generator : Type}
    (uniform_int_distribution : N -> N -> generator -> N * generator)
    (n_founders : N) count :
  draws_in_range uniform_int_distribution -> (1 <= n_founders)%N ->
  forall founders_d g,
    length founders_d = N.to_nat n_founders ->
    Forall (λ m, 1 <= m)%N founders_d ->
    (sum_N founders_d + N.of_nat count < 2 ^ 32)%N ->
    exists founders_d' g',
      draw_founders uniform_int_distribution count 0 (n_founders - 1) founders_d g
        = ([], Ok (founders_d', g')) /\
      length founders_d' = N.to_nat n_founders /\
      Forall (λ m, 1 <= m)%N founders_d' /\
      sum_N founders_d' = (sum_N founders_d + N.of_nat count)%N.
Proof.
  intros Hu Hn. induction count as [|count IH]; intros fd g Hlen Hpos Hsum.
  - exists fd, g. simpl. repeat split; auto. lia.
  - cbn [draw_founders].
    pose proof (Hu 0%N (n_founders - 1)%N g ltac:(lia)) as Hr.
    destruct (uniform_int_distribution 0%N (n_founders - 1)%N g) as [f g'].
    simpl in Hr. destruct (decide _) as [Hf|Hf]; [|lia].
    destruct (lookup_lt_is_Some_2 fd (N.to_nat f) Hf) as [m Hm].
    pose proof (sum_N_lookup_le _ _ _ Hm) as Hle.
    pose proof (sum_N_alter (λ m, u32 (m + 1)) _ _ _ Hm) as Halt.
    cbn beta in Halt. rewrite (u32_small (m + 1)) in Halt by lia.
    destruct (IH (alter (λ m, u32 (m + 1)) (N.to_nat f) fd) g')
      as (fd' & g'' & E & Hlen' & Hpos' & Hsum').
    + rewrite length_alter. exact Hlen.
    + apply Forall_alter; [exact Hpos|]. intros x Hx _.
      rewrite Hm in Hx. inversion Hx; subst x. rewrite u32_small; lia.
    + lia.
    + exists fd', g''. repeat split; auto. lia.
Qed.

(** *** Filling the table *)

Lemma get_dosage_app {A} `{EqDecision A} (l1 l2 : list A) (x : A) :
  get_dosage (l1 ++ l2) x = (get_dosage l1 x + get_dosage l2 x)%nat.
Proof. unfold get_dosage. rewrite filter_app, length_app. reflexivity. Qed.

Lemma get_dosage_replicate (n : nat) (y x : nat) :
  get_dosage (replicate n y) x = if decide (y = x) then n else 0%nat.
Proof.
  unfold get_dosage. induction n as [|n IH]; simpl replicate.
  - destruct (decide (y = x)); reflexivity.
  - rewrite filter_cons. destruct (decide (y = x)); simpl; rewrite IH; reflexivity.
Qed.

Lemma get_dosage_Permutation {A} `{EqDecision A} (l1 l2 : list A) (x : A) :
  l1 ≡ₚ l2 -> get_dosage l1 x = get_dosage l2 x.
Proof. intros H. unfold get_dosage. rewrite H. reflexivity. Qed.

Lemma fill_from_cons k m founders_d :
  fill_from k (m :: founders_d)
  = replicate (N.to_nat m) k ++ fill_from (S k) founders_d.
Proof.
  unfold fill_from. rewrite imap_cons. simpl concat.
  rewrite Nat.add_0_r. f_equal. f_equal. apply imap_ext.
  intros i x _. simpl. f_equal. lia.
Qed.

Lemma fill_founders_from founders_d : fill_founders founders_d = fill_from 0 founders_d.
Proof. reflexivity. Qed.

Lemma fill_from_length founders_d : forall k,
  length (fill_from k founders_d) = N.to_nat (sum_N founders_d).
Proof.
  induction founders_d as [|m l IH]; intros k; [reflexivity|].
  rewrite fill_from_cons, length_app, length_replicate, IH. simpl sum_N. lia.
Qed.

Lemma fill_from_count founders_d : forall k f,
  get_dosage (fill_from k founders_d) f
  = if decide (k <= f)%nat
    then N.to_nat (default 0%N (founders_d !! (f - k)%nat))
    else 0%nat.
Proof.
  induction founders_d as [|m l IH]; intros k f.
  - unfold fill_from. simpl. destruct (decide _); reflexivity.
  - rewrite fill_from_cons, get_dosage_app, get_dosage_replicate, IH.
    destruct (decide (k = f)) as [->|Hne].
    + destruct (decide (S f <= f)%nat); [lia|].
      destruct (decide (f <= f)%nat); [|lia].
      rewrite Nat.sub_diag. simpl. lia.
    + destruct (decide (S k <= f)%nat), (decide (k <= f)%nat); try lia.
      replace (f - k)%nat with (S (f - S k)) by lia. reflexivity.
Qed.

Lemma fill_from_range founders_d : forall k,
  Forall (λ f, f < k + length founders_d)%nat (fill_from k founders_d).
Proof.
  induction founders_d as [|m l IH]; intros k; [constructor|].
  rewrite fill_from_cons. apply Forall_app. split.
  - apply Forall_replicate. simpl. lia.
  - eapply Forall_impl; [apply IH|]. intros f Hf. simpl in *. lia.
Qed.

(** *** Reshaping *)

Lemma reshape_length rows cols : forall flat, length (reshape rows cols flat) = rows.
Proof. induction rows as [|rows IH]; intros flat; simpl; [|rewrite IH]; reflexivity. Qed.

Lemma reshape_rows rows cols : forall flat,
  (rows * cols <= length flat)%nat ->
  Forall (λ sample, length sample = cols) (reshape rows cols flat).
Proof.
  induction rows as [|rows IH]; intros flat H; simpl; constructor.
  - apply length_take_le. lia.
  - apply IH. rewrite length_drop. lia.
Qed.

Lemma reshape_concat rows cols : forall flat,
  concat (reshape rows cols flat) = take (rows * cols) flat.
Proof.
  induction rows as [|rows IH]; intros flat; simpl.
  - rewrite take_0. reflexivity.
  - rewrite IH. apply take_take_drop.
Qed.

Lemma u32_sub_small a b : (b <= a)%N -> (a < 2 ^ 32)%N -> u32_sub a b = (a - b)%N.
Proof.
  intros Hba Ha. unfold u32_sub. rewrite (u32_small b) by lia.
  replace (a + 2 ^ 32 - b)%N with (a - b + 1 * 2 ^ 32)%N by lia.
  unfold u32. rewrite N.Div0.mod_add. apply N.mod_small. lia.
Qed.

Lemma bind_ret_l {A B} (a : A) (f : A -> M B) : (([], Ok a) : M A) ≫= f = f a.
Proof. unfold mbind, M_bind. destruct (f a). reflexivity. Qed.

Lemma SEQAN_ASSERT_true what : SEQAN_ASSERT what true = ([], Ok ()).
Proof. reflexivity. Qed.

(** C7: the code breaks the claim at two founders and 2^30 + 1 samples
    of ploidy 4, whatever the generator draws.  Both assertions of
    [simulate_founders_distribution] pass, on the product wrapped to 4,
    and the founders receive 4 haplotypes in all; in
    [simulate_haplotypes_map] the first assertion passes on the wrapped
    product as well, [fill_n] writes 4 of the 2^32 + 4 entries of the
    table, and the program's own
    [SEQAN_ASSERT(haplotypes_m_it == haplotypes_m_end)] fails. *)
Theorem simulation_assertion_fails {generator : Type}
    (uniform_int_distribution : N -> N -> generator -> N * generator)
    (shuffle : list nat -> generator -> list nat * generator) (g : generator) :
  draws_in_range uniform_int_distribution ->
  (1 <= 2 <= (2 ^ 30 + 1) * 4)%N /\
  u32 ((2 ^ 30 + 1) * 4) = 4%N /\
  exists founders_d g1,
    simulate_founders_distribution uniform_int_distribution [] 2 (2 ^ 30 + 1) 4 g
    = ([LogFoundersDistribution founders_d], Ok (founders_d, g1)) /\
    sum_N founders_d = 4%N /\
    simulate_haplotypes_map shuffle founders_d (2 ^ 30 + 1) 4 g1
    = ([], AssertFail "haplotypes_m_it == haplotypes_m_end").
Proof.
  intros Hu. split; [split; discriminate|]. split; [reflexivity|].
  destruct (draw_founders_ok uniform_int_distribution 2 2 Hu ltac:(lia)
              [1; 1]%N g eq_refl) as (founders_d & g1 & Hdraw & Hlen & Hpos & Hsum).
  { repeat constructor; lia. }
  { vm_compute. reflexivity. }
  change (sum_N [1; 1]%N + N.of_nat 2)%N with 4%N in Hsum.
  exists founders_d, g1. split; [|split; [exact Hsum|]].
  - unfold simulate_founders_distribution.
    change (0 <? 2 ^ 30 + 1)%N with true.
    change (2 <=? u32 ((2 ^ 30 + 1) * 4))%N with true.
    rewrite !SEQAN_ASSERT_true, !bind_ret_l.
    change (resize [] (N.to_nat 2) 1%N) with [1; 1]%N.
    change (N.to_nat (u32_sub (u32 ((2 ^ 30 + 1) * 4)) 2)) with 2%nat.
    change (u32_sub 2 1) with (2 - 1)%N.
    rewrite Hdraw, bind_ret_l. reflexivity.
  - unfold simulate_haplotypes_map.
    rewrite accumulate_u32_small by (rewrite Hsum; reflexivity).
    rewrite Hsum. change (4 =? u32 ((2 ^ 30 + 1) * 4))%N with true.
    rewrite SEQAN_ASSERT_true, bind_ret_l.
    rewrite fill_founders_from, fill_from_length, Hsum.
    change (N.of_nat (N.to_nat 4)) with 4%N.
    destruct (decide _) as [Hlt|_]; [exfalso; revert Hlt; discriminate|].
    change (4 =? (2 ^ 30 + 1) * 4)%N with false.
    reflexivity.
Qed.

Lemma simulation_assertion_fails_witness :
  draws_in_range lcg.uniform_int_distribution /\
  simulate_founders_distribution lcg.uniform_int_distribution [] 2 (2 ^ 30 + 1) 4 0%N
  = ([LogFoundersDistribution [2; 2]%N], Ok ([2; 2]%N, 1406932606%N)) /\
  simulate_haplotypes_map lcg.shuffle [2; 2]%N (2 ^ 30 + 1) 4 1406932606%N
  = ([], AssertFail "haplotypes_m_it == haplotypes_m_end").
Proof.
  split; [exact lcg_draws_in_range|].
  destruct (simulation_assertion_fails lcg.uniform_int_distribution lcg.shuffle
              0%N lcg_draws_in_range) as (_ & _ & founders_d & g1 & E1 & _ & E2).
  assert (E : ([LogFoundersDistribution founders_d], Ok (founders_d, g1))
              = ([LogFoundersDistribution [2; 2]%N], Ok ([2; 2]%N, 1406932606%N)))
    by (rewrite <- E1; vm_compute; reflexivity).
  inversion E; subst founders_d g1. split; [exact E1 | exact E2].
Defined.

(** X25: for every generator state and every configuration with
    [1 <= n_founders <= n_samples * n_ploidy] whose number of haplotypes
    [n_samples * n_ploidy] fits [uint32_t], the simulation yields a table
    of [n_samples] rows of [n_ploidy] founders in which founder [f]
    appears exactly [founders_d[f]] times, at least once, the
    multiplicities summing to [n_samples * n_ploidy]. *)
Theorem simulated_haplotypes_map_ok {generator : Type}
    (uniform_int_distribution : N -> N -> generator -> N * generator)
    (shuffle : list nat -> generator -> list nat * generator)
    (n_founders n_samples n_ploidy : N) (g : generator) :
  draws_in_range uniform_int_distribution -> shuffle_permutes shuffle ->
  (1 <= n_founders <= n_samples * n_ploidy)%N ->
  (n_samples * n_ploidy < 2 ^ 32)%N ->
  simulates_map uniform_int_distribution shuffle n_founders n_samples n_ploidy g.
Proof.
  intros Hu Hs [H1 Hle] Hfit.
  assert (Hns : (0 <? n_samples)%N = true) by (apply N.ltb_lt; nia).
  assert (Hnf : (n_founders <=? u32 (n_samples * n_ploidy))%N = true)
    by (rewrite u32_small by exact Hfit; apply N.leb_le; exact Hle).
  destruct (draw_founders_ok uniform_int_distribution n_founders
              (N.to_nat (n_samples * n_ploidy - n_founders)) Hu H1
              (replicate (N.to_nat n_founders) 1%N) g)
    as (founders_d & g1 & Hdraw & Hlen & Hpos & Hsum).
  { apply length_replicate. }
  { apply Forall_replicate. lia. }
  { rewrite sum_N_replicate. lia. }
  rewrite sum_N_replicate in Hsum.
  assert (Htotal : sum_N founders_d = (n_samples * n_ploidy)%N) by lia.
  destruct (shuffle (fill_founders founders_d) g1) as [data g2] eqn:Hshuffle.
  assert (Hperm : data ≡ₚ fill_founders founders_d)
    by (pose proof (Hs (fill_founders founders_d) g1) as Hp;
        rewrite Hshuffle in Hp; exact Hp).
  assert (Hfilled : length (fill_founders founders_d)
                    = (N.to_nat n_samples * N.to_nat n_ploidy)%nat)
    by (rewrite fill_founders_from, fill_from_length, Htotal; lia).
  exists [LogFoundersDistribution founders_d], founders_d, g1,
         [LogHaplotypesMap (reshape (N.to_nat n_samples) (N.to_nat n_ploidy) data)],
         (reshape (N.to_nat n_samples) (N.to_nat n_ploidy) data), g2.
  split; [|split].
  - unfold simulate_founders_distribution.
    rewrite Hns, Hnf, !SEQAN_ASSERT_true, !bind_ret_l.
    rewrite (u32_small (n_samples * n_ploidy)) by exact Hfit.
    rewrite !u32_sub_small by lia.
    unfold resize. rewrite take_nil, Nat.sub_0_r. simpl app.
    rewrite Hdraw, bind_ret_l. reflexivity.
  - unfold simulate_haplotypes_map.
    rewrite accumulate_u32_small by lia.
    rewrite (u32_small (n_samples * n_ploidy)) by exact Hfit.
    rewrite Htotal, N.eqb_refl, SEQAN_ASSERT_true, bind_ret_l.
    assert (Hfilled_N : N.of_nat (length (fill_founders founders_d))
                        = (n_samples * n_ploidy)%N) by lia.
    destruct (decide _) as [Hlt|_]; [lia|].
    rewrite Hfilled_N, N.eqb_refl, SEQAN_ASSERT_true, bind_ret_l.
    replace (N.to_nat (n_samples * n_ploidy) - length (fill_founders founders_d))%nat
      with 0%nat by lia.
    simpl replicate. rewrite app_nil_r, Hshuffle.
    reflexivity.
  - assert (Hdata : length data = (N.to_nat n_samples * N.to_nat n_ploidy)%nat)
      by (rewrite Hperm; exact Hfilled).
    assert (Hconcat : concat (reshape (N.to_nat n_samples) (N.to_nat n_ploidy) data)
                      = data)
      by (rewrite reshape_concat; apply take_ge; lia).
    split; [apply reshape_length|].
    split; [apply reshape_rows; lia|].
    split; [exact Hlen|]. split; [|split; [exact Htotal|]].
    + intros f m Hf. split.
      * exact (proj1 (Forall_lookup _ _) Hpos f m Hf).
      * rewrite Hconcat, (get_dosage_Permutation _ _ f Hperm).
        rewrite fill_founders_from, fill_from_count.
        destruct (decide (0 <= f)%nat); [|lia].
        rewrite Nat.sub_0_r, Hf. reflexivity.
    + rewrite Hconcat, Hperm, fill_founders_from, <- Hlen.
      apply (fill_from_range founders_d 0%nat).
Qed.

Lemma simulated_haplotypes_map_ok_witness :
  simulates_map lcg.uniform_int_distribution lcg.shuffle 3 4 2 5%N.
Proof.
  apply simulated_haplotypes_map_ok.
  - exact lcg_draws_in_range.
  - exact lcg_shuffle_permutes.
  - split; [discriminate | vm_compute; discriminate].
  - reflexivity.
Defined.

(** ** Exact fitting *)

(** *** Sums and histograms *)

Lemma sum_upto_Z_ext (f g : nat -> Z) n :
  (forall k, (k < n)%nat -> f k = g k) -> sum_upto_Z f n = sum_upto_Z g n.
Proof.
  induction n as [|n IH]; intros H; [reflexivity|]. simpl.
  rewrite IH by (intros; apply H; lia). rewrite (H n) by lia. reflexivity.
Qed.

Lemma sum_upto_Z_zero (f : nat -> Z) n :
  (forall k, (k < n)%nat -> f k = 0%Z) -> sum_upto_Z f n = 0%Z.
Proof.
  induction n as [|n IH]; intros H; [reflexivity|]. simpl.
  rewrite IH by (intros; apply H; lia). rewrite (H n) by lia. reflexivity.
Qed.

Lemma sum_upto_Z_nonneg (f : nat -> Z) n :
  (forall k, (k < n)%nat -> (0 <= f k)%Z) -> (0 <= sum_upto_Z f n)%Z.
Proof.
  induction n as [|n IH]; intros H; simpl; [lia|].
  pose proof (H n ltac:(lia)). pose proof (IH ltac:(intros; apply H; lia)). lia.
Qed.

Lemma sum_upto_Z_single (f : nat -> Z) n j :
  (forall k, (k < n)%nat -> k <> j -> f k = 0%Z) -> (j < n)%nat ->
  sum_upto_Z f n = f j.
Proof.
  induction n as [|n IH]; intros H Hj; [lia|]. simpl.
  destruct (decide (j = n)) as [->|Hne].
  - rewrite sum_upto_Z_zero by (intros; apply H; lia). lia.
  - rewrite IH by (try (intros; apply H); lia). rewrite (H n) by lia. lia.
Qed.

Lemma foldr_Zadd_init {A} (F : A -> Z) (l : list A) (z : Z) :
  foldr (λ x acc, (F x + acc)%Z) z l = (foldr (λ x acc, (F x + acc)%Z) 0%Z l + z)%Z.
Proof. induction l as [|y l IH]; simpl; [lia|]. rewrite IH. lia. Qed.

(** Sum of a function over a list read by position. *)
Lemma sum_upto_Z_lookup {A} (F : A -> Z) (x0 : A) (l : list A) :
  sum_upto_Z (λ k, F (default x0 (l !! k))) (length l)
  = foldr (λ x acc, (F x + acc)%Z) 0%Z l.
Proof.
  induction l as [|x l IH] using rev_ind; [reflexivity|].
  rewrite length_app. simpl length. rewrite Nat.add_1_r. simpl sum_upto_Z.
  rewrite (sum_upto_Z_ext _ (λ k, F (default x0 (l !! k)))).
  - rewrite IH. rewrite lookup_app_r by lia. rewrite Nat.sub_diag. simpl default.
    rewrite foldr_app. simpl foldr at 2. rewrite (foldr_Zadd_init F l (F x + 0)%Z).
    lia.
  - intros k Hk. rewrite lookup_app_l by exact Hk. reflexivity.
Qed.

Lemma make_dosages_distribution_histogram n_ploidy genotypes :
  make_dosages_distribution n_ploidy genotypes
  = histogram (map (λ genotype, get_dosage genotype 1%nat) genotypes)
              (replicate (S n_ploidy) 0%nat).
Proof.
  unfold make_dosages_distribution, histogram.
  generalize (replicate (S n_ploidy) 0%nat).
  induction genotypes as [|g gs IH]; intros init; simpl; [reflexivity|]. apply IH.
Qed.

Lemma histogram_length dosages : forall init,
  length (histogram dosages init) = length init.
Proof.
  unfold histogram. induction dosages as [|k l IH]; intros init; simpl;
    [reflexivity|]. rewrite IH. apply length_alter.
Qed.

Lemma histogram_app l1 l2 init :
  histogram (l1 ++ l2) init = histogram l2 (histogram l1 init).
Proof. unfold histogram. apply foldl_app. Qed.

Lemma histogram_lookup dosages : forall init p,
  (p < length init)%nat ->
  histogram dosages init !! p
  = Some (default 0%nat (init !! p) + get_dosage dosages p)%nat.
Proof.
  unfold histogram, get_dosage.
  induction dosages as [|k l IH]; intros init p Hp.
  - simpl. destruct (lookup_lt_is_Some_2 init p Hp) as [x Hx]. rewrite Hx.
    simpl. f_equal. lia.
  - cbn [foldl]. rewrite IH by (rewrite length_alter; exact Hp).
    rewrite filter_cons. f_equal.
    destruct (lookup_lt_is_Some_2 init p Hp) as [x Hx].
    destruct (decide (k = p)) as [->|Hne].
    + rewrite list_lookup_alter_eq, Hx. simpl. lia.
    + rewrite list_lookup_alter_ne by exact Hne. reflexivity.
Qed.

(** *** What a feasible point says *)

Lemma fill_samples_alts_id haplotypes_m : fill_samples_alts haplotypes_m = haplotypes_m.
Proof.
  unfold fill_samples_alts. induction haplotypes_m as [|r l IH]; [reflexivity|].
  simpl. rewrite IH. f_equal. induction r as [|x r IHr]; [reflexivity|].
  simpl. rewrite IHr. reflexivity.
Qed.

Lemma sample_dosages_lookup haplotypes_m alts s sample :
  haplotypes_m !! s = Some sample ->
  sample_dosages haplotypes_m alts !! s
  = Some (get_dosage (map (view_get alts) sample) 1%nat).
Proof.
  intros H. unfold sample_dosages, view_genotypes.
  rewrite fill_samples_alts_id, !list_lookup_fmap, H. reflexivity.
Qed.

Lemma get_dosage_le_length {A} `{EqDecision A} (l : list A) (x : A) :
  (get_dosage l x <= length l)%nat.
Proof. unfold get_dosage. apply length_filter. Qed.

Lemma count_as_sum (dosages : list nat) (p : nat) :
  foldr (λ x acc, ((if decide (x = p) then 1 else 0) + acc)%Z) 0%Z dosages
  = Z.of_nat (get_dosage dosages p).
Proof.
  unfold get_dosage. induction dosages as [|x l IH]; [reflexivity|].
  simpl foldr. rewrite IH, filter_cons.
  destruct (decide (x = p)); simpl length; lia.
Qed.

Section mip_founder_columns.
Variable n_ploidy : nat.
Variable haplotypes_m : haplotypes_map.
Variable n_founders : nat.
Variable sol : mip_solution.
Hypothesis Hmap : map_in_range n_ploidy haplotypes_m n_founders.
Hypothesis Hbounds : forall a, (a < n_founders)%nat -> (0 <= sol_alts sol a <= 1)%Z.

Local Abbreviation alts := (alts_of n_founders sol).
Local Abbreviation dosages := (sample_dosages haplotypes_m alts).

Lemma alts_of_view_get f :
  (f < n_founders)%nat -> view_get alts f = Z.to_nat (sol_alts sol f).
Proof.
  intros Hf. unfold view_get, alts_of.
  rewrite list_lookup_fmap, lookup_seq_lt by exact Hf. reflexivity.
Qed.

Lemma alts_of_binary : binary alts.
Proof.
  unfold alts_of. apply Forall_fmap, Forall_forall. intros a Ha.
  apply elem_of_seq in Ha. specialize (Hbounds a ltac:(lia)). simpl. lia.
Qed.

Lemma sample_dosage_as_sum sample :
  Forall (λ f, f < n_founders)%nat sample ->
  Z.of_nat (get_dosage (map (view_get alts) sample) 1%nat)
  = foldr (λ f acc, (sol_alts sol f + acc)%Z) 0%Z sample.
Proof.
  unfold get_dosage. induction 1 as [|f sample Hlt Hrest IH]; [reflexivity|].
  simpl map. simpl foldr. rewrite <- IH, filter_cons, (alts_of_view_get f Hlt).
  specialize (Hbounds f Hlt).
  destruct (decide (Z.to_nat (sol_alts sol f) = 1%nat)); simpl length; lia.
Qed.

(** [sample_sum] is the dosage of the sample. *)
Lemma sample_sum_dosage s :
  (s < length haplotypes_m)%nat ->
  exists dosage, dosages !! s = Some dosage /\ (dosage <= n_ploidy)%nat /\
                 sample_sum n_ploidy haplotypes_m sol s = Z.of_nat dosage.
Proof.
  intros Hs. destruct (lookup_lt_is_Some_2 haplotypes_m s Hs) as [sample Hsample].
  destruct (proj1 (Forall_lookup _ _) Hmap s sample Hsample) as [Hlen Hrange].
  exists (get_dosage (map (view_get alts) sample) 1%nat).
  split; [apply sample_dosages_lookup; exact Hsample|]. split.
  - etransitivity; [apply get_dosage_le_length|]. rewrite length_map. lia.
  - rewrite (sample_dosage_as_sum sample Hrange).
    unfold sample_sum, haplotypes_m_at. rewrite Hsample. simpl.
    rewrite <- Hlen. apply (sum_upto_Z_lookup (sol_alts sol) 0%nat sample).
Qed.
End mip_founder_columns.

Section mip_feasible_points.
Variable n_ploidy : nat.
Variable haplotypes_m : haplotypes_map.
Variable n_founders : nat.
Variable dosages_d_in : list Q.
Variable sol : mip_solution.
Hypothesis Hmap : map_in_range n_ploidy haplotypes_m n_founders.
Hypothesis Hfeasible : mip_feasible n_ploidy haplotypes_m n_founders dosages_d_in sol.

Local Abbreviation alts := (alts_of n_founders sol).
Local Abbreviation dosages := (sample_dosages haplotypes_m alts).

Lemma feasible_founder_bounds a :
  (a < n_founders)%nat -> (0 <= sol_alts sol a <= 1)%Z.
Proof. destruct Hfeasible as ((_ & _ & _ & _ & Hf) & _). apply Hf. Qed.

(** The indicator of a sample is set at its dosage and nowhere else. *)
Lemma indicator_at_dosage s dosage p :
  (s < length haplotypes_m)%nat -> dosages !! s = Some dosage ->
  (p < S n_ploidy)%nat ->
  sol_indicators sol s p = if decide (dosage = p) then 1%Z else 0%Z.
Proof.
  intros Hs Hd Hp.
  destruct Hfeasible as ((_ & _ & _ & Hi & _) & (_ & Hone & Herr) & _).
  destruct (sample_sum_dosage n_ploidy haplotypes_m n_founders sol Hmap
              feasible_founder_bounds s Hs) as (dosage' & Hd' & Hle & Hsum).
  rewrite Hd in Hd'. inversion Hd'; subst dosage'. clear Hd'.
  assert (Hzero : forall q, (q < S n_ploidy)%nat -> q <> dosage ->
                            sol_indicators sol s q = 0%Z).
  { intros q Hq Hne. specialize (Herr s q Hs Hq). specialize (Hi s q Hs Hq).
    destruct Herr as (H1 & H2 & H3). rewrite Hsum in H1, H2.
    pose proof (Qle_trans _ _ _ H1 H3) as H13.
    pose proof (Qle_trans _ _ _ H2 H3) as H23.
    rewrite <- Zle_Qle in H13, H23. nia. }
  destruct (decide (dosage = p)) as [<-|Hne].
  - rewrite <- (Hone s Hs). symmetry. apply sum_upto_Z_single; [|lia].
    intros q Hq Hne. apply Hzero; assumption.
  - apply Hzero; [exact Hp | congruence].
Qed.

(** The column [mip_dosages] counts the samples of each dosage. *)
Lemma dosages_column p :
  (p < S n_ploidy)%nat ->
  sol_dosages sol p = Z.of_nat (get_dosage dosages p).
Proof.
  intros Hp. destruct Hfeasible as (_ & (Hd & _) & _).
  rewrite (Hd p Hp), <- count_as_sum.
  assert (Hlen : length dosages = length haplotypes_m).
  { unfold sample_dosages, view_genotypes, fill_samples_alts.
    rewrite !length_map. reflexivity. }
  rewrite <- (sum_upto_Z_lookup (λ x, if decide (x = p) then 1%Z else 0%Z) 0%nat dosages).
  rewrite Hlen. apply sum_upto_Z_ext. intros s Hs.
  destruct (lookup_lt_is_Some_2 dosages s ltac:(lia)) as [dosage Hdosage].
  rewrite (indicator_at_dosage s dosage p Hs Hdosage Hp), Hdosage. reflexivity.
Qed.

(** The distribution induced by the founders vector of a feasible point
    is its [mip_dosages] column. *)
Lemma induced_distribution_column :
  make_dosages_distribution n_ploidy (view_genotypes (fill_samples_alts haplotypes_m) alts)
  = map (λ dosage, Z.to_nat (sol_dosages sol dosage)) (seq 0 (S n_ploidy)).
Proof.
  rewrite make_dosages_distribution_histogram. fold dosages.
  apply list_eq. intros p. rewrite list_lookup_fmap.
  destruct (decide (p < S n_ploidy)%nat) as [Hp|Hp].
  - rewrite histogram_lookup by (rewrite length_replicate; exact Hp).
    rewrite lookup_seq_lt by exact Hp.
    rewrite lookup_replicate_2 by exact Hp. cbn [fmap option_fmap option_map default].
    change (0 + p)%nat with p. unfold id.
    rewrite (dosages_column p Hp), Nat2Z.id. reflexivity.
  - rewrite lookup_seq_ge by lia. simpl. apply lookup_ge_None.
    rewrite histogram_length. simpl length. rewrite length_replicate. lia.
Qed.
End mip_feasible_points.

(** *** A feasible point for every founders vector *)

Lemma binary_view_get alts a : binary alts -> (view_get alts a <= 1)%nat.
Proof.
  intros Hb. unfold view_get. destruct (alts !! a) as [x|] eqn:E; simpl; [|lia].
  destruct (binary_lookup _ _ _ Hb E); lia.
Qed.

Lemma alts_of_point_of haplotypes_m alts dosages_d_in :
  alts_of (length alts) (point_of haplotypes_m alts dosages_d_in) = alts.
Proof.
  unfold alts_of, point_of. cbn [sol_alts]. apply list_eq. intros a.
  rewrite list_lookup_fmap. destruct (decide (a < length alts)%nat) as [Ha|Ha].
  - rewrite lookup_seq_lt by exact Ha. simpl. rewrite Nat2Z.id.
    unfold view_get. destruct (lookup_lt_is_Some_2 alts a Ha) as [x Hx].
    rewrite Hx. reflexivity.
  - rewrite lookup_seq_ge by lia. symmetry. apply lookup_ge_None. lia.
Qed.

Lemma point_of_feasible n_ploidy haplotypes_m alts dosages_d_in :
  map_in_range n_ploidy haplotypes_m (length alts) -> binary alts ->
  mip_feasible n_ploidy haplotypes_m (length alts) dosages_d_in
               (point_of haplotypes_m alts dosages_d_in).
Proof.
  intros Hmap Hb.
  set (sol := point_of haplotypes_m alts dosages_d_in).
  assert (Hbounds : forall a, (a < length alts)%nat -> (0 <= sol_alts sol a <= 1)%Z).
  { intros a _. subst sol. cbn [point_of sol_alts].
    pose proof (binary_view_get alts a Hb). lia. }
  assert (Hlen : length (sample_dosages haplotypes_m alts) = length haplotypes_m).
  { unfold sample_dosages, view_genotypes, fill_samples_alts.
    rewrite !length_map. reflexivity. }
  assert (Hsum : forall s, (s < length haplotypes_m)%nat ->
            exists dosage, sample_dosages haplotypes_m alts !! s = Some dosage /\
              (dosage <= n_ploidy)%nat /\
              sample_sum n_ploidy haplotypes_m sol s = Z.of_nat dosage).
  { intros s Hs.
    destruct (sample_sum_dosage n_ploidy haplotypes_m (length alts) sol Hmap Hbounds s Hs)
      as (dosage & Hd & Hle & Hss).
    subst sol. rewrite alts_of_point_of in Hd. eauto. }
  split; [|split].
  - (* column bounds *)
    split; [intros p _; apply Qabs_nonneg|].
    split; [intros p _; cbn; lia|].
    split; [intros s p _ _; cbn [sol sol_errors point_of]; rewrite <- (Zle_Qle 0); lia|].
    split; [intros s p _ _; cbn [sol sol_indicators point_of];
            destruct (decide _); lia|].
    exact Hbounds.
  - (* rows of init *)
    split; [|split].
    + intros p Hp. cbn [sol sol_dosages sol_indicators point_of].
      rewrite <- count_as_sum, <- Hlen.
      pose proof (sum_upto_Z_lookup (λ x : nat, if decide (x = p) then 1%Z else 0%Z)
                    0%nat (sample_dosages haplotypes_m alts)) as Hl.
      symmetry. exact Hl.
    + intros s Hs. destruct (Hsum s Hs) as (dosage & Hd & Hle & _).
      cbn [sol sol_indicators point_of]. rewrite Hd. cbn [default from_option].
      unfold id. rewrite (sum_upto_Z_single _ (S n_ploidy) dosage).
      * destruct (decide (dosage = dosage)); [reflexivity | contradiction].
      * intros k _ Hk. destruct (decide (dosage = k)); [congruence | reflexivity].
      * lia.
    + intros s p Hs Hp. destruct (Hsum s Hs) as (dosage & Hd & Hle & Hss).
      rewrite Hss. cbn [sol sol_errors sol_indicators point_of]. rewrite Hd.
      cbn [default from_option]. unfold id. rewrite <- !Zle_Qle.
      destruct (decide (dosage = p)); nia.
  - (* rows of fit *)
    intros p Hp. cbn [sol sol_z sol_dosages point_of]. split.
    + apply Qle_Qabs.
    + rewrite <- Qabs_opp. eapply Qle_trans; [|apply Qle_Qabs]. lra.
Qed.

(** *** An objective of zero *)

Lemma sum_upto_Q_nonneg (f : nat -> Q) n :
  (forall k, (k < n)%nat -> 0 <= f k) -> 0 <= sum_upto_Q f n.
Proof.
  induction n as [|n IH]; intros H; simpl; [lra|].
  pose proof (H n ltac:(lia)). pose proof (IH ltac:(intros; apply H; lia)). lra.
Qed.

Lemma sum_upto_Q_zero (f : nat -> Q) n :
  (forall k, (k < n)%nat -> f k == 0) -> sum_upto_Q f n == 0.
Proof.
  induction n as [|n IH]; intros H; simpl; [lra|].
  rewrite IH by (intros; apply H; lia). rewrite (H n) by lia. lra.
Qed.

Lemma sum_upto_Q_zero_inv (f : nat -> Q) n :
  (forall k, (k < n)%nat -> 0 <= f k) -> sum_upto_Q f n <= 0 ->
  forall k, (k < n)%nat -> f k == 0.
Proof.
  induction n as [|n IH]; intros H Hsum k Hk; [lia|]. simpl in Hsum.
  pose proof (H n ltac:(lia)).
  pose proof (sum_upto_Q_nonneg f n ltac:(intros; apply H; lia)).
  destruct (decide (k = n)) as [->|Hne].
  - lra.
  - apply IH; [intros; apply H; lia | lra | lia].
Qed.

Lemma mip_objective_nonneg n_ploidy haplotypes_m n_founders dosages_d_in sol :
  mip_feasible n_ploidy haplotypes_m n_founders dosages_d_in sol ->
  0 <= mip_objective n_ploidy sol.
Proof.
  intros ((Hz & _) & _). unfold mip_objective. apply sum_upto_Q_nonneg. exact Hz.
Qed.

(** A feasible point of objective 0 has the target in [mip_dosages]. *)
Lemma objective_zero_dosages n_ploidy haplotypes_m n_founders dosages_d_in sol :
  mip_feasible n_ploidy haplotypes_m n_founders dosages_d_in sol ->
  mip_objective n_ploidy sol <= 0 ->
  forall p, (p < S n_ploidy)%nat ->
    inject_Z (sol_dosages sol p) == default 0 (dosages_d_in !! p).
Proof.
  intros ((Hz & _) & _ & Hrows) Hobj p Hp.
  pose proof (sum_upto_Q_zero_inv (sol_z sol) (S n_ploidy) Hz Hobj p Hp) as Hzp.
  destruct (Hrows p Hp) as [H1 H2]. lra.
Qed.

(** A target that is the distribution of some founders vector makes
    the point of that vector optimal, with objective 0. *)
Lemma point_of_objective_zero n_ploidy haplotypes_m alts (target : list nat) :
  make_dosages_distribution n_ploidy
    (view_genotypes (fill_samples_alts haplotypes_m) alts) = target ->
  mip_objective n_ploidy (point_of haplotypes_m alts (map of_count target)) == 0.
Proof.
  intros Ht. unfold mip_objective. apply sum_upto_Q_zero. intros p Hp.
  cbn [point_of sol_z]. rewrite list_lookup_fmap.
  rewrite make_dosages_distribution_histogram in Ht.
  fold (sample_dosages haplotypes_m alts) in Ht.
  pose proof (histogram_lookup (sample_dosages haplotypes_m alts)
                (replicate (S n_ploidy) 0%nat) p) as Hh.
  rewrite length_replicate in Hh. specialize (Hh Hp).
  rewrite Ht, lookup_replicate_2 in Hh by exact Hp. rewrite Hh.
  cbn [fmap option_fmap option_map default from_option]. unfold id, of_count.
  rewrite Nat.add_0_l. apply Qabs_case; intros; lra.
Qed.

(** *** The fitter on a reachable target *)

Lemma histogram_sum dosages : forall init,
  Forall (λ dosage, dosage < length init)%nat dosages ->
  sum_list (histogram dosages init) = (sum_list init + length dosages)%nat.
Proof.
  unfold histogram. induction dosages as [|k l IH]; intros init H; simpl; [lia|].
  inversion H as [|? ? Hk Hl]; subst.
  rewrite IH by (rewrite length_alter; exact Hl).
  assert (G : forall (init : list nat) k, (k < length init)%nat ->
            sum_list (alter S k init) = S (sum_list init)).
  { clear. induction init as [|x init IHi]; intros [|k] Hk; simpl in *; try lia.
    change (list_alter S k init) with (alter S k init). rewrite IHi by lia. lia. }
  rewrite G by exact Hk. lia.
Qed.

Lemma sample_dosages_in_range n_ploidy haplotypes_m n_founders alts :
  map_in_range n_ploidy haplotypes_m n_founders ->
  Forall (λ dosage, dosage < S n_ploidy)%nat (sample_dosages haplotypes_m alts).
Proof.
  intros Hmap. unfold sample_dosages, view_genotypes.
  rewrite fill_samples_alts_id. rewrite <- list_fmap_compose.
  apply Forall_fmap. eapply Forall_impl; [exact Hmap|].
  intros sample [Hlen _]. simpl.
  pose proof (get_dosage_le_length (map (view_get alts) sample) 1%nat) as H.
  rewrite length_map in H. lia.
Qed.

Lemma induced_distribution_sum n_ploidy haplotypes_m n_founders alts :
  map_in_range n_ploidy haplotypes_m n_founders ->
  sum_list (make_dosages_distribution n_ploidy
              (view_genotypes (fill_samples_alts haplotypes_m) alts))
  = length haplotypes_m.
Proof.
  intros Hmap. rewrite make_dosages_distribution_histogram.
  fold (sample_dosages haplotypes_m alts).
  rewrite histogram_sum.
  - rewrite sum_list_replicate_0. unfold sample_dosages, view_genotypes, fill_samples_alts.
    rewrite !length_map. reflexivity.
  - rewrite length_replicate. eapply sample_dosages_in_range; eauto.
Qed.

(** When some founders vector induces the target, the exact fitter
    returns distance 0 and a 0/1 vector that induces the target. *)
Lemma mip_fit_reaches_target n_ploidy haplotypes_m solve
    (alts0 alts : founders_alts) (target : list nat) :
  map_in_range n_ploidy haplotypes_m (length alts0) -> binary alts0 ->
  make_dosages_distribution n_ploidy
    (view_genotypes (fill_samples_alts haplotypes_m) alts0) = target ->
  length alts = length alts0 ->
  solver_exact n_ploidy haplotypes_m (length alts0) solve (map of_count target) ->
  exists log alts' distance,
    mip_fit n_ploidy haplotypes_m (length alts0) solve alts (map of_count target)
      = (log, Ok (alts', distance)) /\
    distance == 0 /\ binary alts' /\ length alts' = length alts0 /\
    make_dosages_distribution n_ploidy
      (view_genotypes (fill_samples_alts haplotypes_m) alts') = target.
Proof.
  intros Hmap Hb0 Ht Hlen [Hsound Hcomplete].
  set (T := map of_count target) in *.
  pose proof (point_of_feasible n_ploidy haplotypes_m alts0 T Hmap Hb0) as Hfeas0.
  pose proof (point_of_objective_zero n_ploidy haplotypes_m alts0 target Ht) as Hobj0.
  fold T in Hobj0.
  destruct Hcomplete as [sol Hsol].
  { exists (point_of haplotypes_m alts0 T). split; [exact Hfeas0|].
    intros sol' Hfeas'. rewrite Hobj0. eapply mip_objective_nonneg; eauto. }
  destruct (Hsound sol Hsol) as [Hfeas Hopt].
  pose proof (Hopt _ Hfeas0) as Hle. rewrite Hobj0 in Hle.
  pose proof (mip_objective_nonneg _ _ _ _ _ Hfeas) as Hge.
  assert (Htarget_len : length target = S n_ploidy).
  { rewrite <- Ht, make_dosages_distribution_histogram, histogram_length.
    apply length_replicate. }
  assert (Hcol : map (λ dosage, Z.to_nat (sol_dosages sol dosage)) (seq 0 (S n_ploidy))
                 = target).
  { apply list_eq. intros p. rewrite list_lookup_fmap.
    destruct (decide (p < S n_ploidy)%nat) as [Hp|Hp].
    - rewrite lookup_seq_lt by exact Hp. cbn [fmap option_fmap option_map].
      change (0 + p)%nat with p.
      pose proof (objective_zero_dosages _ _ _ _ _ Hfeas Hle p Hp) as Hd.
      destruct (lookup_lt_is_Some_2 target p ltac:(lia)) as [t Hlookup].
      subst T. rewrite list_lookup_fmap, Hlookup in Hd.
      cbn [fmap option_fmap option_map default from_option] in Hd.
      unfold id, of_count in Hd.
      pose proof (proj1 (inject_Z_injective _ _) Hd) as Hd'.
      rewrite Hd', Nat2Z.id, Hlookup. reflexivity.
    - rewrite lookup_seq_ge by lia. symmetry. apply lookup_ge_None. lia. }
  pose proof (induced_distribution_column n_ploidy haplotypes_m (length alts0) T sol
                Hmap Hfeas) as Hind.
  rewrite Hcol in Hind.
  exists [LogDistance (mip_objective n_ploidy sol) T target],
         (alts_of (length alts0) sol), (mip_objective n_ploidy sol).
  split; [|split; [lra|split; [|split; [|exact Hind]]]].
  - unfold mip_fit. rewrite Hsol, Hcol.
    assert (Hsum : (sum_list target =? length haplotypes_m)%nat = true).
    { apply Nat.eqb_eq. rewrite <- Hind.
      eapply induced_distribution_sum; eauto. }
    rewrite Hsum, SEQAN_ASSERT_true.
    destruct (decide (length alts < length alts0)%nat) as [Hlt|_]; [lia|].
    rewrite drop_ge by lia. rewrite app_nil_r. reflexivity.
  - apply alts_of_binary. intros a Ha.
    destruct Hfeas as ((_ & _ & _ & _ & Hf) & _). apply Hf. exact Ha.
  - unfold alts_of. rewrite length_map, length_seq. reflexivity.
Qed.

(** *** One founder per haplotype *)

Lemma mark_binary marked n_founders : binary (mark marked n_founders).
Proof.
  unfold mark. apply Forall_fmap, Forall_forall. intros f _. simpl.
  destruct (decide _); auto.
Qed.

Lemma mark_length marked n_founders : length (mark marked n_founders) = n_founders.
Proof. unfold mark. rewrite length_map, length_seq. reflexivity. Qed.

Lemma mark_dosage marked n_founders sample :
  Forall (λ f, f < n_founders)%nat sample ->
  get_dosage (map (view_get (mark marked n_founders)) sample) 1%nat
  = length (filter (λ f, f ∈ marked) sample).
Proof.
  unfold get_dosage. induction 1 as [|f sample Hf Hrest IH]; [reflexivity|].
  assert (E : view_get (mark marked n_founders) f
              = if decide (f ∈ marked) then 1%nat else 0%nat).
  { unfold view_get, mark. rewrite list_lookup_fmap, lookup_seq_lt by exact Hf.
    reflexivity. }
  simpl map. rewrite !filter_cons, E. destruct (decide (f ∈ marked)).
  - destruct (decide (1%nat = 1%nat)); [|contradiction]. simpl. rewrite IH. reflexivity.
  - destruct (decide (0%nat = 1%nat)); [discriminate | exact IH].
Qed.

Lemma filter_length_all {A} (P : A -> Prop) `{forall x, Decision (P x)} (l : list A) :
  Forall P l -> length (filter P l) = length l.
Proof.
  induction 1 as [|x l Hx Hl IH]; [reflexivity|].
  rewrite filter_cons. destruct (decide (P x)); [|contradiction].
  simpl. rewrite IH. reflexivity.
Qed.

Lemma filter_length_none {A} (P : A -> Prop) `{forall x, Decision (P x)} (l : list A) :
  Forall (λ x, ~ P x) l -> length (filter P l) = 0%nat.
Proof.
  induction 1 as [|x l Hx Hl IH]; [reflexivity|].
  rewrite filter_cons. destruct (decide (P x)); [contradiction | exact IH].
Qed.

Lemma filter_length_ext {A} (P Q : A -> Prop)
    `{forall x, Decision (P x)} `{forall x, Decision (Q x)} (l : list A) :
  Forall (λ x, P x <-> Q x) l -> length (filter P l) = length (filter Q l).
Proof.
  induction 1 as [|x l Hx Hl IH]; [reflexivity|].
  rewrite !filter_cons.
  destruct (decide (P x)), (decide (Q x)); simpl; try rewrite IH; tauto.
Qed.

(** Among distinct founders, the first [k] are exactly [k]. *)
Lemma filter_take_NoDup (sample : list nat) k :
  NoDup sample -> (k <= length sample)%nat ->
  length (filter (λ f, f ∈ take k sample) sample) = k.
Proof.
  intros Hnd Hk.
  assert (E : filter (λ f, f ∈ take k sample) sample
              = filter (λ f, f ∈ take k sample) (take k sample ++ drop k sample))
    by (rewrite take_drop; reflexivity).
  rewrite <- (take_drop k sample) in Hnd. apply NoDup_app in Hnd.
  destruct Hnd as (_ & Hdisj & _).
  rewrite E, filter_app, length_app.
  rewrite filter_length_all by (apply Forall_forall; auto).
  rewrite filter_length_none.
  - rewrite length_take_le by exact Hk. lia.
  - apply Forall_forall. intros f Hf Hin. exact (Hdisj f Hin Hf).
Qed.

Lemma elem_of_concat_lookup {A} (ls : list (list A)) : forall s l x,
  ls !! s = Some l -> x ∈ l -> x ∈ concat ls.
Proof.
  induction ls as [|l0 ls IH]; intros [|s] l x Hs Hx; simpl in *; try discriminate.
  - inversion Hs; subst. apply elem_of_app. left. exact Hx.
  - apply elem_of_app. right. eapply IH; eauto.
Qed.

Lemma first_founders_subset wanted : forall haplotypes_m f,
  f ∈ first_founders wanted haplotypes_m -> f ∈ concat haplotypes_m.
Proof.
  unfold first_founders.
  induction wanted as [|k wanted IH]; intros [|sample hm] f; simpl;
    try (intros H; exact H).
  - intros H. inversion H.
  - rewrite !elem_of_app. intros [H|H].
    + left. exact (subseteq_take k sample f H).
    + right. apply IH. exact H.
Qed.

(** With distinct founders all over the map, every sample gets the
    dosage handed to it. *)
Lemma first_founders_dosage haplotypes_m : forall wanted s sample k,
  NoDup (concat haplotypes_m) ->
  haplotypes_m !! s = Some sample -> wanted !! s = Some k ->
  (k <= length sample)%nat ->
  length (filter (λ f, f ∈ first_founders wanted haplotypes_m) sample) = k.
Proof.
  induction haplotypes_m as [|sample0 hm IH]; intros wanted s sample k Hnd Hs Hk Hle;
    [discriminate|].
  destruct wanted as [|k0 wanted]; [discriminate|].
  simpl in Hnd. apply NoDup_app in Hnd. destruct Hnd as (Hnd0 & Hdisj & Hnd').
  unfold first_founders. simpl zip_with. simpl concat.
  fold (first_founders wanted hm).
  destruct s as [|s]; simpl in Hs, Hk.
  - inversion Hs; inversion Hk; subst.
    etransitivity; [|exact (filter_take_NoDup sample k Hnd0 Hle)].
    apply filter_length_ext. apply Forall_forall. intros f Hf.
    rewrite elem_of_app. split; [|auto]. intros [H|H]; [exact H|].
    exfalso. apply (Hdisj f Hf). eapply first_founders_subset; eauto.
  - etransitivity; [|exact (IH wanted s sample k Hnd' Hs Hk Hle)].
    apply filter_length_ext. apply Forall_forall. intros f Hf.
    rewrite elem_of_app. split; [|auto]. intros [H|H]; [|exact H].
    exfalso. apply (Hdisj f).
    + exact (subseteq_take k0 sample0 f H).
    + eapply elem_of_concat_lookup; eauto.
Qed.

(** The histogram of the dosages handed out is the target. *)
Lemma histogram_replicate t k : forall init,
  histogram (replicate t k) init = alter (λ x, x + t)%nat k init.
Proof.
  unfold histogram. induction t as [|t IH]; intros init; simpl.
  - symmetry. apply list_alter_id. intros; lia.
  - rewrite IH, list_alter_alter_eq. apply list_alter_ext; [|reflexivity].
    intros x _. simpl. lia.
Qed.

Lemma histogram_fill_from (target : list nat) : forall done,
  histogram (fill_from (length done) (map N.of_nat target))
            (done ++ replicate (length target) 0%nat)
  = done ++ target.
Proof.
  induction target as [|t target IH]; intros done.
  - simpl. reflexivity.
  - simpl map. rewrite fill_from_cons, histogram_app, histogram_replicate.
    rewrite Nat2N.id. simpl replicate.
    rewrite alter_app_r_alt by lia. rewrite Nat.sub_diag. simpl alter at 1.
    cbn [list_alter]. specialize (IH (done ++ [t])).
    rewrite length_app, Nat.add_1_r, <- !app_assoc in IH. simpl in IH.
    simpl. exact IH.
Qed.

Lemma sum_N_of_nat (target : list nat) :
  sum_N (map N.of_nat target) = N.of_nat (sum_list target).
Proof. induction target as [|t l IH]; [reflexivity|]. simpl. rewrite IH. lia. Qed.

Lemma bijective_map_in_range n_ploidy haplotypes_m n_founders :
  bijective_map n_ploidy haplotypes_m n_founders ->
  map_in_range n_ploidy haplotypes_m n_founders.
Proof.
  intros [Hrows Hperm]. apply Forall_lookup. intros s sample Hs.
  split; [exact (proj1 (Forall_lookup _ _) Hrows s sample Hs)|].
  apply Forall_forall. intros f Hf.
  assert (Hin : f ∈ seq 0 n_founders)
    by (rewrite <- Hperm; eapply elem_of_concat_lookup; eauto).
  apply elem_of_seq in Hin. lia.
Qed.

(** On a bijective map every target of [n_samples] samples is the
    distribution of a founders vector. *)
Lemma bijective_map_reaches_target n_ploidy haplotypes_m n_founders
    (target : list nat) :
  bijective_map n_ploidy haplotypes_m n_founders ->
  length target = S n_ploidy -> sum_list target = length haplotypes_m ->
  make_dosages_distribution n_ploidy
    (view_genotypes (fill_samples_alts haplotypes_m)
       (mark (first_founders (wanted_dosages target) haplotypes_m) n_founders))
  = target.
Proof.
  intros Hbij Hlen Hsum.
  pose proof (bijective_map_in_range _ _ _ Hbij) as Hmap.
  destruct Hbij as [Hrows Hperm].
  set (wanted := wanted_dosages target).
  set (alts0 := mark (first_founders wanted haplotypes_m) n_founders).
  assert (Hwlen : length wanted = length haplotypes_m).
  { subst wanted. unfold wanted_dosages.
    rewrite fill_from_length, sum_N_of_nat, Nat2N.id. exact Hsum. }
  assert (Hwrange : Forall (λ k, k < S n_ploidy)%nat wanted).
  { subst wanted. unfold wanted_dosages.
    pose proof (fill_from_range (map N.of_nat target) 0) as H.
    rewrite length_map, Hlen in H. exact H. }
  assert (Hnd : NoDup (concat haplotypes_m)) by (rewrite Hperm; apply NoDup_seq).
  rewrite make_dosages_distribution_histogram. fold (sample_dosages haplotypes_m alts0).
  assert (Hd : sample_dosages haplotypes_m alts0 = wanted).
  { apply list_eq. intros s.
    destruct (decide (s < length haplotypes_m)%nat) as [Hs|Hs].
    - destruct (lookup_lt_is_Some_2 haplotypes_m s Hs) as [sample Hsample].
      destruct (lookup_lt_is_Some_2 wanted s ltac:(lia)) as [k Hk].
      destruct (proj1 (Forall_lookup _ _) Hmap s sample Hsample) as [Hl Hr].
      rewrite (sample_dosages_lookup _ _ _ _ Hsample), Hk. f_equal.
      subst alts0. rewrite (mark_dosage _ _ _ Hr).
      apply (first_founders_dosage haplotypes_m wanted s sample k Hnd Hsample Hk).
      pose proof (proj1 (Forall_lookup _ _) Hwrange s k Hk). simpl in *. lia.
    - rewrite (proj2 (lookup_ge_None _ _)), (proj2 (lookup_ge_None _ _)); [reflexivity| |].
      + lia.
      + unfold sample_dosages, view_genotypes, fill_samples_alts.
        rewrite !length_map. lia. }
  rewrite Hd. subst wanted. unfold wanted_dosages.
  pose proof (histogram_fill_from target []) as H. simpl in H.
  rewrite Hlen in H. exact H.
Qed.

(** The point of a founders vector that induces the target is what an
    exact solver may return. *)
Lemma point_of_solver_exact n_ploidy haplotypes_m (alts0 : founders_alts)
    (target : list nat) :
  map_in_range n_ploidy haplotypes_m (length alts0) -> binary alts0 ->
  make_dosages_distribution n_ploidy
    (view_genotypes (fill_samples_alts haplotypes_m) alts0) = target ->
  solver_exact n_ploidy haplotypes_m (length alts0)
               (λ dosages_d_in, Some (point_of haplotypes_m alts0 dosages_d_in))
               (map of_count target).
Proof.
  intros Hmap Hb Ht. split; [|intros _; eexists; reflexivity].
  intros sol Hsol. inversion Hsol; subst sol. split.
  - apply point_of_feasible; assumption.
  - intros sol' Hfeas'. rewrite (point_of_objective_zero _ _ _ _ Ht).
    eapply mip_objective_nonneg; eauto.
Qed.

(** *** The exact fitter on a bijective map *)

(** With one diploid sample on founders [f0,f1] and the target
    [1/2, 0, 1/2], no point of the program has an objective below 1:
    [mip_dosages] holds integers. *)
Lemma half_target_objective sol :
  mip_feasible 2 [[0; 1]]%nat 2 [1 # 2; 0; 1 # 2] sol -> 1 <= mip_objective 2 sol.
Proof.
  intros ((Hz & _) & _ & Hrows). unfold mip_objective. simpl sum_upto_Q.
  destruct (Hrows 0%nat ltac:(lia)) as [H0 H0'].
  destruct (Hrows 2%nat ltac:(lia)) as [H2 H2'].
  pose proof (Hz 1%nat ltac:(lia)) as H1.
  cbn [lookup list_lookup default from_option] in H0, H0', H2, H2'. unfold id in *.
  assert (G : forall d : Z, inject_Z d - (1 # 2) <= (1 # 2) ->
                            (1 # 2) - inject_Z d <= (1 # 2) ->
                            inject_Z d - (1 # 2) < (1 # 2) ->
                            (1 # 2) - inject_Z d < (1 # 2) -> False).
  { intros d _ _ Ha Hb.
    assert (Hlt1 : inject_Z d < inject_Z 1) by (change (inject_Z 1) with 1; lra).
    assert (Hgt0 : inject_Z 0 < inject_Z d) by (change (inject_Z 0) with 0; lra).
    rewrite <- Zlt_Qlt in Hlt1, Hgt0. lia. }
  assert (Hhalf : forall d z, inject_Z d - (1 # 2) <= z -> (1 # 2) - inject_Z d <= z ->
                              (1 # 2) <= z).
  { intros d z Ha Hb. destruct (Qlt_le_dec z (1 # 2)) as [Hlt|]; [|assumption].
    exfalso. apply (G d); lra. }
  pose proof (Hhalf _ _ H0 H0'). pose proof (Hhalf _ _ H2 H2'). lra.
Qed.

(** C2 fails on a target that is not integral: for one diploid sample on
    two founders and the target [1/2, 0, 1/2] (non-negative, summing to
    1) an exact solver returns the all-zero vector at distance 1, not 0. *)
Lemma mip_cannot_reach_half_target : ~ mip_reproduces_every_target.
Proof.
  intros H.
  destruct (H 2%nat [[0; 1]]%nat 2%nat
              (λ dosages_d_in, Some (point_of [[0; 1]]%nat [0; 0]%nat dosages_d_in))
              [0; 0]%nat [1 # 2; 0; 1 # 2])
    as (log & alts' & distance & E & Hd & _).
  - split; [repeat constructor | reflexivity].
  - reflexivity.
  - repeat constructor; discriminate.
  - reflexivity.
  - reflexivity.
  - split; [|intros _; eexists; reflexivity].
    intros sol Hsol. inversion Hsol; subst sol. split.
    + apply (point_of_feasible 2 [[0; 1]]%nat [0; 0]%nat).
      * solve_map_in_range.
      * solve_binary.
    + intros sol' Hfeas'. eapply Qle_trans; [|apply half_target_objective; exact Hfeas'].
      vm_compute. discriminate.
  - vm_compute in E. inversion E; subst distance. vm_compute in Hd. discriminate Hd.
Qed.

(** C2, amended: on a bijective map ([n_founders = n_samples * n_ploidy],
    every founder in exactly one slot), for every target whose entries
    are non-negative integers that sum to [n_samples], the exact fitter
    returns distance 0 and a founders vector whose induced distribution
    is the target; and for ploidy 2, target [1, 0, 1], two founders and
    the map [f0,f0], [f1,f1] it returns distance 0 with [f0 = 0, f1 = 1]
    or [f0 = 1, f1 = 0]. *)
Theorem mip_fit_exact :
  (forall n_ploidy haplotypes_m n_founders solve (alts : founders_alts)
          (target : list nat),
     bijective_map n_ploidy haplotypes_m n_founders ->
     length target = S n_ploidy -> sum_list target = length haplotypes_m ->
     length alts = n_founders ->
     solver_exact n_ploidy haplotypes_m n_founders solve (map of_count target) ->
     exists log alts' distance,
       mip_fit n_ploidy haplotypes_m n_founders solve alts (map of_count target)
         = (log, Ok (alts', distance)) /\
       distance == 0 /\
       make_dosages_distribution n_ploidy
         (view_genotypes (fill_samples_alts haplotypes_m) alts') = target) /\
  (forall solve (alts : founders_alts),
     length alts = 2%nat ->
     solver_exact 2 [[0; 0]; [1; 1]]%nat 2 solve [1; 0; 1] ->
     exists log alts' distance,
       mip_fit 2 [[0; 0]; [1; 1]]%nat 2 solve alts [1; 0; 1]
         = (log, Ok (alts', distance)) /\
       distance == 0 /\
       (alts' = [0; 1]%nat \/ alts' = [1; 0]%nat)).
Proof.
  split.
  - intros n_ploidy haplotypes_m n_founders solve alts target Hbij Hlen Hsum Halts Hsolve.
    set (alts0 := mark (first_founders (wanted_dosages target) haplotypes_m) n_founders).
    assert (Hl0 : length alts0 = n_founders) by apply mark_length.
    rewrite <- Hl0 in Halts, Hsolve |- *.
    destruct (mip_fit_reaches_target n_ploidy haplotypes_m solve alts0 alts target)
      as (log & alts' & distance & E & Hd & _ & _ & Hind); auto.
    + rewrite Hl0. apply bijective_map_in_range. exact Hbij.
    + apply mark_binary.
    + apply bijective_map_reaches_target; assumption.
    + exists log, alts', distance. auto.
  - intros solve alts Halts Hsolve.
    destruct (mip_fit_reaches_target 2 [[0; 0]; [1; 1]]%nat solve [0; 1]%nat alts
                [1; 0; 1]%nat)
      as (log & alts' & distance & E & Hd & Hb & Hl & Hind); auto.
    + solve_map_in_range.
    + solve_binary.
    + exists log, alts', distance. split; [exact E|]. split; [exact Hd|].
      destruct alts' as [|f0 [|f1 [|]]]; simpl in Hl; try discriminate.
      inversion Hb as [|? ? H0 Hb']; subst. inversion Hb' as [|? ? H1 _]; subst.
      destruct H0 as [-> | ->], H1 as [-> | ->]; vm_compute in Hind;
        try discriminate; auto.
Qed.

Lemma mip_fit_exact_witness :
  let solve := λ dosages_d_in,
                 Some (point_of [[0; 0]; [1; 1]]%nat [0; 1]%nat dosages_d_in) in
  solver_exact 2 [[0; 0]; [1; 1]]%nat 2 solve [1; 0; 1] /\
  exists log alts' distance,
    mip_fit 2 [[0; 0]; [1; 1]]%nat 2 solve [0; 0]%nat [1; 0; 1]
      = (log, Ok (alts', distance)) /\
    distance == 0 /\ (alts' = [0; 1]%nat \/ alts' = [1; 0]%nat).
Proof.
  cbn zeta.
  assert (Hsolve : solver_exact 2 [[0; 0]; [1; 1]]%nat 2
            (λ dosages_d_in,
               Some (point_of [[0; 0]; [1; 1]]%nat [0; 1]%nat dosages_d_in))
            [1; 0; 1]).
  { apply (point_of_solver_exact 2 [[0; 0]; [1; 1]]%nat [0; 1]%nat [1; 0; 1]%nat).
    - solve_map_in_range.
    - solve_binary.
    - reflexivity. }
  split; [exact Hsolve|].
  exact (proj2 mip_fit_exact _ [0; 0]%nat eq_refl Hsolve).
Defined.

(** ** The fitter on IEEE values *)

(** *** On numbers, the functions on IEEE values are those on rationals *)

Lemma ieee_inner_product_finite a : forall b init,
  ieee.inner_product (map ieee.Finite a) b (ieee.Finite init)
  = ieee.Finite (inner_product a b init).
Proof.
  induction a as [|x a IH]; intros [|y b] init; try reflexivity.
  cbn [map ieee.inner_product inner_product ieee.add ieee.abs ieee.sub].
  apply IH.
Qed.

Lemma ieee_accumulate_finite l : forall init,
  ieee.accumulate (map ieee.Finite l) (ieee.Finite init)
  = ieee.Finite (accumulate l init).
Proof.
  unfold ieee.accumulate, accumulate.
  induction l as [|x l IH]; intros init; [reflexivity|].
  cbn [map foldl ieee.add]. apply IH.
Qed.

(** The normalized distribution of a vector whose sum is not zero. *)
Lemma ieee_normalize_finite (dosages_d : list Q) (n_samples : nat) :
  ~ accumulate dosages_d 0 == 0 ->
  ieee.normalize_dosages_distribution (map ieee.Finite dosages_d) n_samples
  = map ieee.Finite (normalize_dosages_distribution dosages_d n_samples).
Proof.
  intros Hsum. unfold ieee.normalize_dosages_distribution, normalize_dosages_distribution.
  rewrite ieee_accumulate_finite, <- !list_fmap_compose.
  apply list_fmap_ext. intros i d _. cbn [compose ieee.mul ieee.div].
  unfold ieee.is_zero. destruct (Qeq_bool (accumulate dosages_d 0) 0) eqn:E;
    [|reflexivity].
  apply Qeq_bool_iff in E. contradiction.
Qed.

Section ieee_finite.
Variable n_ploidy : nat.
Variable haplotypes_m : haplotypes_map.
Variable dosages_d_in : list Q.

Local Abbreviation target := (map ieee.Finite dosages_d_in).

Lemma ieee_induced_distance_finite alts :
  ieee.induced_distance n_ploidy haplotypes_m target alts
  = ieee.Finite (induced_distance n_ploidy haplotypes_m dosages_d_in alts).
Proof. apply ieee_inner_product_finite. Qed.

Lemma ieee_probe_finite alts j :
  ieee.probe n_ploidy haplotypes_m target alts j
  = let '(d, alts') := probe n_ploidy haplotypes_m dosages_d_in alts j in
    (ieee.Finite d, alts').
Proof.
  unfold ieee.probe, probe.
  destruct (decide (view_get alts j = 1%nat)); [reflexivity|].
  cbn zeta. rewrite ieee_induced_distance_finite. reflexivity.
Qed.

Lemma ieee_transform_probe_finite k : forall alts j,
  ieee.transform_probe n_ploidy haplotypes_m target alts j k
  = let '(ds, alts') :=
      transform_probe n_ploidy haplotypes_m dosages_d_in alts j k in
    (map ieee.Finite ds, alts').
Proof.
  induction k as [|k IH]; intros alts j; [reflexivity|].
  cbn [ieee.transform_probe transform_probe]. rewrite ieee_probe_finite.
  destruct (probe n_ploidy haplotypes_m dosages_d_in alts j) as [d alts'].
  rewrite IH.
  destruct (transform_probe n_ploidy haplotypes_m dosages_d_in alts' (S j) k)
    as [ds alts''].
  reflexivity.
Qed.

Lemma ieee_min_element_from_finite l : forall best_i best i,
  ieee.min_element_from best_i (ieee.Finite best) i (map ieee.Finite l)
  = let '(r_i, r) := min_element_from best_i best i l in (r_i, ieee.Finite r).
Proof.
  induction l as [|x l IH]; intros best_i best i; [reflexivity|].
  cbn [map ieee.min_element_from min_element_from ieee.ltb].
  destruct (Qltb x best); apply IH.
Qed.

Lemma ieee_min_element_finite l :
  ieee.min_element (map ieee.Finite l)
  = option_map (λ '(i, m), (i, ieee.Finite m)) (min_element l).
Proof.
  destruct l as [|x l]; [reflexivity|].
  cbn [map ieee.min_element min_element option_map].
  rewrite ieee_min_element_from_finite.
  destruct (min_element_from 0 x 1 l). reflexivity.
Qed.

Lemma ieee_descent_iteration_finite st :
  ieee.descent_iteration n_ploidy haplotypes_m target (finite_state st)
  = option_map finite_state
      (descent_iteration n_ploidy haplotypes_m dosages_d_in st).
Proof.
  unfold ieee.descent_iteration, descent_iteration, finite_state.
  cbn [ieee.ds_alts ieee.ds_distance].
  rewrite ieee_transform_probe_finite.
  destruct (transform_probe _ _ _ _ _ _) as [distances alts].
  rewrite ieee_min_element_finite.
  destruct (min_element distances) as [[min_i min_distance]|]; [|reflexivity].
  cbn [option_map ieee.ltb].
  destruct (Qltb (ds_distance st) min_distance); reflexivity.
Qed.

Lemma ieee_descent_loop_finite fuel : forall st,
  ieee.descent_loop n_ploidy haplotypes_m target fuel (finite_state st)
  = finite_state (descent_loop n_ploidy haplotypes_m dosages_d_in fuel st).
Proof.
  induction fuel as [|fuel IH]; intros st; [reflexivity|].
  cbn [ieee.descent_loop descent_loop]. rewrite ieee_descent_iteration_finite.
  destruct (descent_iteration _ _ _ st) as [st'|]; [apply IH | reflexivity].
Qed.

(** On a target of numbers [fit] on IEEE values returns what [fit] on
    rationals returns. *)
Lemma ieee_descent_fit_finite (alts_in : founders_alts) :
  ieee.descent_fit n_ploidy haplotypes_m target alts_in
  = let '(alts, distance) :=
      descent_fit n_ploidy haplotypes_m dosages_d_in alts_in in
    (alts, ieee.Finite distance).
Proof.
  unfold ieee.descent_fit, descent_fit.
  replace (ieee.descent_init n_ploidy haplotypes_m target alts_in)
    with (finite_state (descent_init n_ploidy haplotypes_m dosages_d_in alts_in))
    by (unfold finite_state, ieee.descent_init, descent_init;
        cbn [ds_alts ds_distance]; rewrite ieee_induced_distance_finite; reflexivity).
  rewrite ieee_descent_loop_finite. reflexivity.
Qed.
End ieee_finite.

(** *** A target that holds NaN *)

Lemma ieee_add_NaN a : ieee.add a ieee.NaN = ieee.NaN.
Proof. destruct a; reflexivity. Qed.

Lemma ieee_inner_product_NaN a : forall b,
  ieee.inner_product a b ieee.NaN = ieee.NaN.
Proof.
  induction a as [|x a IH]; intros [|y b]; try reflexivity.
  cbn [ieee.inner_product ieee.add]. apply IH.
Qed.

(** One NaN among the entries that [inner_product] reaches makes the
    distance NaN. *)
Lemma ieee_inner_product_NaN_entry a : forall b init k,
  a !! k = Some ieee.NaN -> (k < length b)%nat ->
  ieee.inner_product a b init = ieee.NaN.
Proof.
  induction a as [|x a IH]; intros [|y b] init [|k] Hk Hlen;
    simpl in Hk, Hlen; try discriminate; try lia.
  - inversion Hk; subst x. cbn [ieee.inner_product ieee.sub ieee.abs].
    rewrite ieee_add_NaN. apply ieee_inner_product_NaN.
  - cbn [ieee.inner_product]. apply (IH b _ k Hk). lia.
Qed.

Lemma insert_0_insert_1 alts j :
  binary alts -> view_get alts j <> 1%nat ->
  <[j := 0%nat]> (<[j := 1%nat]> alts) = alts.
Proof.
  intros Hb E. rewrite list_insert_insert_eq.
  destruct (alts !! j) as [a|] eqn:Hj.
  - apply list_insert_id. rewrite Hj. f_equal.
    destruct (binary_lookup _ _ _ Hb Hj) as [->| ->]; [reflexivity|].
    exfalso. apply E. unfold view_get. rewrite Hj. reflexivity.
  - apply list_insert_ge. apply lookup_ge_None. exact Hj.
Qed.

Section ieee_nan.
Variable n_ploidy : nat.
Variable haplotypes_m : haplotypes_map.
Variable dosages_d_in : list ieee.float.
Variable k : nat.
Hypothesis Hnan : dosages_d_in !! k = Some ieee.NaN.
Hypothesis Hk : (k <= n_ploidy)%nat.

Local Abbreviation iteration :=
  (ieee.descent_iteration n_ploidy haplotypes_m dosages_d_in).

(** Every distance to such a target is NaN. *)
Lemma ieee_induced_distance_NaN alts :
  ieee.induced_distance n_ploidy haplotypes_m dosages_d_in alts = ieee.NaN.
Proof.
  unfold ieee.induced_distance, ieee.l1_norm.
  apply (ieee_inner_product_NaN_entry _ _ _ k Hnan).
  rewrite make_dosages_distribution_histogram, histogram_length, length_replicate.
  lia.
Qed.

(** The probing pass writes [FLT_MAX] for a founder at 1 and NaN for
    any other. *)
Lemma ieee_transform_probe_NaN alts :
  binary alts -> forall n j,
  ieee.transform_probe n_ploidy haplotypes_m dosages_d_in alts j n
  = (map (nan_probed alts) (seq j n), alts).
Proof.
  intros Hb. induction n as [|n IH]; intros j; [reflexivity|].
  cbn [ieee.transform_probe seq map]. unfold ieee.probe at 1, nan_probed at 1.
  destruct (decide (view_get alts j = 1%nat)) as [E|E].
  - rewrite IH. reflexivity.
  - cbn zeta. rewrite ieee_induced_distance_NaN, (insert_0_insert_1 _ _ Hb E), IH.
    reflexivity.
Qed.

(** [FLT_MAX] or NaN at the front stays the minimum: no such value
    compares smaller than another. *)
Lemma ieee_min_element_from_NaN alts (js : list nat) best_i best i :
  best = ieee.NaN \/ best = ieee.Finite FLT_MAX ->
  ieee.min_element_from best_i best i (map (nan_probed alts) js) = (best_i, best).
Proof.
  intros Hbest. revert i. induction js as [|j js IH]; intros i; [reflexivity|].
  cbn [map ieee.min_element_from].
  replace (ieee.ltb (nan_probed alts j) best) with false; [apply IH|].
  unfold nan_probed. destruct (decide _), Hbest as [->| ->]; reflexivity.
Qed.

(** With a distance that is NaN or [FLT_MAX], an iteration commits
    founder 0, whatever its allele. *)
Lemma ieee_descent_iteration_NaN a alts distance :
  binary (a :: alts) ->
  distance = ieee.NaN \/ distance = ieee.Finite FLT_MAX ->
  iteration (ieee.DescentState (a :: alts) distance)
  = Some (ieee.DescentState (1%nat :: alts) (nan_probed (a :: alts) 0)).
Proof.
  intros Hb Hd. unfold ieee.descent_iteration. cbn [ieee.ds_alts ieee.ds_distance].
  rewrite (ieee_transform_probe_NaN _ Hb).
  cbn [length seq map ieee.min_element].
  rewrite ieee_min_element_from_NaN
    by (unfold nan_probed; destruct (decide _); auto).
  replace (ieee.ltb distance (nan_probed (a :: alts) 0)) with false; [reflexivity|].
  unfold nan_probed. destruct (decide _), Hd as [->| ->]; reflexivity.
Qed.

(** The loop on such a target, from the all-zero vector of two founders
    or more: founder 0 is committed in every iteration. *)
Lemma ieee_descent_commits_NaN (n : nat) :
  let zeros := replicate (S n) 0%nat in
  ieee.descent_commits n_ploidy haplotypes_m dosages_d_in (S (S n))
    (ieee.descent_init n_ploidy haplotypes_m dosages_d_in (0%nat :: zeros))
  = ieee.DescentState (1%nat :: zeros) ieee.NaN
    :: replicate (S n) (ieee.DescentState (1%nat :: zeros) (ieee.Finite FLT_MAX)).
Proof.
  cbn zeta. set (zeros := replicate (S n) 0%nat).
  assert (Hz : map (λ _ : nat, 0%nat) (0%nat :: zeros) = 0%nat :: zeros).
  { unfold zeros. cbn [map]. f_equal. induction (S n) as [|m IH]; [reflexivity|].
    cbn [replicate map]. f_equal. exact IH. }
  assert (Hb : forall a, a = 0%nat \/ a = 1%nat -> binary (a :: zeros)).
  { intros a Ha. constructor; [exact Ha|]. unfold zeros.
    apply Forall_replicate. left; reflexivity. }
  unfold ieee.descent_init. rewrite Hz, ieee_induced_distance_NaN.
  cbn [ieee.descent_commits].
  rewrite (ieee_descent_iteration_NaN _ _ _ (Hb _ (or_introl eq_refl)))
    by (left; reflexivity).
  f_equal. change (nan_probed (0%nat :: zeros) 0) with ieee.NaN.
  assert (Hfix : forall fuel d,
    d = ieee.NaN \/ d = ieee.Finite FLT_MAX ->
    ieee.descent_commits n_ploidy haplotypes_m dosages_d_in fuel
      (ieee.DescentState (1%nat :: zeros) d)
    = replicate fuel (ieee.DescentState (1%nat :: zeros) (ieee.Finite FLT_MAX))).
  { induction fuel as [|fuel IH]; intros d Hd; [reflexivity|].
    cbn [ieee.descent_commits replicate].
    rewrite (ieee_descent_iteration_NaN _ _ _ (Hb _ (or_intror eq_refl)) Hd).
    change (nan_probed (1%nat :: zeros) 0) with (ieee.Finite FLT_MAX).
    f_equal. apply IH. right; reflexivity. }
  exact (Hfix (S n) ieee.NaN (or_introl eq_refl)).
Qed.

Lemma ieee_descent_loop_last fuel : forall st,
  ieee.descent_loop n_ploidy haplotypes_m dosages_d_in fuel st
  = default st (last (ieee.descent_commits n_ploidy haplotypes_m dosages_d_in fuel st)).
Proof.
  induction fuel as [|fuel IH]; intros st;
    cbn [ieee.descent_loop ieee.descent_commits]; [reflexivity|].
  destruct (iteration st) as [st'|]; [|reflexivity].
  rewrite IH, last_cons.
  destruct (last (ieee.descent_commits _ _ _ fuel st')); reflexivity.
Qed.

(** What [fit] returns: founder 0 at 1, every other founder at 0, and
    [FLT_MAX] as the distance. *)
Lemma ieee_descent_fit_NaN (n : nat) :
  ieee.descent_fit n_ploidy haplotypes_m dosages_d_in (replicate (S (S n)) 0%nat)
  = (1%nat :: replicate (S n) 0%nat, ieee.Finite FLT_MAX).
Proof.
  unfold ieee.descent_fit. rewrite ieee_descent_loop_last, length_replicate.
  change (replicate (S (S n)) 0%nat) with (0%nat :: replicate (S n) 0%nat).
  rewrite ieee_descent_commits_NaN. rewrite last_cons.
  change (replicate (S n) ?x) with (x :: replicate n x).
  rewrite last_cons.
  destruct (last (replicate n _)) as [st|] eqn:E; [|reflexivity].
  apply last_Some_elem_of, elem_of_replicate in E. destruct E as [-> _].
  reflexivity.
Qed.
End ieee_nan.

(** *** The marker without a known genotype *)

(** C3: the code breaks the claim on a marker without a known genotype.
    The loader counts nothing, the normalization divides 0 by 0 and the
    target is NaN in every entry.  Whatever the haplotypes map, the
    fitter with two founders returns founder 0 at 1 and the distance
    [FLT_MAX]; the distance of the all-zero vector is NaN, as is the
    distance of the returned vector, and neither [FLT_MAX <= NaN] nor
    [NaN <= NaN] holds. *)
Theorem descent_fit_unknown_marker (haplotypes_m : haplotypes_map) :
  exists log contig_names data,
    read_vcf 2 unknown_genotypes_file = (log, Ok (contig_names, data)) /\
    vd_dosages_v data = [[0; 0; 0]] /\
    let target :=
      ieee.normalize_dosages_distribution (map ieee.Finite [0; 0; 0]) 1 in
    let zero := [0; 0]%nat in
    let '(alts, distance) := ieee.descent_fit 2 haplotypes_m target zero in
    target = [ieee.NaN; ieee.NaN; ieee.NaN] /\
    alts = [1; 0]%nat /\ distance = ieee.Finite FLT_MAX /\
    ieee.leb distance (ieee.induced_distance 2 haplotypes_m target zero) = false /\
    ieee.leb (ieee.induced_distance 2 haplotypes_m target alts)
             (ieee.induced_distance 2 haplotypes_m target zero) = false.
Proof.
  eexists _, _, _. split; [vm_compute; reflexivity|].
  split; [reflexivity|]. cbn zeta.
  change (ieee.normalize_dosages_distribution (map ieee.Finite [0; 0; 0]) 1)
    with [ieee.NaN; ieee.NaN; ieee.NaN].
  assert (Hnan : [ieee.NaN; ieee.NaN; ieee.NaN] !! 0%nat = Some ieee.NaN)
    by reflexivity.
  assert (Hk : (0 <= 2)%nat) by lia.
  pose proof (ieee_descent_fit_NaN 2 haplotypes_m _ 0 Hnan Hk 0) as Hfit.
  cbn [replicate] in Hfit. rewrite Hfit.
  rewrite !(ieee_induced_distance_NaN 2 haplotypes_m _ 0 Hnan Hk).
  repeat split; reflexivity.
Qed.

(** C4: the code breaks the claim on the same marker.  Both iterations
    of the loop commit: the first sets founder 0 to 1; in the second the
    entries of [distances] are [FLT_MAX] for founder 0 and NaN for
    founder 1, [min_element] stays on the first, nothing compares
    smaller than it, and founder 0, already at 1, is committed again.
    After two committed iterations one founder is at 1. *)
Theorem descent_commits_unknown_marker (haplotypes_m : haplotypes_map) :
  let target := [ieee.NaN; ieee.NaN; ieee.NaN] in
  let st0 := ieee.descent_init 2 haplotypes_m target [0; 0]%nat in
  let cs := ieee.descent_commits 2 haplotypes_m target 2 st0 in
  ieee.normalize_dosages_distribution (map ieee.Finite [0; 0; 0]) 1 = target /\
  cs = [ieee.DescentState [1; 0]%nat ieee.NaN;
        ieee.DescentState [1; 0]%nat (ieee.Finite FLT_MAX)] /\
  map (λ st, ones (ieee.ds_alts st)) (st0 :: cs) = [0; 1; 1]%nat /\
  ieee.transform_probe 2 haplotypes_m target [1; 0]%nat 0 2
  = ([ieee.Finite FLT_MAX; ieee.NaN], [1; 0]%nat) /\
  ieee.min_element [ieee.Finite FLT_MAX; ieee.NaN]
  = Some (0%nat, ieee.Finite FLT_MAX).
Proof.
  cbn zeta. split; [reflexivity|].
  assert (Hnan : [ieee.NaN; ieee.NaN; ieee.NaN] !! 0%nat = Some ieee.NaN)
    by reflexivity.
  assert (Hk : (0 <= 2)%nat) by lia.
  pose proof (ieee_descent_commits_NaN 2 haplotypes_m _ 0 Hnan Hk 0) as Hcs.
  cbn zeta in Hcs. cbn [replicate] in Hcs. rewrite Hcs.
  split; [reflexivity|]. split; [reflexivity|]. split; [|reflexivity].
  rewrite (ieee_transform_probe_NaN 2 haplotypes_m _ 0 Hnan Hk [1; 0]%nat)
    by solve_binary.
  reflexivity.
Qed.

(** The normalization of a marker without a known genotype: every count
    is zero, so is their sum, and every quotient is NaN. *)
Lemma ieee_normalize_zero (n n_samples : nat) :
  ieee.normalize_dosages_distribution (map ieee.Finite (replicate n 0)) n_samples
  = replicate n ieee.NaN.
Proof.
  unfold ieee.normalize_dosages_distribution.
  rewrite ieee_accumulate_finite.
  assert (Hsum : ieee.is_zero (accumulate (replicate n 0) 0) = true).
  { apply Qeq_bool_iff. unfold accumulate.
    assert (G : forall init, init == 0 -> foldl Qplus init (replicate n 0) == 0).
    { induction n as [|m IH]; intros init Hi; [exact Hi|].
      cbn [replicate foldl]. apply IH. rewrite Hi. reflexivity. }
    apply G. reflexivity. }
  set (dosages_sum := accumulate (replicate n 0) 0) in *. clearbody dosages_sum.
  assert (Hzero : ieee.is_zero (of_count n_samples * 0) = true)
    by (apply Qeq_bool_iff; ring).
  induction n as [|m IH]; [reflexivity|].
  cbn [replicate map ieee.mul ieee.div]. rewrite Hsum, Hzero. f_equal. exact IH.
Qed.

(** X26: the normalization of counts that are all zero (a marker
    without a known genotype) is NaN in every entry.  On a target that
    holds NaN, every distance is NaN, and the greedy fitter with two
    founders or more commits in every iteration of its loop, founder 0
    each time: whatever the haplotypes map, it returns founder 0 at 1,
    every other founder at 0, and the distance [FLT_MAX]. *)
Theorem descent_fit_nan_target n_ploidy n_samples haplotypes_m
    (dosages_d_in : list ieee.float) (k n : nat) :
  dosages_d_in !! k = Some ieee.NaN -> (k <= n_ploidy)%nat ->
  let zeros := replicate (S n) 0%nat in
  let st0 := ieee.descent_init n_ploidy haplotypes_m dosages_d_in (0%nat :: zeros) in
  ieee.normalize_dosages_distribution
    (map ieee.Finite (replicate (S n_ploidy) 0)) n_samples
  = replicate (S n_ploidy) ieee.NaN /\
  (forall alts,
     ieee.induced_distance n_ploidy haplotypes_m dosages_d_in alts = ieee.NaN) /\
  length (ieee.descent_commits n_ploidy haplotypes_m dosages_d_in (S (S n)) st0)
  = S (S n) /\
  Forall (λ st, ieee.ds_alts st = 1%nat :: zeros)
         (ieee.descent_commits n_ploidy haplotypes_m dosages_d_in (S (S n)) st0) /\
  ieee.descent_fit n_ploidy haplotypes_m dosages_d_in (0%nat :: zeros)
  = (1%nat :: zeros, ieee.Finite FLT_MAX).
Proof.
  intros Hnan Hk. cbn zeta.
  split; [apply ieee_normalize_zero|].
  split; [intros alts; exact (ieee_induced_distance_NaN _ _ _ _ Hnan Hk alts)|].
  pose proof (ieee_descent_commits_NaN n_ploidy haplotypes_m _ _ Hnan Hk n) as Hcs.
  cbn zeta in Hcs. rewrite Hcs.
  split; [cbn [length]; rewrite length_replicate; reflexivity|].
  split.
  - constructor; [reflexivity|]. apply Forall_replicate. reflexivity.
  - exact (ieee_descent_fit_NaN n_ploidy haplotypes_m _ _ Hnan Hk n).
Qed.

Lemma descent_fit_nan_target_witness :
  [ieee.NaN; ieee.NaN; ieee.NaN; ieee.NaN; ieee.NaN] !! 0%nat = Some ieee.NaN /\
  ieee.normalize_dosages_distribution (map ieee.Finite [0; 0; 0; 0; 0]) 2
  = [ieee.NaN; ieee.NaN; ieee.NaN; ieee.NaN; ieee.NaN] /\
  ieee.descent_fit 4 [[0; 1; 2; 0]; [1; 1; 2; 2]]%nat
                   [ieee.NaN; ieee.NaN; ieee.NaN; ieee.NaN; ieee.NaN] [0; 0; 0]%nat
  = ([1; 0; 0]%nat, ieee.Finite FLT_MAX).
Proof.
  assert (Hnan : [ieee.NaN; ieee.NaN; ieee.NaN; ieee.NaN; ieee.NaN] !! 0%nat
                 = Some ieee.NaN) by reflexivity.
  assert (Hk : (0 <= 4)%nat) by lia.
  destruct (descent_fit_nan_target 4 2 [[0; 1; 2; 0]; [1; 1; 2; 2]]%nat
              _ 0 1 Hnan Hk) as (Hnorm & _ & _ & _ & Hfit).
  split; [exact Hnan|]. split; [exact Hnorm | exact Hfit].
Defined.

(* ===================================================================== *)
(** * Further properties of the code                                       *)
(* ===================================================================== *)
(** ** Reading a genotype field *)

Lemma list_ascii_of_string_app (s1 s2 : string) :
  list_ascii_of_string (s1 ++ s2)
  = list_ascii_of_string s1 ++ list_ascii_of_string s2.
Proof. induction s1 as [|c s1 IH]; simpl; [reflexivity|]. rewrite IH. reflexivity. Qed.

(** [readUntil] splits its input, stops at nothing in the part it reads
    and stops at the head of what remains. *)
Lemma readUntil_spec stop input :
  let '(target, rest) := readUntil stop input in
  input = target ++ rest /\ Forall (λ c, stop c = false) target /\
  match rest with [] => True | c :: _ => stop c = true end.
Proof.
  induction input as [|c input IH]; simpl; [repeat split; constructor|].
  destruct (stop c) eqn:E; [repeat split; [constructor | exact E]|].
  destruct (readUntil stop input) as [target rest].
  destruct IH as (-> & Hall & Hrest). repeat split; auto.
Qed.

Lemma readUntil_stop stop before c after :
  stop c = true ->
  (readUntil stop (before ++ c :: after)).1 = (readUntil stop before).1.
Proof.
  intros Hc. induction before as [|b before IH]; simpl.
  - rewrite Hc. reflexivity.
  - destruct (stop b); [reflexivity|].
    destruct (readUntil stop (before ++ c :: after)) as [t r].
    destruct (readUntil stop before) as [t' r']. simpl in *. congruence.
Qed.

Lemma readUntil_all stop input :
  Forall (λ c, stop c = false) input -> readUntil stop input = (input, []).
Proof.
  induction 1 as [|c input Hc Hall IH]; simpl; [reflexivity|].
  rewrite Hc, IH. reflexivity.
Qed.

(** X1: only the first [:]-separated field of a genotype column is read,
    and the genotype read holds none of the separators [:], [/], [|]. *)
Theorem read_genotype_first_field (gt rest : string) :
  read_genotype (gt ++ ":" ++ rest) = read_genotype gt /\
  Forall (λ c, c <> ":"%char /\ c <> "/"%char /\ c <> "|"%char) (read_genotype gt).
Proof.
  split.
  - unfold read_genotype. rewrite list_ascii_of_string_app.
    change (list_ascii_of_string (":" ++ rest))
      with (":"%char :: list_ascii_of_string rest).
    rewrite readUntil_stop by reflexivity. reflexivity.
  - unfold read_genotype.
    pose proof (readUntil_spec (Ascii.eqb ":") (list_ascii_of_string gt)) as H.
    destruct (readUntil _ _) as [target r]. destruct H as (_ & Hall & _). simpl.
    apply Forall_forall. intros c Hc.
    apply list_elem_of_filter in Hc. destruct Hc as [Hbar Hc].
    apply list_elem_of_filter in Hc. destruct Hc as [Hslash Hc].
    split; [|split; assumption].
    intros ->. pose proof (proj1 (Forall_forall _ _) Hall _ Hc) as E. discriminate E.
Qed.

(** ** Genotypes written by [write_genotype], read again *)

Lemma write_genotype_cons a b (g : list nat) :
  write_genotype (a :: b :: g) = (pretty a ++ "|" ++ write_genotype (b :: g))%string.
Proof. reflexivity. Qed.

Lemma pretty_allele (a : nat) :
  a = 0%nat \/ a = 1%nat -> pretty a = String (allele_char a) EmptyString.
Proof. intros [-> | ->]; reflexivity. Qed.

Lemma written_genotype_chars (g : list nat) : forall a,
  binary (a :: g) ->
  list_ascii_of_string (write_genotype (a :: g))
  = allele_char a :: concat (map (λ b, ["|"%char; allele_char b]) g).
Proof.
  induction g as [|b g IH]; intros a Hb; inversion Hb as [|? ? Ha Hg]; subst.
  - unfold write_genotype. simpl map. simpl String.concat.
    rewrite (pretty_allele a Ha). reflexivity.
  - rewrite write_genotype_cons, (pretty_allele a Ha).
    change (list_ascii_of_string
              (String (allele_char a) EmptyString ++ "|" ++ write_genotype (b :: g)))
      with (allele_char a :: "|"%char :: list_ascii_of_string (write_genotype (b :: g))).
    rewrite (IH b Hg). reflexivity.
Qed.

Lemma allele_char_cases a :
  allele_char a <> ":"%char /\ allele_char a <> "/"%char /\
  allele_char a <> "|"%char /\ allele_char a <> "."%char.
Proof. unfold allele_char. destruct (decide _); repeat split; discriminate. Qed.

(** Reading what [write_genotype] wrote gives the alleles back, one
    character each. *)
Lemma read_written_genotype (g : list nat) :
  binary g -> g <> [] -> read_genotype (write_genotype g) = map allele_char g.
Proof.
  intros Hb Hne. destruct g as [|a g]; [contradiction|]. clear Hne.
  unfold read_genotype. rewrite (written_genotype_chars g a Hb).
  rewrite readUntil_all.
  - simpl fst. destruct (allele_char_cases a) as (_ & Hs & Hbar & _).
    rewrite (filter_cons_True (λ c, c <> "/"%char)) by exact Hs.
    rewrite (filter_cons_True (λ c, c <> "|"%char)) by exact Hbar.
    simpl map. f_equal. clear. induction g as [|b g IH]; [reflexivity|].
    simpl map. simpl concat. destruct (allele_char_cases b) as (_ & Hs & Hbar & _).
    rewrite (filter_cons_True (λ c, c <> "/"%char)) by discriminate.
    rewrite (filter_cons_True (λ c, c <> "/"%char)) by exact Hs.
    rewrite (filter_cons_False (λ c, c <> "|"%char))
      by (intros H; apply H; reflexivity).
    rewrite (filter_cons_True (λ c, c <> "|"%char)) by exact Hbar.
    f_equal. exact IH.
  - constructor.
    + destruct (allele_char_cases a) as (Hc & _). apply Ascii.eqb_neq. congruence.
    + clear. induction g as [|b g IH]; [constructor|]. cbn [map concat app].
      constructor; [reflexivity|]. constructor; [|exact IH].
      destruct (allele_char_cases b) as (Hc & _). apply Ascii.eqb_neq. congruence.
Qed.

Lemma get_dosage_allele_char (g : list nat) :
  get_dosage (map allele_char g) "1"%char = get_dosage g 1%nat.
Proof.
  unfold get_dosage. induction g as [|a g IH]; [reflexivity|].
  simpl map. rewrite !filter_cons.
  assert (Hiff : allele_char a = "1"%char <-> a = 1%nat).
  { unfold allele_char. destruct (decide (a = 1%nat)) as [E|E]; split; intros H;
      try assumption; try reflexivity; [discriminate H | contradiction]. }
  destruct (decide (allele_char a = "1"%char)), (decide (a = 1%nat));
    try tauto; simpl; rewrite ?IH; reflexivity.
Qed.

Lemma is_unknown_allele_chars (g : list nat) :
  g <> [] -> is_unknown (map allele_char g) = Some false.
Proof.
  intros Hne. unfold is_unknown. rewrite fmap_last.
  destruct (last g) as [a|] eqn:E.
  - simpl. f_equal. apply Ascii.eqb_neq.
    destruct (allele_char_cases a) as (_ & _ & _ & H). exact H.
  - apply last_None in E. contradiction.
Qed.

Lemma of_count_S n : of_count (S n) = of_count n + 1.
Proof.
  unfold of_count, inject_Z, Qplus. cbn [Qnum Qden]. f_equal. lia.
Qed.

Lemma alter_of_count k (dosages_d : list nat) :
  alter (λ d, d + 1) k (map of_count dosages_d) = map of_count (alter S k dosages_d).
Proof.
  symmetry. apply list_fmap_alter. apply Forall_forall. intros n _. apply of_count_S.
Qed.

Lemma read_written_genotypes n_ploidy position (genotypes : list (list nat)) :
  (0 < n_ploidy)%nat ->
  Forall (λ g, binary g /\ length g = n_ploidy) genotypes ->
  forall dosages_d : list nat,
  read_genotypes n_ploidy position (map write_genotype genotypes) (map of_count dosages_d)
  = ([], Ok (map of_count
               (foldl (λ dosages_d genotype, alter S (get_dosage genotype 1%nat) dosages_d)
                      dosages_d genotypes))).
Proof.
  intros Hp. induction 1 as [|g gs [Hb Hlen] Hgs IH]; intros dosages_d; [reflexivity|].
  assert (Hne : g <> []) by (intros ->; simpl in Hlen; lia).
  simpl map. cbn [read_genotypes foldl].
  rewrite (read_written_genotype g Hb Hne), (is_unknown_allele_chars g Hne).
  unfold get_ploidy. rewrite length_map.
  destruct (decide (length g <> n_ploidy)) as [Hw|_]; [contradiction|].
  rewrite get_dosage_allele_char, alter_of_count. apply IH.
Qed.

(** X2: genotype columns written by [write_genotype] for 0/1 genotypes
    of [n_ploidy] alleles are read back by the loader, at the same
    ploidy, without any [UNKNOWN] line or error, as the dosage
    distribution of these genotypes. *)
Theorem written_genotypes_read_back n_ploidy position (genotypes : list (list nat)) :
  (0 < n_ploidy)%nat ->
  Forall (λ g, binary g /\ length g = n_ploidy) genotypes ->
  read_genotypes n_ploidy position (map write_genotype genotypes)
                 (replicate (S n_ploidy) 0)
  = ([], Ok (map of_count (make_dosages_distribution n_ploidy genotypes))).
Proof.
  intros Hp Hg.
  pose proof (read_written_genotypes n_ploidy position genotypes Hp Hg
                (replicate (S n_ploidy) 0%nat)) as H.
  rewrite fmap_replicate in H. exact H.
Qed.

Lemma written_genotypes_read_back_witness :
  read_genotypes 2 (0, 7)%nat (map write_genotype [[0; 1]; [1; 1]; [0; 0]; [1; 0]]%nat)
                 (replicate 3 0)
  = ([], Ok (map of_count (make_dosages_distribution 2 [[0; 1]; [1; 1]; [0; 0]; [1; 0]]%nat))).
Proof.
  apply (written_genotypes_read_back 2 (0, 7)%nat [[0; 1]; [1; 1]; [0; 0]; [1; 0]]%nat).
  - lia.
  - repeat (apply List.Forall_cons; [split; [solve_binary | reflexivity]|]).
    apply List.Forall_nil.
Defined.

(** ** What the loader counts *)

Lemma bind_cerr {A} line (m : M A) : (cerr line;; m) = (line :: m.1, m.2).
Proof. destruct m as [log r]. reflexivity. Qed.

Lemma filter_known_cons gi infos :
  filter known (gi :: infos)
  = if decide (known gi) then gi :: filter known infos else filter known infos.
Proof. apply filter_cons. Qed.

Lemma filter_unknown_cons gi infos :
  filter unknown (gi :: infos)
  = if decide (unknown gi) then gi :: filter unknown infos else filter unknown infos.
Proof. apply filter_cons. Qed.

(** The loop over the genotype columns, when it ends normally: the
    counts are the histogram of the dosages of the known genotypes, every
    known genotype has the configured ploidy, and every unknown one left
    its line. *)
Lemma read_genotypes_histogram n_ploidy position infos :
  forall (dosages : list nat) log dosages_d,
  read_genotypes n_ploidy position infos (map of_count dosages) = (log, Ok dosages_d) ->
  dosages_d = map of_count (histogram (known_dosages infos) dosages) /\
  log = map (λ _, LogUnknown position) (filter unknown infos) /\
  Forall (λ gi, get_ploidy (read_genotype gi) = n_ploidy) (filter known infos).
Proof.
  induction infos as [|gi infos IH]; intros dosages log dosages_d;
    cbn [read_genotypes].
  - intros H. inversion H; subst. repeat split. constructor.
  - unfold known_dosages. rewrite filter_known_cons, filter_unknown_cons.
    destruct (decide (known gi)) as [Hk|Hk], (decide (unknown gi)) as [Hu|Hu];
      unfold known, unknown in Hk, Hu;
      destruct (is_unknown (read_genotype gi)) as [[|]|]; try congruence.
    + destruct (decide (get_ploidy (read_genotype gi) <> n_ploidy)) as [Hw|Hok];
        [intros H; discriminate H|].
      rewrite alter_of_count. intros H.
      destruct (IH _ _ _ H) as (Hd & Hl & Hp).
      split; [exact Hd|]. split; [exact Hl|].
      constructor; [|exact Hp].
      destruct (decide (get_ploidy (read_genotype gi) = n_ploidy));
        [assumption | contradiction].
    + rewrite bind_cerr. intros H. inversion H as [[Hlog Hr]].
      destruct (read_genotypes n_ploidy position infos (map of_count dosages))
        as [log' r] eqn:Hrec. simpl in Hr. subst r. simpl.
      destruct (IH _ _ _ Hrec) as (Hd & Hl & Hp).
      split; [exact Hd|]. split; [|exact Hp]. f_equal. exact Hl.
    + intros H. discriminate H.
Qed.

Lemma read_genotypes_length n_ploidy position infos log dosages_d :
  read_genotypes n_ploidy position infos (replicate (S n_ploidy) 0)
  = (log, Ok dosages_d) ->
  length dosages_d = S n_ploidy.
Proof.
  intros H.
  assert (H0 : replicate (S n_ploidy) 0 = map of_count (replicate (S n_ploidy) 0%nat))
    by (rewrite fmap_replicate; reflexivity).
  rewrite H0 in H.
  destruct (read_genotypes_histogram _ _ _ _ _ _ H) as (-> & _).
  rewrite length_map, histogram_length. apply length_replicate.
Qed.

Lemma accumulate_of_count (l : list nat) :
  accumulate (map of_count l) 0 == of_count (sum_list l).
Proof.
  induction l as [|n l IH]; [reflexivity|].
  change (map of_count (n :: l)) with (of_count n :: map of_count l).
  rewrite accumulate_cons, IH. change (sum_list (n :: l)) with (n + sum_list l)%nat.
  rewrite of_count_plus. reflexivity.
Qed.

(** X3: when the genotype columns of a record are read without error,
    every genotype that is not unknown has the configured ploidy, the
    distribution has [n_ploidy + 1] entries, entry [p] is the number of
    known genotypes with [p] alleles [1], the entries sum to the number
    of known genotypes (not to the number of columns), and one [UNKNOWN]
    line is written per unknown genotype. *)
Theorem read_genotypes_counts n_ploidy position infos log dosages_d :
  read_genotypes n_ploidy position infos (replicate (S n_ploidy) 0)
  = (log, Ok dosages_d) ->
  Forall (λ gi, get_ploidy (read_genotype gi) = n_ploidy) (filter known infos) /\
  length dosages_d = S n_ploidy /\
  (forall p, (p <= n_ploidy)%nat ->
     dosages_d !! p = Some (of_count (get_dosage (known_dosages infos) p))) /\
  accumulate dosages_d 0 == of_count (length (filter known infos)) /\
  log = map (λ _, LogUnknown position) (filter unknown infos).
Proof.
  intros H.
  assert (H0 : replicate (S n_ploidy) 0 = map of_count (replicate (S n_ploidy) 0%nat))
    by (rewrite fmap_replicate; reflexivity).
  rewrite H0 in H.
  destruct (read_genotypes_histogram _ _ _ _ _ _ H) as (-> & -> & Hp).
  split; [exact Hp|]. split; [|split; [|split; [|reflexivity]]].
  - rewrite length_map, histogram_length. apply length_replicate.
  - intros p Hle. rewrite list_lookup_fmap, histogram_lookup
      by (rewrite length_replicate; lia).
    rewrite lookup_replicate_2 by lia. reflexivity.
  - rewrite accumulate_of_count, histogram_sum.
    + rewrite sum_list_replicate_0. unfold known_dosages. rewrite length_map.
      reflexivity.
    + rewrite length_replicate. unfold known_dosages. apply Forall_fmap.
      eapply Forall_impl; [exact Hp|]. intros gi Hgi. simpl.
      pose proof (get_dosage_le_length (read_genotype gi) "1"%char) as Hle.
      unfold get_ploidy in Hgi. lia.
Qed.

Lemma read_genotypes_counts_witness :
  read_genotypes 2 (0, 7)%nat ["0/1"; "./."; "1|1:35"; "0/1"]%string (replicate 3 0)
  = ([LogUnknown (0, 7)%nat], Ok [0; 0 + 1 + 1; 0 + 1]) /\
  accumulate [0; 0 + 1 + 1; 0 + 1] 0
  == of_count (length (filter known ["0/1"; "./."; "1|1:35"; "0/1"]%string)).
Proof.
  assert (H : read_genotypes 2 (0, 7)%nat ["0/1"; "./."; "1|1:35"; "0/1"]%string
                (replicate 3 0)
              = ([LogUnknown (0, 7)%nat], Ok [0; 0 + 1 + 1; 0 + 1])) by reflexivity.
  split; [exact H|].
  exact (proj1 (proj2 (proj2 (proj2 (read_genotypes_counts _ _ _ _ _ H))))).
Defined.

(** ** Markers that are kept and markers that are skipped *)

Lemma polyallelic_comma vcf_record :
  polyallelic vcf_record <-> ","%char ∈ list_ascii_of_string (alt vcf_record).
Proof.
  unfold polyallelic.
  pose proof (readUntil_spec (Ascii.eqb ",") (list_ascii_of_string (alt vcf_record)))
    as H.
  destruct (readUntil _ _) as [target rest]. destruct H as (-> & Hall & Hrest).
  simpl. split.
  - intros Hne. destruct rest as [|c rest]; [contradiction|].
    apply Ascii.eqb_eq in Hrest. subst c.
    apply elem_of_app. right. left.
  - intros Hin Hnil. subst rest. rewrite app_nil_r in Hin.
    pose proof (proj1 (Forall_forall _ _) Hall _ Hin) as E. discriminate E.
Qed.

Lemma bind_Ok_inv {A B} (m : M A) (f : A -> M B) log b :
  m ≫= f = (log, Ok b) ->
  exists log1 a log2, m = (log1, Ok a) /\ f a = (log2, Ok b) /\ log = log1 ++ log2.
Proof.
  destruct m as [log1 [a| | |]]; cbn [mbind M_bind]; try discriminate.
  destruct (f a) as [log2 r] eqn:E. intros H. inversion H; subst.
  exists log1, a, log2. auto.
Qed.

Lemma read_genotypes_no_polyallelic n_ploidy position infos : forall dosages_d,
  Forall (λ line, forall p, line <> LogPolyallelic p)
         (read_genotypes n_ploidy position infos dosages_d).1.
Proof.
  induction infos as [|gi infos IH]; intros dosages_d; cbn [read_genotypes];
    [constructor|].
  destruct (is_unknown (read_genotype gi)) as [[|]|]; [| |constructor].
  - apply bind_fst_Forall; [|intros; apply IH].
    repeat constructor. intros p. discriminate.
  - destruct (decide _); [constructor | apply IH].
Qed.

(** X4: a record is skipped exactly when its [ALT] column holds a comma:
    with a comma, and only then, the turn of the loop writes the
    [POLYALLELIC] line and nothing else and leaves positions, alleles and
    distributions as they were, whatever the genotypes are; without a
    comma no [POLYALLELIC] line is written, and a turn that ends normally
    appends one position, one pair of alleles and one distribution, and
    ends on the [INPUT DOSAGES] line of that distribution. *)
Theorem polyallelic_skipped n_ploidy data vcf_record :
  let position := (rID vcf_record, beginPos vcf_record) in
  let comma := ","%char ∈ list_ascii_of_string (alt vcf_record) in
  let turn := read_record n_ploidy data vcf_record in
  (comma <-> turn = ([LogPolyallelic position], Ok data)) /\
  (comma <-> exists p, LogPolyallelic p ∈ turn.1) /\
  (~ comma ->
   forall data', turn.2 = Ok data' ->
     positions (vd_variants data') = positions (vd_variants data) ++ [position] /\
     length (alleles (vd_variants data')) = S (length (alleles (vd_variants data))) /\
     length (vd_dosages_v data') = S (length (vd_dosages_v data)) /\
     exists dosages_d, last turn.1 = Some (LogInputDosages position dosages_d) /\
                       last (vd_dosages_v data') = Some dosages_d).
Proof.
  cbn zeta.
  assert (Hskip : polyallelic vcf_record ->
            read_record n_ploidy data vcf_record
            = ([LogPolyallelic (rID vcf_record, beginPos vcf_record)], Ok data)).
  { unfold polyallelic, read_record. intros Hp.
    destruct (readUntil _ _) as [alt_first alt_rest]. simpl in Hp.
    destruct (decide (alt_rest <> [])); [reflexivity | contradiction]. }
  assert (Hlog : ~ polyallelic vcf_record ->
            Forall (λ line, forall p, line <> LogPolyallelic p)
                   (read_record n_ploidy data vcf_record).1).
  { unfold polyallelic, read_record. intros Hp.
    destruct (readUntil _ _) as [alt_first alt_rest]. simpl in Hp.
    destruct (decide (alt_rest <> [])); [contradiction|].
    apply bind_fst_Forall; [apply read_genotypes_no_polyallelic|]. intros d.
    apply bind_fst_Forall; [|intros; constructor].
    repeat constructor. intros p. discriminate. }
  rewrite <- polyallelic_comma.
  assert (Hline : polyallelic vcf_record <->
            exists p, LogPolyallelic p ∈ (read_record n_ploidy data vcf_record).1).
  { split.
    - intros Hp. rewrite (Hskip Hp). eexists. left.
    - intros [p Hin]. destruct (decide (polyallelic vcf_record)) as [Hp|Hp];
        [exact Hp|]. exfalso.
      exact (proj1 (Forall_forall _ _) (Hlog Hp) _ Hin p eq_refl). }
  split; [|split; [exact Hline|]].
  - split; [exact Hskip|]. intros E. apply Hline. rewrite E. eexists. left.
  - intros Hp data' E.
    destruct (read_record n_ploidy data vcf_record) as [log r] eqn:Er.
    cbn [fst snd] in *. subst r.
    pose proof Er as Er'. unfold read_record in Er'. unfold polyallelic in Hp.
    destruct (readUntil _ _) as [alt_first alt_rest]. simpl in Hp.
    destruct (decide (alt_rest <> [])); [contradiction|].
    apply bind_Ok_inv in Er'. destruct Er' as (log1 & dosages_d & log2 & Hg & H & ->).
    rewrite bind_cerr in H. inversion H; subst. clear H.
    cbn [vd_variants vd_dosages_v positions alleles].
    split; [reflexivity|]. rewrite !length_app. cbn [length].
    split; [lia|]. split; [lia|].
    exists dosages_d. rewrite !last_snoc. split; reflexivity.
Qed.

Lemma polyallelic_skipped_witness :
  let skipped := {| rID := 0; beginPos := 20; ref := "G"; alt := "T,C";
                    genotypeInfos := ["0/1/1"; "0/0"]%string |} in
  let kept := {| rID := 0; beginPos := 30; ref := "G"; alt := "T";
                 genotypeInfos := ["0/1"; "./."]%string |} in
  let data := {| vd_variants := {| positions := [(0, 10)%nat];
                                   alleles := [("A", "C")]%string |};
                 vd_dosages_v := [[0; 1; 1]] |} in
  read_record 2 data skipped = ([LogPolyallelic (0, 20)%nat], Ok data) /\
  ~ (exists p, LogPolyallelic p ∈ (read_record 2 data kept).1).
Proof.
  cbn zeta.
  pose proof (polyallelic_skipped 2
    {| vd_variants := {| positions := [(0, 10)%nat]; alleles := [("A", "C")]%string |};
       vd_dosages_v := [[0; 1; 1]] |}
    {| rID := 0; beginPos := 20; ref := "G"; alt := "T,C";
       genotypeInfos := ["0/1/1"; "0/0"]%string |}) as (Hskip & _).
  pose proof (polyallelic_skipped 2
    {| vd_variants := {| positions := [(0, 10)%nat]; alleles := [("A", "C")]%string |};
       vd_dosages_v := [[0; 1; 1]] |}
    {| rID := 0; beginPos := 30; ref := "G"; alt := "T";
       genotypeInfos := ["0/1"; "./."]%string |}) as (_ & Hline & _).
  cbn zeta in Hskip, Hline. split.
  - apply Hskip. simpl. apply list_elem_of_In. right. left. reflexivity.
  - intros H. apply Hline in H. simpl in H.
    apply list_elem_of_In in H. destruct H as [H|[]]. discriminate H.
Defined.

(** What a turn of the loop stores for a record that is kept. *)
Lemma read_record_kept n_ploidy data vcf_record log data' :
  ~ polyallelic vcf_record ->
  read_record n_ploidy data vcf_record = (log, Ok data') ->
  exists dosages_d,
    (read_genotypes n_ploidy (rID vcf_record, beginPos vcf_record)
                    (genotypeInfos vcf_record) (replicate (S n_ploidy) 0)).2
    = Ok dosages_d /\
    data' = {| vd_variants :=
                 {| positions := positions (vd_variants data)
                                 ++ [(rID vcf_record, beginPos vcf_record)];
                    alleles := alleles (vd_variants data)
                               ++ [(ref vcf_record, alt vcf_record)] |};
               vd_dosages_v := vd_dosages_v data ++ [dosages_d] |}.
Proof.
  unfold polyallelic, read_record. intros Hp.
  pose proof (readUntil_spec (Ascii.eqb ",") (list_ascii_of_string (alt vcf_record)))
    as Hs.
  destruct (readUntil _ _) as [alt_first alt_rest]. simpl in Hp.
  destruct Hs as (Halt & _).
  destruct (decide (alt_rest <> [])) as [|Hnil]; [contradiction|].
  assert (alt_rest = []) by (destruct alt_rest; [reflexivity | exfalso; apply Hnil; discriminate]).
  subst alt_rest. rewrite app_nil_r in Halt.
  assert (Hfirst : string_of_list_ascii alt_first = alt vcf_record)
    by (rewrite <- Halt; apply string_of_list_ascii_of_string).
  rewrite Hfirst. intros H.
  apply bind_Ok_inv in H. destruct H as (log1 & dosages_d & log2 & Hg & H & _).
  exists dosages_d. rewrite Hg. split; [reflexivity|].
  rewrite bind_cerr in H. inversion H. reflexivity.
Qed.

Lemma biallelic_records_cons vcf_record rs :
  biallelic_records (vcf_record :: rs)
  = if decide (polyallelic vcf_record) then biallelic_records rs
    else vcf_record :: biallelic_records rs.
Proof.
  unfold biallelic_records. rewrite filter_cons.
  destruct (decide (~ polyallelic vcf_record)), (decide (polyallelic vcf_record));
    try reflexivity; contradiction.
Qed.

Lemma read_records_kept n_ploidy rs : forall data log data',
  read_records n_ploidy data rs = (log, Ok data') ->
  exists dosages_v,
    positions (vd_variants data')
    = positions (vd_variants data)
      ++ map (λ r, (rID r, beginPos r)) (biallelic_records rs) /\
    alleles (vd_variants data')
    = alleles (vd_variants data) ++ map (λ r, (ref r, alt r)) (biallelic_records rs) /\
    vd_dosages_v data' = vd_dosages_v data ++ dosages_v /\
    Forall2 (λ r dosages_d,
               (read_genotypes n_ploidy (rID r, beginPos r) (genotypeInfos r)
                               (replicate (S n_ploidy) 0)).2 = Ok dosages_d)
            (biallelic_records rs) dosages_v.
Proof.
  induction rs as [|r rs IH]; intros data log data' H; cbn [read_records] in H.
  - inversion H; subst. exists []. rewrite !app_nil_r. repeat split. constructor.
  - apply bind_Ok_inv in H. destruct H as (log1 & data1 & log2 & Hr & Hrs & _).
    destruct (IH _ _ _ Hrs) as (dosages_v & Hpos & Hall & Hdos & Hread).
    rewrite biallelic_records_cons. destruct (decide (polyallelic r)) as [Hp|Hp].
    + assert (data1 = data).
      { unfold polyallelic, read_record in *.
        destruct (readUntil _ _) as [alt_first alt_rest]. simpl in Hp.
        destruct (decide (alt_rest <> [])); [|contradiction].
        rewrite bind_cerr in Hr. inversion Hr. reflexivity. }
      subst data1. exists dosages_v. auto.
    + destruct (read_record_kept _ _ _ _ _ Hp Hr) as (dosages_d & Hg & ->).
      cbn [vd_variants vd_dosages_v positions alleles] in *.
      exists (dosages_d :: dosages_v).
      rewrite Hpos, Hall, Hdos, <- !app_assoc. repeat split.
      constructor; [exact Hg | exact Hread].
Qed.

(** X5: when the load succeeds, the contig names are those of the input,
    and the markers are the records without a comma in [ALT], in the
    order of the file: positions, alleles and distributions hold one
    entry per such record, marker [m] has the position of the [m]-th such
    record, and its distribution, of [n_ploidy + 1] entries, is what the
    genotype columns of that record alone give. *)
Theorem read_vcf_variants n_ploidy vcf_file_in log contig_names data :
  read_vcf n_ploidy vcf_file_in = (log, Ok (contig_names, data)) ->
  let kept := biallelic_records (records vcf_file_in) in
  contig_names = contigNames vcf_file_in /\
  positions (vd_variants data) = map (λ r, (rID r, beginPos r)) kept /\
  length (alleles (vd_variants data)) = length kept /\
  Forall2 (λ r dosages_d,
             (read_genotypes n_ploidy (rID r, beginPos r) (genotypeInfos r)
                             (replicate (S n_ploidy) 0)).2 = Ok dosages_d /\
             length dosages_d = S n_ploidy)
          kept (vd_dosages_v data).
Proof.
  intros H. cbn zeta. unfold read_vcf in H.
  apply bind_Ok_inv in H. destruct H as (log1 & data1 & log2 & Hrs & Hret & _).
  inversion Hret; subst. clear Hret.
  destruct (read_records_kept _ _ _ _ _ Hrs) as (dosages_v & Hpos & Hall & Hdos & Hread).
  cbn [vd_variants vd_dosages_v positions alleles app] in *.
  split; [reflexivity|]. split; [exact Hpos|].
  split; [rewrite Hall; apply length_map|].
  rewrite Hdos. eapply Forall2_impl; [exact Hread|].
  intros r dosages_d Hd. cbn beta in Hd. split; [exact Hd|].
  destruct (read_genotypes n_ploidy (rID r, beginPos r) (genotypeInfos r)
              (replicate (S n_ploidy) 0)) as [l o] eqn:E.
  simpl in Hd. subst o. exact (read_genotypes_length _ _ _ _ _ E).
Qed.

Lemma read_vcf_variants_witness :
  exists log data,
    read_vcf 2 polyallelic_file = (log, Ok (["chr1"%string], data)) /\
    positions (vd_variants data) = [(0, 10)%nat] /\
    length (alleles (vd_variants data)) = 1%nat /\
    length (vd_dosages_v data) = 1%nat.
Proof.
  destruct (read_vcf 2 polyallelic_file) as [log [[names data]| | |]] eqn:E;
    try (vm_compute in E; discriminate E).
  assert (names = ["chr1"%string]) by (vm_compute in E; congruence). subst names.
  exists log, data. split; [reflexivity|].
  destruct (read_vcf_variants 2 polyallelic_file log _ data E) as (_ & Hpos & Hall & Hd).
  split; [exact Hpos|]. split; [exact Hall|].
  apply Forall2_length in Hd. rewrite <- Hd. reflexivity.
Defined.

(** ** Distances and histograms *)

Lemma inner_product_init a : forall b init,
  inner_product a b init == init + inner_product a b 0.
Proof.
  induction a as [|x a IH]; intros [|y b] init; cbn [inner_product]; try lra.
  rewrite (IH b (init + _)), (IH b (0 + _)). lra.
Qed.

Lemma inner_product_nonneg a : forall b, 0 <= inner_product a b 0.
Proof.
  induction a as [|x a IH]; intros [|y b]; cbn [inner_product]; try lra.
  rewrite inner_product_init. pose proof (IH b). pose proof (Qabs_nonneg (x - of_count y)).
  lra.
Qed.

Lemma Qabs_zero_iff x : Qabs x == 0 <-> x == 0.
Proof.
  split; intros H.
  - pose proof (Qle_Qabs x). pose proof (Qle_Qabs (- x)). rewrite Qabs_opp in *. lra.
  - rewrite H. reflexivity.
Qed.

(** X6: the L1 distance is never negative, and between a target and
    counts of the same number of entries it is zero exactly when every
    entry of the target is the count at that place. *)
Theorem l1_norm_separates (a : list Q) (b : list nat) :
  length a = length b ->
  0 <= l1_norm a b /\
  (l1_norm a b == 0 <-> Forall2 (λ a_i b_i, a_i == of_count b_i) a b).
Proof.
  unfold l1_norm. intros Hlen. split; [apply inner_product_nonneg|].
  revert b Hlen. induction a as [|x a IH]; intros [|y b] Hlen; simpl in Hlen;
    try discriminate.
  - split; [constructor | reflexivity].
  - cbn [inner_product]. rewrite inner_product_init.
    pose proof (inner_product_nonneg a b) as Hn.
    pose proof (Qabs_nonneg (x - of_count y)) as Hx.
    specialize (IH b ltac:(lia)).
    set (A := Qabs (x - of_count y)) in *. set (B := inner_product a b 0) in *.
    assert (Hsum : 0 + A + B == 0 <-> A == 0 /\ B == 0)
      by (clearbody A B; split; [intros H; split; lra | intros [H1 H2]; lra]).
    rewrite Hsum. subst A. rewrite Qabs_zero_iff, IH. split.
    + intros [Hxy Hrest]. constructor; [lra | exact Hrest].
    + intros H. inversion H as [|? ? ? ? Hxy Hrest]; subst. split; [lra | exact Hrest].
Qed.

Lemma l1_norm_separates_witness :
  0 <= l1_norm [1 # 2; 0; 3 # 2] [1; 0; 1]%nat /\
  (l1_norm [1; 0; 1] [1; 0; 1]%nat == 0
   <-> Forall2 (λ a_i b_i, a_i == of_count b_i) [1; 0; 1] [1; 0; 1]%nat).
Proof.
  split.
  - apply (l1_norm_separates [1 # 2; 0; 3 # 2] [1; 0; 1]%nat). reflexivity.
  - apply (l1_norm_separates [1; 0; 1] [1; 0; 1]%nat). reflexivity.
Defined.

Lemma get_dosage_fmap {A B} `{EqDecision B} (f : A -> B) (l : list A) (y : B) :
  get_dosage (map f l) y = length (filter (λ x, f x = y) l).
Proof.
  unfold get_dosage. induction l as [|x l IH]; [reflexivity|].
  simpl map. rewrite !filter_cons. destruct (decide (f x = y)); simpl; rewrite IH;
    reflexivity.
Qed.

(** X7: for genotypes of [n_ploidy] alleles, the distribution has
    [n_ploidy + 1] entries, entry [p] is the number of genotypes with [p]
    alleles [1], the entries sum to the number of genotypes, and the
    order of the genotypes does not matter. *)
Theorem make_dosages_distribution_counts n_ploidy (genotypes : list (list nat)) :
  Forall (λ genotype, length genotype = n_ploidy) genotypes ->
  length (make_dosages_distribution n_ploidy genotypes) = S n_ploidy /\
  (forall p, (p <= n_ploidy)%nat ->
     make_dosages_distribution n_ploidy genotypes !! p
     = Some (length (filter (λ genotype, get_dosage genotype 1%nat = p) genotypes))) /\
  sum_list (make_dosages_distribution n_ploidy genotypes) = length genotypes /\
  (forall genotypes', genotypes' ≡ₚ genotypes ->
     make_dosages_distribution n_ploidy genotypes'
     = make_dosages_distribution n_ploidy genotypes).
Proof.
  intros Hlen.
  assert (Hl : forall gs, length (make_dosages_distribution n_ploidy gs) = S n_ploidy).
  { intros gs. rewrite make_dosages_distribution_histogram, histogram_length.
    apply length_replicate. }
  assert (Hp : forall gs p, (p <= n_ploidy)%nat ->
            make_dosages_distribution n_ploidy gs !! p
            = Some (length (filter (λ genotype, get_dosage genotype 1%nat = p) gs))).
  { intros gs p Hle. rewrite make_dosages_distribution_histogram.
    rewrite histogram_lookup by (rewrite length_replicate; lia).
    rewrite lookup_replicate_2 by lia. rewrite get_dosage_fmap. reflexivity. }
  split; [apply Hl|]. split; [apply Hp|]. split.
  - rewrite make_dosages_distribution_histogram, histogram_sum.
    + rewrite sum_list_replicate_0, length_map. reflexivity.
    + rewrite length_replicate. apply Forall_fmap.
      eapply Forall_impl; [exact Hlen|]. intros g Hg. cbn beta in *.
      pose proof (get_dosage_le_length g 1%nat). unfold compose. lia.
  - intros genotypes' Hperm. apply list_eq. intros p.
    destruct (decide (p <= n_ploidy)%nat) as [Hle|Hgt].
    + rewrite !Hp by exact Hle. rewrite Hperm. reflexivity.
    + rewrite !(proj2 (lookup_ge_None _ _)) by (rewrite Hl; lia). reflexivity.
Qed.

Lemma make_dosages_distribution_counts_witness :
  make_dosages_distribution 2 [[0; 1]; [1; 1]; [1; 0]]%nat !! 1%nat = Some 2%nat /\
  sum_list (make_dosages_distribution 2 [[0; 1]; [1; 1]; [1; 0]]%nat) = 3%nat /\
  make_dosages_distribution 2 [[1; 1]; [1; 0]; [0; 1]]%nat
  = make_dosages_distribution 2 [[0; 1]; [1; 1]; [1; 0]]%nat.
Proof.
  destruct (make_dosages_distribution_counts 2 [[0; 1]; [1; 1]; [1; 0]]%nat)
    as (_ & Hp & Hs & Hperm).
  - repeat constructor.
  - split; [exact (Hp 1%nat ltac:(lia))|]. split; [exact Hs|].
    apply Hperm. symmetry.
    apply (Permutation_cons_append [[1; 1]; [1; 0]]%nat [0; 1]%nat).
Defined.

(** ** Normalization depends on proportions only *)

Lemma accumulate_Qmult (c : Q) l : accumulate (map (Qmult c) l) 0 == c * accumulate l 0.
Proof.
  induction l as [|x l IH]; [unfold accumulate; simpl; ring|].
  change (map (Qmult c) (x :: l)) with (c * x :: map (Qmult c) l).
  rewrite !accumulate_cons, IH. ring.
Qed.

Lemma Forall2_Qeq_fmap {A} (f g : A -> Q) (l : list A) :
  (forall x, f x == g x) -> Forall2 Qeq (map f l) (map g l).
Proof. intros H. induction l as [|x l IH]; constructor; [apply H | exact IH]. Qed.

(** X8: the normalized distribution depends only on the proportions of
    the entries and on the number of samples asked for: multiplying every
    entry by the same non-zero factor, or normalizing to another non-zero
    number of samples first, gives the same result.  (The entries must
    not sum to zero: the code then divides by zero.) *)
Theorem normalize_dosages_distribution_proportions (dosages_d : list Q)
    (n_samples : nat) :
  ~ accumulate dosages_d 0 == 0 ->
  (forall c, ~ c == 0 ->
     Forall2 Qeq (normalize_dosages_distribution (map (Qmult c) dosages_d) n_samples)
                 (normalize_dosages_distribution dosages_d n_samples)) /\
  (forall n_other, (0 < n_other)%nat ->
     Forall2 Qeq (normalize_dosages_distribution
                    (normalize_dosages_distribution dosages_d n_other) n_samples)
                 (normalize_dosages_distribution dosages_d n_samples)).
Proof.
  intros Hs. split.
  - intros c Hc. unfold normalize_dosages_distribution.
    rewrite <- list_fmap_compose. apply Forall2_Qeq_fmap. intros x.
    unfold compose. rewrite accumulate_Qmult. field. split; assumption.
  - intros n_other Hn. unfold normalize_dosages_distribution.
    assert (Ho : ~ of_count n_other == 0).
    { unfold of_count. intros H. apply (proj1 (inject_Z_injective _ 0%Z)) in H. lia. }
    rewrite <- list_fmap_compose. apply Forall2_Qeq_fmap. intros x.
    unfold compose. rewrite accumulate_scale. field. split; assumption.
Qed.

Lemma normalize_dosages_distribution_proportions_witness :
  Forall2 Qeq (normalize_dosages_distribution (map (Qmult 3) [1; 2; 1]) 8)
              (normalize_dosages_distribution [1; 2; 1] 8) /\
  Forall2 Qeq (normalize_dosages_distribution
                 (normalize_dosages_distribution [1; 2; 1] 5) 8)
              (normalize_dosages_distribution [1; 2; 1] 8).
Proof.
  destruct (normalize_dosages_distribution_proportions [1; 2; 1] 8) as [Hc Hn].
  - vm_compute. discriminate.
  - split; [apply Hc; vm_compute; discriminate | apply Hn; lia].
Defined.

(** ** The greedy fitter: the distance it returns and where it stops *)

Lemma ones_full (alts : founders_alts) :
  ones alts = length alts ->
  forall j, (j < length alts)%nat -> view_get alts j = 1%nat.
Proof.
  unfold ones, get_dosage, view_get.
  induction alts as [|a l IH]; intros H j Hj; [simpl in Hj; lia|].
  rewrite filter_cons in H. pose proof (length_filter (λ a, a = 1%nat) l) as Hle.
  destruct (decide (a = 1%nat)) as [->|Hne]; simpl in H; [|lia].
  destruct j as [|j]; [reflexivity|]. simpl. apply IH; [lia | simpl in Hj; lia].
Qed.

Section descent_invariant.
Variable n_ploidy : nat.
Variable haplotypes_m : haplotypes_map.
Variable dosages_d_in : list Q.
Hypothesis Hrange : target_in_range haplotypes_m dosages_d_in.

Local Abbreviation induced := (induced_distance n_ploidy haplotypes_m dosages_d_in).
Local Abbreviation iteration := (descent_iteration n_ploidy haplotypes_m dosages_d_in).
Local Abbreviation loop := (descent_loop n_ploidy haplotypes_m dosages_d_in).
Local Abbreviation probed_at := (probed n_ploidy haplotypes_m dosages_d_in).

(** With a founder still at 0, the committed flip is that of a founder
    at 0 and the new distance is the one the new vector induces. *)
Lemma descent_iteration_commit_zero st st' :
  binary (ds_alts st) -> (ones (ds_alts st) < length (ds_alts st))%nat ->
  iteration st = Some st' ->
  exists i, (i < length (ds_alts st))%nat /\ view_get (ds_alts st) i <> 1%nat /\
    ds_alts st' = <[i := 1%nat]> (ds_alts st) /\
    ds_distance st' = induced (<[i := 1%nat]> (ds_alts st)).
Proof.
  intros Hb Hlt E.
  destruct (descent_iteration_commit _ _ _ _ _ Hb E) as (i & Hi & Ha & Hp & _ & Hmin & _).
  exists i. split; [exact Hi|].
  destruct (exists_founder_at_0 _ Hlt) as (j & Hj & Hne).
  specialize (Hmin j Hj). rewrite Hp in Hmin. unfold probed in Hmin, Hp.
  destruct (decide (view_get (ds_alts st) j = 1%nat)); [contradiction|].
  destruct (decide (view_get (ds_alts st) i = 1%nat)) as [Hone|Hzero].
  - pose proof (induced_distance_in_range n_ploidy _ _ (<[j := 1%nat]> (ds_alts st))
                  Hrange). lra.
  - auto.
Qed.

(** When the loop breaks, every probed distance is strictly larger than
    the current one. *)
Lemma descent_iteration_stop st :
  binary (ds_alts st) -> iteration st = None ->
  forall j, (j < length (ds_alts st))%nat -> ds_distance st < probed_at (ds_alts st) j.
Proof.
  intros Hb. rewrite (descent_iteration_binary _ _ _ _ Hb).
  destruct (min_element _) as [[i m]|] eqn:Hmin.
  - destruct (Qltb (ds_distance st) m) eqn:Hlt; [|discriminate].
    intros _ j Hj. apply Qltb_lt in Hlt.
    destruct (min_element_spec _ _ _ Hmin) as (_ & Hall & _).
    pose proof (proj1 (Forall_lookup _ _) Hall j (probed_at (ds_alts st) j)) as Hle.
    rewrite list_lookup_fmap, lookup_seq_lt in Hle by exact Hj.
    specialize (Hle eq_refl). lra.
  - intros _ j Hj. destruct (ds_alts st) as [|a l]; [simpl in Hj; lia|].
    discriminate Hmin.
Qed.

(** The loop, from a 0/1 state whose distance is the induced one and
    with one round per founder still at 0. *)
Lemma descent_loop_invariant fuel : forall st,
  binary (ds_alts st) -> ds_distance st = induced (ds_alts st) ->
  (ones (ds_alts st) + fuel = length (ds_alts st))%nat ->
  let st' := loop fuel st in
  binary (ds_alts st') /\ length (ds_alts st') = length (ds_alts st) /\
  ds_distance st' = induced (ds_alts st') /\
  forall j, (j < length (ds_alts st'))%nat -> view_get (ds_alts st') j <> 1%nat ->
    ds_distance st' < induced (<[j := 1%nat]> (ds_alts st')).
Proof.
  induction fuel as [|fuel IH]; intros st Hb Hd Hones; cbn [descent_loop].
  - cbn zeta. repeat split; auto. intros j Hj Hne.
    exfalso. apply Hne. apply ones_full; [lia | exact Hj].
  - destruct (iteration st) as [st1|] eqn:E.
    + destruct (descent_iteration_commit_zero st st1 Hb ltac:(lia) E)
        as (i & Hi & Hzero & Ha & Hdist).
      assert (Hb1 : binary (ds_alts st1)) by (rewrite Ha; apply binary_insert_1; exact Hb).
      assert (Hl1 : length (ds_alts st1) = length (ds_alts st))
        by (rewrite Ha; apply length_insert).
      assert (Ho1 : ones (ds_alts st1) = S (ones (ds_alts st)))
        by (rewrite Ha; apply ones_insert_1; assumption).
      destruct (IH st1 Hb1) as (Hb' & Hl' & Hd' & Hmin').
      * rewrite Hdist, Ha. reflexivity.
      * lia.
      * cbn zeta. repeat split; auto. congruence.
    + cbn zeta. repeat split; auto. intros j Hj Hne.
      pose proof (descent_iteration_stop st Hb E j Hj) as Hs. unfold probed in Hs.
      destruct (decide (view_get (ds_alts st) j = 1%nat)); [contradiction | exact Hs].
Qed.

Lemma descent_fit_invariant (alts_in : founders_alts) :
  let '(alts, distance) := descent_fit n_ploidy haplotypes_m dosages_d_in alts_in in
  binary alts /\ length alts = length alts_in /\ distance = induced alts /\
  forall j, (j < length alts)%nat -> view_get alts j <> 1%nat ->
    distance < induced (<[j := 1%nat]> alts).
Proof.
  unfold descent_fit.
  destruct (descent_loop_invariant (length alts_in)
              (descent_init n_ploidy haplotypes_m dosages_d_in alts_in))
    as (Hb & Hl & Hd & Hmin).
  - apply binary_zeros.
  - reflexivity.
  - cbn [descent_init ds_alts]. rewrite ones_zeros, length_map. reflexivity.
  - cbn [descent_init ds_alts] in Hl. rewrite length_map in Hl. auto.
Qed.
End descent_invariant.

(** X9: for a target in range (every normalized target is), the greedy
    fitter returns a 0/1 vector of the length it was given, the distance
    it returns is the L1 distance between the target and the distribution
    of the genotypes seen through the view under that vector, and its
    [DISTANCE] line shows this distance, the target and that distribution. *)
Theorem descent_fitting_fit_distance n_ploidy haplotypes_m (alts : founders_alts)
    dosages_d_in :
  target_in_range haplotypes_m dosages_d_in ->
  exists alts',
    let dosages_d_out :=
      make_dosages_distribution n_ploidy
        (view_genotypes (fill_samples_alts haplotypes_m) alts') in
    descent_fitting_fit n_ploidy haplotypes_m alts dosages_d_in
    = ([LogDistance (l1_norm dosages_d_in dosages_d_out) dosages_d_in dosages_d_out],
       Ok (alts', l1_norm dosages_d_in dosages_d_out)) /\
    binary alts' /\ length alts' = length alts.
Proof.
  intros Hr. unfold descent_fitting_fit.
  pose proof (descent_fit_invariant n_ploidy haplotypes_m dosages_d_in Hr alts) as H.
  destruct (descent_fit n_ploidy haplotypes_m dosages_d_in alts) as [alts' distance].
  destruct H as (Hb & Hl & Hd & _). exists alts'. cbn zeta.
  split; [|split; assumption]. rewrite Hd. reflexivity.
Qed.

Lemma descent_fitting_fit_distance_witness :
  target_in_range [[0; 1]; [1; 2]]%nat [0; 1; 1] /\
  exists alts',
    descent_fitting_fit 2 [[0; 1]; [1; 2]]%nat [7; 7; 7]%nat [0; 1; 1]
    = ([LogDistance
          (l1_norm [0; 1; 1]
             (make_dosages_distribution 2
                (view_genotypes (fill_samples_alts [[0; 1]; [1; 2]]%nat) alts')))
          [0; 1; 1]
          (make_dosages_distribution 2
             (view_genotypes (fill_samples_alts [[0; 1]; [1; 2]]%nat) alts'))],
       Ok (alts',
           l1_norm [0; 1; 1]
             (make_dosages_distribution 2
                (view_genotypes (fill_samples_alts [[0; 1]; [1; 2]]%nat) alts')))) /\
    binary alts' /\ length alts' = 3%nat.
Proof.
  assert (Hr : target_in_range [[0; 1]; [1; 2]]%nat [0; 1; 1])
    by (vm_compute; reflexivity).
  split; [exact Hr|].
  exact (descent_fitting_fit_distance 2 [[0; 1]; [1; 2]]%nat [7; 7; 7]%nat [0; 1; 1] Hr).
Defined.

(** X10: for a target in range, the greedy fitter stops at a vector that
    no single further flip improves or even equals: setting any founder
    that is still at 0 to 1 gives a strictly larger distance. *)
Theorem descent_fit_local_minimum n_ploidy haplotypes_m dosages_d_in
    (alts_in : founders_alts) :
  target_in_range haplotypes_m dosages_d_in ->
  let '(alts, distance) := descent_fit n_ploidy haplotypes_m dosages_d_in alts_in in
  forall j, (j < length alts)%nat -> view_get alts j = 0%nat ->
    distance < induced_distance n_ploidy haplotypes_m dosages_d_in (<[j := 1%nat]> alts).
Proof.
  intros Hr.
  pose proof (descent_fit_invariant n_ploidy haplotypes_m dosages_d_in Hr alts_in) as H.
  destruct (descent_fit n_ploidy haplotypes_m dosages_d_in alts_in) as [alts distance].
  destruct H as (_ & _ & _ & Hmin). intros j Hj Hzero. apply Hmin; [exact Hj|].
  rewrite Hzero. discriminate.
Qed.

Lemma descent_fit_local_minimum_witness :
  let fitted := descent_fit 2 [[0; 1]; [1; 2]]%nat [1; 1; 0] [0; 0; 0]%nat in
  target_in_range [[0; 1]; [1; 2]]%nat [1; 1; 0] /\
  view_get fitted.1 1 = 0%nat /\
  fitted.2 < induced_distance 2 [[0; 1]; [1; 2]]%nat [1; 1; 0]
                              (<[1%nat := 1%nat]> fitted.1).
Proof.
  cbn zeta.
  assert (Hr : target_in_range [[0; 1]; [1; 2]]%nat [1; 1; 0])
    by (vm_compute; reflexivity).
  split; [exact Hr|].
  pose proof (descent_fit_local_minimum 2 [[0; 1]; [1; 2]]%nat [1; 1; 0] [0; 0; 0]%nat Hr)
    as H.
  destruct (descent_fit 2 [[0; 1]; [1; 2]]%nat [1; 1; 0] [0; 0; 0]%nat)
    as [alts distance] eqn:E.
  assert (Ha : alts = [1; 0; 0]%nat) by (vm_compute in E; congruence).
  cbn [fst snd]. subst alts. split; [reflexivity|].
  apply H; [simpl; lia | reflexivity].
Defined.

(** ** The exact fitter reaches the minimum over all 0/1 vectors *)

Lemma binary_vectors_elem (alts : founders_alts) :
  binary alts -> alts ∈ binary_vectors (length alts).
Proof.
  induction 1 as [|a l Ha Hl IH]; [left|]. cbn [length binary_vectors].
  apply elem_of_app. destruct Ha as [-> | ->]; [left | right];
    apply list_elem_of_fmap; exists l; auto.
Qed.

Lemma exists_min {A} (f : A -> Q) (l : list A) :
  l <> [] -> exists x, x ∈ l /\ forall y, y ∈ l -> f x <= f y.
Proof.
  induction l as [|a l IH]; [contradiction|]. intros _.
  destruct l as [|b l].
  - exists a. split; [left|]. intros y Hy. apply list_elem_of_singleton in Hy.
    subst y. lra.
  - destruct IH as (x & Hx & Hmin); [discriminate|].
    destruct (Qlt_le_dec (f a) (f x)) as [Hlt|Hle].
    + exists a. split; [left|]. intros y Hy. apply elem_of_cons in Hy.
      destruct Hy as [->|Hy]; [lra|]. specialize (Hmin y Hy). lra.
    + exists x. split; [right; exact Hx|]. intros y Hy. apply elem_of_cons in Hy.
      destruct Hy as [->|Hy]; [exact Hle | apply Hmin; exact Hy].
Qed.

Lemma sum_upto_Q_ext (f g : nat -> Q) n :
  (forall k, (k < n)%nat -> f k == g k) -> sum_upto_Q f n == sum_upto_Q g n.
Proof.
  induction n as [|n IH]; intros H; [reflexivity|]. simpl.
  rewrite IH by (intros; apply H; lia). rewrite (H n) by lia. reflexivity.
Qed.

Lemma sum_upto_Q_le (f g : nat -> Q) n :
  (forall k, (k < n)%nat -> f k <= g k) -> sum_upto_Q f n <= sum_upto_Q g n.
Proof.
  induction n as [|n IH]; intros H; simpl; [lra|].
  pose proof (H n ltac:(lia)). pose proof (IH ltac:(intros; apply H; lia)). lra.
Qed.

Lemma sum_upto_Q_shift (f : nat -> Q) n :
  sum_upto_Q f (S n) == f 0%nat + sum_upto_Q (λ k, f (S k)) n.
Proof.
  induction n as [|n IH]; [simpl; lra|].
  change (sum_upto_Q f (S (S n))) with (sum_upto_Q f (S n) + f (S n)).
  rewrite IH. simpl. lra.
Qed.

(** The L1 distance as a sum over the positions. *)
Lemma l1_norm_sum_upto (a : list Q) : forall b : list nat,
  length a = length b ->
  l1_norm a b
  == sum_upto_Q (λ p, Qabs (default 0 (a !! p) - of_count (default 0%nat (b !! p))))
                (length a).
Proof.
  unfold l1_norm. induction a as [|x a IH]; intros [|y b] Hlen; simpl in Hlen;
    try discriminate; [reflexivity|].
  cbn [inner_product length]. rewrite inner_product_init, sum_upto_Q_shift.
  rewrite (IH b) by lia. cbn [lookup list_lookup default from_option]. unfold id.
  set (A := Qabs (x - of_count y)). set (B := sum_upto_Q _ _). clearbody A B. lra.
Qed.

Lemma of_count_inject_Z n : of_count n = inject_Z (Z.of_nat n).
Proof. reflexivity. Qed.

(** The objective at the point of a founders vector is the distance
    that the vector induces. *)
Lemma point_of_objective n_ploidy haplotypes_m alts dosages_d_in :
  length dosages_d_in = S n_ploidy ->
  mip_objective n_ploidy (point_of haplotypes_m alts dosages_d_in)
  == induced_distance n_ploidy haplotypes_m dosages_d_in alts.
Proof.
  intros Hlen. unfold induced_distance, samples_alts_view.
  rewrite l1_norm_sum_upto.
  - rewrite Hlen. unfold mip_objective. apply sum_upto_Q_ext. intros p Hp.
    cbn [point_of sol_z]. cbn beta. set (t := default 0 (dosages_d_in !! p)).
    rewrite make_dosages_distribution_histogram.
    fold (sample_dosages haplotypes_m alts).
    rewrite histogram_lookup by (rewrite length_replicate; exact Hp).
    rewrite lookup_replicate_2 by exact Hp.
    cbn [default from_option]. unfold id. rewrite Nat.add_0_l.
    rewrite <- of_count_inject_Z. rewrite <- (Qabs_opp (t - _)).
    apply Qabs_wd. ring.
  - rewrite make_dosages_distribution_histogram, histogram_length, length_replicate.
    exact Hlen.
Qed.

(** No feasible point has an objective below the distance that its
    founders vector induces. *)
Lemma feasible_objective_bound n_ploidy haplotypes_m n_founders dosages_d_in sol :
  map_in_range n_ploidy haplotypes_m n_founders ->
  length dosages_d_in = S n_ploidy ->
  mip_feasible n_ploidy haplotypes_m n_founders dosages_d_in sol ->
  induced_distance n_ploidy haplotypes_m dosages_d_in (alts_of n_founders sol)
  <= mip_objective n_ploidy sol.
Proof.
  intros Hmap Hlen Hfeas.
  rewrite <- (point_of_objective _ _ _ _ Hlen). unfold mip_objective.
  apply sum_upto_Q_le. intros p Hp. cbn [point_of sol_z].
  rewrite <- (dosages_column n_ploidy haplotypes_m n_founders dosages_d_in sol
                Hmap Hfeas p Hp).
  destruct Hfeas as (_ & _ & Hrows). destruct (Hrows p Hp) as [H1 H2].
  apply Qabs_case; intros; lra.
Qed.

Lemma alts_of_length n_founders sol : length (alts_of n_founders sol) = n_founders.
Proof. unfold alts_of. rewrite length_map, length_seq. reflexivity. Qed.

(** The program has an optimal point: the point of a 0/1 vector of
    least induced distance. *)
Lemma mip_optimum_exists n_ploidy haplotypes_m n_founders dosages_d_in :
  map_in_range n_ploidy haplotypes_m n_founders ->
  length dosages_d_in = S n_ploidy ->
  exists alts0, binary alts0 /\ length alts0 = n_founders /\
    mip_optimal n_ploidy haplotypes_m n_founders dosages_d_in
                (point_of haplotypes_m alts0 dosages_d_in).
Proof.
  intros Hmap Hlen.
  destruct (exists_min (induced_distance n_ploidy haplotypes_m dosages_d_in)
              (filter (λ alts, length alts = n_founders /\ binary alts)
                      (binary_vectors n_founders)))
    as (alts0 & Hin & Hmin).
  - intros Hnil.
    assert (Hz : replicate n_founders 0%nat
                 ∈ filter (λ alts, length alts = n_founders /\ binary alts)
                          (binary_vectors n_founders)).
    { apply list_elem_of_filter. split.
      - split; [apply length_replicate | apply Forall_replicate; auto].
      - rewrite <- (length_replicate n_founders 0%nat) at 2.
        apply binary_vectors_elem. apply Forall_replicate. auto. }
    rewrite Hnil in Hz. inversion Hz.
  - apply list_elem_of_filter in Hin. destruct Hin as [[Hl0 Hb0] _].
    exists alts0. split; [exact Hb0|]. split; [exact Hl0|]. split.
    + rewrite <- Hl0. apply point_of_feasible; [rewrite Hl0; exact Hmap | exact Hb0].
    + intros sol' Hfeas'. rewrite (point_of_objective _ _ _ _ Hlen).
      eapply Qle_trans; [|apply (feasible_objective_bound _ _ _ _ _ Hmap Hlen Hfeas')].
      apply Hmin. apply list_elem_of_filter.
      assert (Hb' : binary (alts_of n_founders sol')).
      { apply alts_of_binary. intros a Ha.
        destruct Hfeas' as ((_ & _ & _ & _ & Hf) & _). apply Hf. exact Ha. }
      split; [split; [apply alts_of_length | exact Hb']|].
      rewrite <- (alts_of_length n_founders sol') at 2.
      apply binary_vectors_elem. exact Hb'.
Qed.

(** With an exact solver the fitter passes both assertions and returns
    the founders vector and the objective of an optimal point. *)
Lemma mip_fit_succeeds n_ploidy haplotypes_m n_founders solve (alts : founders_alts)
    dosages_d_in :
  map_in_range n_ploidy haplotypes_m n_founders ->
  length dosages_d_in = S n_ploidy -> length alts = n_founders ->
  solver_exact n_ploidy haplotypes_m n_founders solve dosages_d_in ->
  exists sol dosages_d_out,
    mip_optimal n_ploidy haplotypes_m n_founders dosages_d_in sol /\
    mip_fit n_ploidy haplotypes_m n_founders solve alts dosages_d_in
    = ([LogDistance (mip_objective n_ploidy sol) dosages_d_in dosages_d_out],
       Ok (alts_of n_founders sol, mip_objective n_ploidy sol)).
Proof.
  intros Hmap Hlen Halts [Hsound Hcomplete].
  destruct (mip_optimum_exists _ _ _ _ Hmap Hlen) as (alts0 & _ & _ & Hopt0).
  destruct Hcomplete as [sol Hsol]; [eexists; exact Hopt0|].
  pose proof (Hsound sol Hsol) as Hopt. destruct Hopt as [Hfeas Hleast].
  exists sol, (map (λ dosage, Z.to_nat (sol_dosages sol dosage)) (seq 0 (S n_ploidy))).
  split; [split; assumption|].
  unfold mip_fit. rewrite Hsol.
  pose proof (induced_distribution_column n_ploidy haplotypes_m n_founders
                dosages_d_in sol Hmap Hfeas) as Hind.
  rewrite <- Hind.
  rewrite (induced_distribution_sum _ _ _ _ Hmap), Nat.eqb_refl, SEQAN_ASSERT_true.
  destruct (decide (length alts < n_founders)%nat) as [Hlt|_]; [lia|].
  rewrite drop_ge by lia. rewrite app_nil_r. reflexivity.
Qed.

(** X11: with an exact solver, on a map of [n_ploidy] founders per sample,
    the exact fitter passes its assertions and returns a 0/1 vector; the
    distance it returns is the L1 distance between the target and the
    distribution that this vector induces, and no 0/1 vector of
    [n_founders] entries induces a smaller one. *)
Theorem mip_fit_optimal n_ploidy haplotypes_m n_founders solve (alts : founders_alts)
    dosages_d_in :
  map_in_range n_ploidy haplotypes_m n_founders ->
  length dosages_d_in = S n_ploidy -> length alts = n_founders ->
  solver_exact n_ploidy haplotypes_m n_founders solve dosages_d_in ->
  exists log alts' distance,
    mip_fit n_ploidy haplotypes_m n_founders solve alts dosages_d_in
    = (log, Ok (alts', distance)) /\
    binary alts' /\ length alts' = n_founders /\
    distance == induced_distance n_ploidy haplotypes_m dosages_d_in alts' /\
    forall alts'' : founders_alts, binary alts'' -> length alts'' = n_founders ->
      distance <= induced_distance n_ploidy haplotypes_m dosages_d_in alts''.
Proof.
  intros Hmap Hlen Halts Hsolve.
  destruct (mip_fit_succeeds _ _ _ _ _ _ Hmap Hlen Halts Hsolve)
    as (sol & dosages_d_out & [Hfeas Hleast] & E).
  assert (Hb : binary (alts_of n_founders sol)).
  { apply alts_of_binary. intros a Ha.
    destruct Hfeas as ((_ & _ & _ & _ & Hf) & _). apply Hf. exact Ha. }
  assert (Hmin : forall alts'' : founders_alts,
            binary alts'' -> length alts'' = n_founders ->
            mip_objective n_ploidy sol
            <= induced_distance n_ploidy haplotypes_m dosages_d_in alts'').
  { intros alts'' Hb'' Hl''. rewrite <- (point_of_objective _ _ _ _ Hlen).
    apply Hleast. rewrite <- Hl''.
    apply point_of_feasible; [rewrite Hl''; exact Hmap | exact Hb'']. }
  eexists _, _, _. split; [exact E|]. split; [exact Hb|].
  split; [apply alts_of_length|]. split; [|exact Hmin].
  apply Qle_antisym.
  - apply Hmin; [exact Hb | apply alts_of_length].
  - apply feasible_objective_bound; assumption.
Qed.

Lemma mip_fit_optimal_witness :
  let solve := λ dosages_d_in, Some (point_of [[0; 1]]%nat [0; 0]%nat dosages_d_in) in
  solver_exact 2 [[0; 1]]%nat 2 solve [1 # 2; 0; 1 # 2] /\
  exists log alts' distance,
    mip_fit 2 [[0; 1]]%nat 2 solve [7; 7]%nat [1 # 2; 0; 1 # 2]
    = (log, Ok (alts', distance)) /\
    distance == induced_distance 2 [[0; 1]]%nat [1 # 2; 0; 1 # 2] alts' /\
    distance <= induced_distance 2 [[0; 1]]%nat [1 # 2; 0; 1 # 2] [1; 1]%nat.
Proof.
  cbn zeta.
  assert (Hmap : map_in_range 2 [[0; 1]]%nat 2) by solve_map_in_range.
  assert (Hsolve : solver_exact 2 [[0; 1]]%nat 2
            (λ dosages_d_in, Some (point_of [[0; 1]]%nat [0; 0]%nat dosages_d_in))
            [1 # 2; 0; 1 # 2]).
  { split; [|intros _; eexists; reflexivity].
    intros sol Hsol. inversion Hsol; subst sol. split.
    - apply (point_of_feasible 2 [[0; 1]]%nat [0; 0]%nat); [exact Hmap | solve_binary].
    - intros sol' Hfeas'. eapply Qle_trans; [|apply half_target_objective; exact Hfeas'].
      vm_compute. discriminate. }
  split; [exact Hsolve|].
  destruct (mip_fit_optimal 2 [[0; 1]]%nat 2 _ [7; 7]%nat [1 # 2; 0; 1 # 2]
              Hmap eq_refl eq_refl Hsolve)
    as (log & alts' & distance & E & _ & _ & Hd & Hmin).
  exists log, alts', distance. split; [exact E|]. split; [exact Hd|].
  apply Hmin; [solve_binary | reflexivity].
Defined.

(** X12: with an exact solver, for a target in range, the distance that
    the exact fitter returns is never larger than the one the greedy
    fitter returns on the same map and target. *)
Theorem mip_not_worse_than_descent n_ploidy haplotypes_m n_founders solve
    (alts : founders_alts) dosages_d_in :
  map_in_range n_ploidy haplotypes_m n_founders ->
  length dosages_d_in = S n_ploidy -> length alts = n_founders ->
  target_in_range haplotypes_m dosages_d_in ->
  solver_exact n_ploidy haplotypes_m n_founders solve dosages_d_in ->
  exists log alts' distance,
    mip_fit n_ploidy haplotypes_m n_founders solve alts dosages_d_in
    = (log, Ok (alts', distance)) /\
    distance <= (descent_fit n_ploidy haplotypes_m dosages_d_in alts).2.
Proof.
  intros Hmap Hlen Halts Hr Hsolve.
  destruct (mip_fit_succeeds _ _ _ _ _ _ Hmap Hlen Halts Hsolve)
    as (sol & dosages_d_out & [Hfeas Hleast] & E).
  eexists _, _, _. split; [exact E|].
  pose proof (descent_fit_invariant n_ploidy haplotypes_m dosages_d_in Hr alts) as H.
  destruct (descent_fit n_ploidy haplotypes_m dosages_d_in alts) as [alts_d distance_d].
  destruct H as (Hb & Hl & Hd & _). cbn [snd]. rewrite Hd.
  rewrite <- (point_of_objective _ _ _ _ Hlen). apply Hleast.
  rewrite <- Halts, <- Hl.
  apply point_of_feasible; [rewrite Hl, Halts; exact Hmap | exact Hb].
Qed.

Lemma mip_not_worse_than_descent_witness :
  let solve := λ dosages_d_in, Some (point_of [[0; 1]]%nat [0; 0]%nat dosages_d_in) in
  solver_exact 2 [[0; 1]]%nat 2 solve [1 # 2; 0; 1 # 2] /\
  target_in_range [[0; 1]]%nat [1 # 2; 0; 1 # 2] /\
  exists log alts' distance,
    mip_fit 2 [[0; 1]]%nat 2 solve [7; 7]%nat [1 # 2; 0; 1 # 2]
    = (log, Ok (alts', distance)) /\
    distance <= (descent_fit 2 [[0; 1]]%nat [1 # 2; 0; 1 # 2] [7; 7]%nat).2.
Proof.
  cbn zeta.
  assert (Hmap : map_in_range 2 [[0; 1]]%nat 2) by solve_map_in_range.
  assert (Hr : target_in_range [[0; 1]]%nat [1 # 2; 0; 1 # 2])
    by (vm_compute; reflexivity).
  assert (Hsolve : solver_exact 2 [[0; 1]]%nat 2
            (λ dosages_d_in, Some (point_of [[0; 1]]%nat [0; 0]%nat dosages_d_in))
            [1 # 2; 0; 1 # 2]).
  { split; [|intros _; eexists; reflexivity].
    intros sol Hsol. inversion Hsol; subst sol. split.
    - apply (point_of_feasible 2 [[0; 1]]%nat [0; 0]%nat); [exact Hmap | solve_binary].
    - intros sol' Hfeas'. eapply Qle_trans; [|apply half_target_objective; exact Hfeas'].
      vm_compute. discriminate. }
  split; [exact Hsolve|]. split; [exact Hr|].
  exact (mip_not_worse_than_descent 2 [[0; 1]]%nat 2 _ [7; 7]%nat [1 # 2; 0; 1 # 2]
           Hmap eq_refl eq_refl Hr Hsolve).
Defined.

(** ** Fitting all markers with the greedy fitter *)

Lemma bind_Ok {A B} (log : list log_line) (a : A) (f : A -> M B) :
  ((log, Ok a) : M A) ≫= f = (log ++ (f a).1, (f a).2).
Proof. cbn [mbind M_bind]. destruct (f a). reflexivity. Qed.

Lemma descent_fitting_fit_line n_ploidy haplotypes_m alts dosages_d_in :
  descent_fitting_fit n_ploidy haplotypes_m alts dosages_d_in
  = ([descent_line n_ploidy haplotypes_m alts dosages_d_in],
     Ok (descent_fit n_ploidy haplotypes_m dosages_d_in alts)).
Proof.
  unfold descent_fitting_fit, descent_line.
  destruct (descent_fit n_ploidy haplotypes_m dosages_d_in alts). reflexivity.
Qed.

Lemma fit_markers_descent n_ploidy haplotypes_m (founders_alts_v : list founders_alts) :
  forall (dosages_v : list (list Q)) distances,
  (length founders_alts_v <= length dosages_v)%nat ->
  fit_markers (descent_fitting_fit n_ploidy haplotypes_m) founders_alts_v dosages_v
              distances
  = (zip_with (descent_line n_ploidy haplotypes_m) founders_alts_v dosages_v,
     Ok (zip_with (λ alts dosages_d, (descent_fit n_ploidy haplotypes_m dosages_d alts).1)
                  founders_alts_v dosages_v,
         accumulate
           (zip_with (λ alts dosages_d,
                        (descent_fit n_ploidy haplotypes_m dosages_d alts).2)
                     founders_alts_v dosages_v)
           distances)).
Proof.
  induction founders_alts_v as [|alts v IH]; intros [|dosages_d d] distances Hlen;
    simpl in Hlen; try lia; try reflexivity.
  cbn [fit_markers zip_with]. rewrite descent_fitting_fit_line, bind_Ok.
  destruct (descent_fit n_ploidy haplotypes_m dosages_d alts) as [alts' distance] eqn:E.
  rewrite IH by lia. rewrite bind_Ok. cbn [fst snd mret M_ret].
  rewrite app_nil_r. reflexivity.
Qed.

Lemma fit_markers_short {F : founders_alts -> list Q -> M (founders_alts * Q)}
    (founders_alts_v : list founders_alts) :
  (forall alts dosages_d, exists r, (F alts dosages_d).2 = Ok r) ->
  forall (dosages_v : list (list Q)) distances,
  (length dosages_v < length founders_alts_v)%nat ->
  (fit_markers F founders_alts_v dosages_v distances).2 = Undef.
Proof.
  intros HF. induction founders_alts_v as [|alts v IH]; intros [|dosages_d d] distances Hlen;
    simpl in Hlen; try lia; [reflexivity|].
  cbn [fit_markers]. destruct (HF alts dosages_d) as [[alts' distance] Hr].
  rewrite (bind_snd_Ok _ _ _ Hr). apply bind_snd_Undef. apply IH. lia.
Qed.

Lemma cerr_all {A} (F : A -> log_line) (l : list A) :
  foldr (λ x rest, cerr (F x);; rest) (mret ()) l = (map F l, Ok ()).
Proof.
  induction l as [|x l IH]; [reflexivity|]. cbn [foldr]. rewrite IH. reflexivity.
Qed.

(** All markers, with the greedy fitter and enough targets. *)
Lemma fit_vector_descent n_ploidy haplotypes_m
    (founders_alts_v : list founders_alts) (dosages_v : list (list Q)) :
  (length founders_alts_v <= length dosages_v)%nat ->
  fit_founders_alts_vector (descent_fitting_fit n_ploidy haplotypes_m)
                           founders_alts_v dosages_v
  = (zip_with (descent_line n_ploidy haplotypes_m) founders_alts_v dosages_v
     ++ [LogDistances
           (accumulate
              (zip_with (λ alts dosages_d,
                           (descent_fit n_ploidy haplotypes_m dosages_d alts).2)
                        founders_alts_v dosages_v) 0)]
     ++ map LogFoundersAllele
            (zip_with (λ alts dosages_d,
                         (descent_fit n_ploidy haplotypes_m dosages_d alts).1)
                      founders_alts_v dosages_v),
     Ok (zip_with (λ alts dosages_d,
                     (descent_fit n_ploidy haplotypes_m dosages_d alts).1)
                  founders_alts_v dosages_v)).
Proof.
  intros Hlen. unfold fit_founders_alts_vector.
  rewrite fit_markers_descent by exact Hlen. rewrite bind_Ok.
  cbn beta iota. rewrite bind_cerr, cerr_all, bind_Ok. cbn [fst snd mret M_ret].
  rewrite app_nil_r. reflexivity.
Qed.

(** X13: with the greedy fitter, every marker is fitted on its own, in
    order: vector [m] of the result is what the fitter returns for target
    [m] and the length of vector [m]; one [DISTANCE] line is written per
    marker, then the sum of the distances, then one [FOUNDERS ALLELE] line
    per marker.  With fewer targets than vectors the loop reads past the
    end of the targets, which is undefined. *)
Theorem fit_founders_alts_vector_descent n_ploidy haplotypes_m
    (founders_alts_v : list founders_alts) (dosages_v : list (list Q)) :
  let fit := descent_fit n_ploidy haplotypes_m in
  let fitted := zip_with (λ alts dosages_d, (fit dosages_d alts).1)
                         founders_alts_v dosages_v in
  let distances := zip_with (λ alts dosages_d, (fit dosages_d alts).2)
                            founders_alts_v dosages_v in
  ((length founders_alts_v <= length dosages_v)%nat ->
   fit_founders_alts_vector (descent_fitting_fit n_ploidy haplotypes_m)
                            founders_alts_v dosages_v
   = (zip_with (descent_line n_ploidy haplotypes_m) founders_alts_v dosages_v
      ++ [LogDistances (accumulate distances 0)]
      ++ map LogFoundersAllele fitted,
      Ok fitted)) /\
  ((length dosages_v < length founders_alts_v)%nat ->
   (fit_founders_alts_vector (descent_fitting_fit n_ploidy haplotypes_m)
                             founders_alts_v dosages_v).2 = Undef).
Proof.
  cbn zeta. split; intros Hlen.
  - apply fit_vector_descent. exact Hlen.
  - unfold fit_founders_alts_vector. apply bind_snd_Undef. apply fit_markers_short; [|exact Hlen].
    intros alts dosages_d. rewrite descent_fitting_fit_line. eexists; reflexivity.
Qed.

Lemma fit_founders_alts_vector_descent_witness :
  (fit_founders_alts_vector (descent_fitting_fit 2 [[0; 1]; [1; 2]]%nat)
     [[7; 7; 7]; [0; 0; 0]]%nat [[0; 1; 1]; [1; 1; 0]]).2
  = Ok [(descent_fit 2 [[0; 1]; [1; 2]]%nat [0; 1; 1] [7; 7; 7]%nat).1;
        (descent_fit 2 [[0; 1]; [1; 2]]%nat [1; 1; 0] [0; 0; 0]%nat).1] /\
  (fit_founders_alts_vector (descent_fitting_fit 2 [[0; 1]; [1; 2]]%nat)
     [[7; 7; 7]; [0; 0; 0]]%nat [[0; 1; 1]]).2 = Undef.
Proof.
  split.
  - rewrite (proj1 (fit_founders_alts_vector_descent 2 [[0; 1]; [1; 2]]%nat
               [[7; 7; 7]; [0; 0; 0]]%nat [[0; 1; 1]; [1; 1; 0]]));
      [reflexivity | simpl; lia].
  - apply (proj2 (fit_founders_alts_vector_descent 2 [[0; 1]; [1; 2]]%nat
               [[7; 7; 7]; [0; 0; 0]]%nat [[0; 1; 1]])). simpl. lia.
Defined.

(** ** Writing the output *)

Lemma sample_name_inj (s1 s2 : nat) :
  ("SAMPLE_" ++ pretty s1)%string = ("SAMPLE_" ++ pretty s2)%string -> s1 = s2.
Proof.
  intros H. simpl in H. inversion H as [Hp]. exact (inj pretty _ _ Hp).
Qed.

(** X14: [write_vcf] takes the number of samples from the first marker:
    with as many samples in every marker and a position and a pair of
    alleles for every marker, it names that many samples [SAMPLE_0],
    [SAMPLE_1], ..., pairwise distinct, appends two header records and one
    per contig, and writes one record per marker, record [m] with id [m],
    the position and alleles of marker [m] and one column per sample; it
    writes nothing to the error stream.  Without any marker it reads the
    first element of an empty vector, which is undefined. *)
Theorem write_vcf_shape (contig_names : list string) (vars : variants)
    (front : list (list nat)) (rest : list (list (list nat))) :
  Forall (λ genotypes, length genotypes = length front) rest ->
  (S (length rest) <= length (positions vars))%nat ->
  (S (length rest) <= length (alleles vars))%nat ->
  write_vcf contig_names vars [] = ([], Undef) /\
  exists vcf_file_out,
    write_vcf contig_names vars (front :: rest) = ([], Ok vcf_file_out) /\
    out_contigNames vcf_file_out = contig_names /\
    out_sampleNames vcf_file_out
    = map (λ sample, ("SAMPLE_" ++ pretty sample)%string) (seq 0 (length front)) /\
    NoDup (out_sampleNames vcf_file_out) /\
    length (out_header vcf_file_out) = (2 + length contig_names)%nat /\
    length (out_records vcf_file_out) = S (length rest) /\
    forall marker_id genotypes,
      (front :: rest) !! marker_id = Some genotypes ->
      exists r, out_records vcf_file_out !! marker_id = Some (r, pretty marker_id) /\
                positions vars !! marker_id = Some (rID r, beginPos r) /\
                alleles vars !! marker_id = Some (ref r, alt r) /\
                genotypeInfos r = map write_genotype genotypes /\
                length (genotypeInfos r) = length (out_sampleNames vcf_file_out).
Proof.
  intros Hsame Hpositions Halleles.
  split; [reflexivity|]. eexists. split; [reflexivity|].
  cbn [out_contigNames out_sampleNames out_header out_records].
  split; [reflexivity|]. split; [reflexivity|]. split; [|split; [|split]].
  - apply NoDup_fmap_2; [|apply NoDup_seq]. intros s1 s2. apply sample_name_inj.
  - rewrite length_app, length_map. reflexivity.
  - rewrite length_imap. reflexivity.
  - intros marker_id genotypes Hm. rewrite list_lookup_imap, Hm. simpl.
    assert (Hlt : (marker_id < S (length rest))%nat)
      by (apply lookup_lt_Some in Hm; exact Hm).
    destruct (lookup_lt_is_Some_2 (positions vars) marker_id) as [position Hp];
      [lia|].
    destruct (lookup_lt_is_Some_2 (alleles vars) marker_id) as [allele Ha];
      [lia|].
    eexists. split; [reflexivity|]. cbn [rID beginPos ref alt genotypeInfos].
    rewrite Hp, Ha. cbn [default from_option id].
    split; [destruct position; reflexivity|].
    split; [destruct allele; reflexivity|].
    split; [reflexivity|].
    rewrite !length_map, length_seq.
    destruct marker_id as [|marker_id]; simpl in Hm; [congruence|].
    exact (proj1 (Forall_lookup _ _) Hsame marker_id genotypes Hm).
Qed.

Lemma write_vcf_shape_witness :
  exists vcf_file_out,
    write_vcf ["chr1"%string]
              {| positions := [(0, 10)%nat]; alleles := [("A", "C")%string] |}
              [[[0; 1]; [1; 1]; [0; 0]]%nat]
    = ([], Ok vcf_file_out) /\
    out_sampleNames vcf_file_out = ["SAMPLE_0"; "SAMPLE_1"; "SAMPLE_2"]%string /\
    exists r, out_records vcf_file_out !! 0%nat = Some (r, "0"%string) /\
              (rID r, beginPos r) = (0, 10)%nat /\
              genotypeInfos r = ["0|1"; "1|1"; "0|0"]%string.
Proof.
  destruct (proj2 (write_vcf_shape ["chr1"%string]
              {| positions := [(0, 10)%nat]; alleles := [("A", "C")%string] |}
              [[0; 1]; [1; 1]; [0; 0]]%nat [] (List.Forall_nil _)
              (le_n 1) (le_n 1)))
    as (out & E & _ & Hnames & _ & _ & _ & Hrec).
  exists out. split; [exact E|]. split; [exact Hnames|].
  destruct (Hrec 0%nat _ eq_refl) as (r & Hr & Hp & _ & Hg & _). exists r.
  split; [exact Hr|]. split; [|exact Hg].
  simpl in Hp. congruence.
Defined.

(** ** The simulation on its edge cases *)

(** X15: with zero founders and at least one haplotype to hand out, both
    assertions of [simulate_founders_distribution] pass, the vector of
    multiplicities is empty and the first draw increments an element of
    it: undefined behaviour, whatever the generator returns. *)
Theorem zero_founders_undefined {generator : Type}
    (uniform_int_distribution : N -> N -> generator -> N * generator)
    (founders_d : list N) (n_samples n_ploidy : N) (g : generator) :
  (0 < n_samples)%N -> (0 < u32 (n_samples * n_ploidy))%N ->
  simulate_founders_distribution uniform_int_distribution founders_d
                                 0 n_samples n_ploidy g
  = ([], Undef).
Proof.
  intros Hs Hh. unfold simulate_founders_distribution.
  rewrite (proj2 (N.ltb_lt _ _) Hs), SEQAN_ASSERT_true, bind_ret_l.
  rewrite (proj2 (N.leb_le 0 _) (N.le_0_l _)).
  rewrite SEQAN_ASSERT_true, bind_ret_l.
  assert (Hcount : u32_sub (u32 (n_samples * n_ploidy)) 0 = u32 (n_samples * n_ploidy)).
  { rewrite u32_sub_small; [apply N.sub_0_r | lia |].
    unfold u32. apply N.mod_upper_bound. discriminate. }
  rewrite Hcount.
  destruct (N.to_nat (u32 (n_samples * n_ploidy))) as [|count] eqn:E; [lia|].
  unfold resize. rewrite take_0. cbn [N.to_nat Nat.sub replicate app draw_founders].
  destruct (uniform_int_distribution 0%N (u32_sub 0 1) g) as [f g'].
  destruct (decide (N.to_nat f < length (@nil N))%nat) as [Hlt|_];
    [simpl in Hlt; lia | reflexivity].
Qed.

Lemma zero_founders_undefined_witness :
  simulate_founders_distribution lcg.uniform_int_distribution [] 0 2 2 0%N = ([], Undef).
Proof. apply zero_founders_undefined; reflexivity. Defined.

(** The two simulation steps succeed on a configuration whose number of
    haplotypes fits [uint32_t], each leaving its line. *)
Lemma simulation_succeeds {generator : Type}
    (uniform_int_distribution : N -> N -> generator -> N * generator)
    (shuffle : list nat -> generator -> list nat * generator)
    (n_founders n_samples n_ploidy : N) (g : generator) :
  draws_in_range uniform_int_distribution -> shuffle_permutes shuffle ->
  (1 <= n_founders <= n_samples * n_ploidy)%N ->
  (n_samples * n_ploidy < 2 ^ 32)%N ->
  exists founders_d g1 haplotypes_m g2,
    simulate_founders_distribution uniform_int_distribution []
                                   n_founders n_samples n_ploidy g
      = ([LogFoundersDistribution founders_d], Ok (founders_d, g1)) /\
    simulate_haplotypes_map shuffle founders_d n_samples n_ploidy g1
      = ([LogHaplotypesMap haplotypes_m], Ok (haplotypes_m, g2)) /\
    haplotypes_map_ok n_founders n_samples n_ploidy founders_d haplotypes_m.
Proof.
  intros Hu Hs [H1 Hle] Hfit.
  assert (Hns : (0 <? n_samples)%N = true) by (apply N.ltb_lt; nia).
  assert (Hnf : (n_founders <=? u32 (n_samples * n_ploidy))%N = true)
    by (rewrite u32_small by exact Hfit; apply N.leb_le; exact Hle).
  destruct (draw_founders_ok uniform_int_distribution n_founders
              (N.to_nat (n_samples * n_ploidy - n_founders)) Hu H1
              (replicate (N.to_nat n_founders) 1%N) g)
    as (founders_d & g1 & Hdraw & Hlen & Hpos & Hsum).
  { apply length_replicate. }
  { apply Forall_replicate. lia. }
  { rewrite sum_N_replicate. lia. }
  rewrite sum_N_replicate in Hsum.
  assert (Htotal : sum_N founders_d = (n_samples * n_ploidy)%N) by lia.
  destruct (shuffle (fill_founders founders_d) g1) as [data g2] eqn:Hshuffle.
  assert (Hperm : data ≡ₚ fill_founders founders_d)
    by (pose proof (Hs (fill_founders founders_d) g1) as Hp;
        rewrite Hshuffle in Hp; exact Hp).
  assert (Hfilled : length (fill_founders founders_d)
                    = (N.to_nat n_samples * N.to_nat n_ploidy)%nat)
    by (rewrite fill_founders_from, fill_from_length, Htotal; lia).
  exists founders_d, g1,
         (reshape (N.to_nat n_samples) (N.to_nat n_ploidy) data), g2.
  split; [|split].
  - unfold simulate_founders_distribution.
    rewrite Hns, Hnf, !SEQAN_ASSERT_true, !bind_ret_l.
    rewrite (u32_small (n_samples * n_ploidy)) by exact Hfit.
    rewrite !u32_sub_small by lia.
    unfold resize. rewrite take_nil, Nat.sub_0_r. simpl app.
    rewrite Hdraw, bind_ret_l. reflexivity.
  - unfold simulate_haplotypes_map.
    rewrite accumulate_u32_small by lia.
    rewrite (u32_small (n_samples * n_ploidy)) by exact Hfit.
    rewrite Htotal, N.eqb_refl, SEQAN_ASSERT_true, bind_ret_l.
    assert (Hfilled_N : N.of_nat (length (fill_founders founders_d))
                        = (n_samples * n_ploidy)%N) by lia.
    destruct (decide _) as [Hlt|_]; [lia|].
    rewrite Hfilled_N, N.eqb_refl, SEQAN_ASSERT_true, bind_ret_l.
    replace (N.to_nat (n_samples * n_ploidy) - length (fill_founders founders_d))%nat
      with 0%nat by lia.
    simpl replicate. rewrite app_nil_r, Hshuffle.
    reflexivity.
  - assert (Hdata : length data = (N.to_nat n_samples * N.to_nat n_ploidy)%nat)
      by (rewrite Hperm; exact Hfilled).
    assert (Hconcat : concat (reshape (N.to_nat n_samples) (N.to_nat n_ploidy) data)
                      = data)
      by (rewrite reshape_concat; apply take_ge; lia).
    split; [apply reshape_length|].
    split; [apply reshape_rows; lia|].
    split; [exact Hlen|]. split; [|split; [exact Htotal|]].
    + intros f m Hf. split.
      * exact (proj1 (Forall_lookup _ _) Hpos f m Hf).
      * rewrite Hconcat, (get_dosage_Permutation _ _ f Hperm).
        rewrite fill_founders_from, fill_from_count.
        destruct (decide (0 <= f)%nat); [|lia].
        rewrite Nat.sub_0_r, Hf. reflexivity.
    + rewrite Hconcat, Hperm, fill_founders_from, <- Hlen.
      apply (fill_from_range founders_d 0%nat).
Qed.

Lemma haplotypes_map_ok_in_range n_founders n_samples n_ploidy founders_d haplotypes_m :
  haplotypes_map_ok n_founders n_samples n_ploidy founders_d haplotypes_m ->
  map_in_range (N.to_nat n_ploidy) haplotypes_m (N.to_nat n_founders).
Proof.
  intros (_ & Hrows & _ & _ & _ & Hrange). apply Forall_lookup. intros s sample Hs.
  split; [exact (proj1 (Forall_lookup _ _) Hrows s sample Hs)|].
  apply Forall_forall. intros f Hf.
  apply (proj1 (Forall_forall _ _) Hrange). eapply elem_of_concat_lookup; eauto.
Qed.

(** ** Whole runs *)

Lemma read_records_polyallelic n_ploidy rs : forall data,
  Forall polyallelic rs ->
  read_records n_ploidy data rs
  = (map (λ r, LogPolyallelic (rID r, beginPos r)) rs, Ok data).
Proof.
  induction rs as [|r rs IH]; intros data Hall; [reflexivity|].
  inversion Hall as [|? ? Hr Hrs]; subst. cbn [read_records].
  assert (E : read_record n_ploidy data r
              = ([LogPolyallelic (rID r, beginPos r)], Ok data)).
  { unfold polyallelic, read_record in *.
    destruct (readUntil _ _) as [alt_first alt_rest]. simpl in Hr.
    destruct (decide (alt_rest <> [])); [reflexivity | contradiction]. }
  rewrite E, bind_Ok, (IH data Hrs). reflexivity.
Qed.


Section run_props.
Context {generator : Type}.
Variable seed_generator : N -> generator.
Variable uniform_int_distribution : N -> N -> generator -> N * generator.
Variable shuffle : list nat -> generator -> list nat * generator.
Variable solve : nat -> haplotypes_map -> nat -> list Q -> option mip_solution.
Hypothesis Hdraws : draws_in_range uniform_int_distribution.
Hypothesis Hshuffle : shuffle_permutes shuffle.

Local Abbreviation the_run :=
  (run seed_generator uniform_int_distribution shuffle solve).
Local Abbreviation the_main :=
  (main seed_generator uniform_int_distribution shuffle solve).


Lemma main_of_run options vcf_file_in :
  (2 <= app_options.n_ploidy options <= 8)%N ->
  let r := the_run (N.to_nat (app_options.n_ploidy options)) options vcf_file_in in
  let p := the_main options vcf_file_in in
  match r.2 with
  | Ok vcf_file_out => result p = Returned 0 /\ output p = Some vcf_file_out
  | Throw e => result p = Returned 1 /\ output p = None /\
               last (stderr p) = Some (LogError (exception_what e))
  | AssertFail what => result p = Aborted /\ output p = None
  | Undef => result p = UndefinedBehaviour /\ output p = None
  end.
Proof.
  intros Hp. cbn zeta. unfold main.
  destruct (decide (2 <= app_options.n_ploidy options <= 8)%N) as [_|]; [|contradiction].
  destruct (run _ _ _ _ _ _ _) as [log [out|e|what|]]; cbn [snd result output stderr];
    repeat split. apply last_snoc.
Qed.
End run_props.












(** X18: when every record of the input is skipped as polyallelic (an
    input without records included), a run on a valid configuration
    loads no marker, simulates the map, fits nothing and then, in
    [write_vcf], reads the first element of an empty vector: the run ends
    in undefined behaviour without an output, with either fitter. *)
Theorem no_marker_undefined {generator : Type}
    (seed_generator : N -> generator)
    (uniform_int_distribution : N -> N -> generator -> N * generator)
    (shuffle : list nat -> generator -> list nat * generator)
    (solve : nat -> haplotypes_map -> nat -> list Q -> option mip_solution)
    (options : app_options.t) (vcf_file_in : VcfFileIn) :
  let n_ploidy := app_options.n_ploidy options in
  let n_founders := app_options.n_founders options in
  let n_samples := app_options.n_samples options in
  draws_in_range uniform_int_distribution -> shuffle_permutes shuffle ->
  (2 <= n_ploidy <= 8)%N ->
  (1 <= n_founders <= n_samples * n_ploidy)%N -> (n_samples * n_ploidy < 2 ^ 32)%N ->
  Forall polyallelic (records vcf_file_in) ->
  let p := main seed_generator uniform_int_distribution shuffle solve
                options vcf_file_in in
  (read_vcf (N.to_nat n_ploidy) vcf_file_in).2
  = Ok (contigNames vcf_file_in,
        {| vd_variants := {| positions := []; alleles := [] |}; vd_dosages_v := [] |}) /\
  result p = UndefinedBehaviour /\ output p = None.
Proof.
  intros n_ploidy n_founders n_samples Hdraws Hshuffle Hp Hconf Hfit Hpoly p.
  assert (Hload : read_vcf (N.to_nat n_ploidy) vcf_file_in
                  = (map (λ r, LogPolyallelic (rID r, beginPos r)) (records vcf_file_in)
                       ++ [],
                     Ok (contigNames vcf_file_in,
                         {| vd_variants := {| positions := []; alleles := [] |};
                            vd_dosages_v := [] |}))).
  { unfold read_vcf. rewrite (read_records_polyallelic _ _ _ Hpoly), bind_Ok.
    reflexivity. }
  split; [rewrite Hload; reflexivity|].
  destruct (simulation_succeeds uniform_int_distribution shuffle
              n_founders n_samples n_ploidy
              (seed_generator (app_options.seed options)) Hdraws Hshuffle Hconf Hfit)
    as (founders_d & g1 & haplotypes_m & g2 & E1 & E2 & Hok).
  assert (Hrun : (run seed_generator uniform_int_distribution shuffle solve
                      (N.to_nat n_ploidy) options vcf_file_in).2 = Undef).
  { unfold run. rewrite Hload, bind_Ok. cbn [snd]. cbn beta iota.
    rewrite N2Nat.id. fold n_founders n_samples n_ploidy.
    rewrite E1, bind_Ok. cbn [snd]. cbn beta iota.
    rewrite E2, bind_Ok. cbn [snd]. cbn beta iota.
    cbn [vd_dosages_v vd_variants normalize_dosages_vector map length replicate].
    destruct (app_options.mip options); reflexivity. }
  pose proof (main_of_run seed_generator uniform_int_distribution shuffle solve
                options vcf_file_in Hp) as Hmain.
  cbn zeta in Hmain. fold n_ploidy in Hmain. rewrite Hrun in Hmain. exact Hmain.
Qed.

Lemma no_marker_undefined_witness :
  let vcf_file_in :=
    {| contigNames := ["chr1"%string];
       records := [ {| rID := 0; beginPos := 20; ref := "G"; alt := "T,C";
                       genotypeInfos := ["0/1"; "0/0"]%string |} ] |} in
  result (lcg.main diploid_options vcf_file_in) = UndefinedBehaviour /\
  output (lcg.main diploid_options vcf_file_in) = None.
Proof.
  cbn zeta.
  refine (proj2 (no_marker_undefined lcg.seed_generator lcg.uniform_int_distribution
            lcg.shuffle lcg.solve diploid_options _
            lcg_draws_in_range lcg_shuffle_permutes _ _ eq_refl _)).
  - split; discriminate.
  - split; discriminate.
  - repeat constructor. unfold polyallelic. simpl. discriminate.
Defined.

(** ** Malformed genotype columns and targets handed to the fitter *)

Lemma filter_nil_iff {A} (P : A -> Prop) `{forall x, Decision (P x)} (l : list A) :
  filter P l = [] <-> Forall (λ x, ~ P x) l.
Proof.
  induction l as [|x l IH]; [split; [constructor | reflexivity]|].
  rewrite filter_cons. destruct (decide (P x)) as [Hx|Hx].
  - split; [discriminate|]. intros Hall. inversion Hall; contradiction.
  - rewrite IH. split; [intros Hall; constructor; assumption|].
    intros Hall. inversion Hall; assumption.
Qed.

(** X20: a genotype column whose first field holds no allele (it is empty
    or holds only [/] and [|]) gives an empty genotype, and the loader then
    asks for the last element of an empty vector: undefined behaviour,
    before any ploidy check and whatever columns follow. *)
Theorem empty_genotype_undefined n_ploidy position genotype_info infos dosages_d :
  (read_genotype genotype_info = [] <->
   Forall (λ c, c = "/"%char \/ c = "|"%char)
          (readUntil (Ascii.eqb ":") (list_ascii_of_string genotype_info)).1) /\
  (read_genotype genotype_info = [] ->
   read_genotypes n_ploidy position (genotype_info :: infos) dosages_d = ([], Undef)).
Proof.
  split.
  - unfold read_genotype.
    set (field := (readUntil (Ascii.eqb ":") (list_ascii_of_string genotype_info)).1).
    rewrite filter_nil_iff. split.
    + intros Hall. apply Forall_forall. intros c Hc.
      destruct (decide (c = "/"%char)) as [|Hs]; [left; assumption|]. right.
      destruct (decide (c = "|"%char)) as [|Hb]; [assumption|]. exfalso.
      apply (proj1 (Forall_forall _ _) Hall c); [|exact Hb].
      apply list_elem_of_filter. split; assumption.
    + intros Hall. apply Forall_forall. intros c Hc Hb.
      apply list_elem_of_filter in Hc. destruct Hc as [Hs Hc].
      destruct (proj1 (Forall_forall _ _) Hall c Hc); contradiction.
  - intros Hg. cbn [read_genotypes]. rewrite Hg. reflexivity.
Qed.

Lemma empty_genotype_undefined_witness :
  read_genotype "/:12" = [] /\
  read_genotypes 2 (0, 7)%nat ["/:12"; "0/1/1"]%string [0; 0; 0] = ([], Undef).
Proof.
  assert (Hg : read_genotype "/:12" = []).
  { apply (proj1 (empty_genotype_undefined 2 (0, 7)%nat "/:12" [] [])).
    repeat constructor. }
  split; [exact Hg|].
  exact (proj2 (empty_genotype_undefined 2 (0, 7)%nat "/:12" ["0/1/1"%string] [0; 0; 0])
           Hg).
Defined.

Lemma histogram_nonneg_entries (l : list nat) : Forall (λ d, 0 <= d) (map of_count l).
Proof. apply Forall_fmap, Forall_forall. intros n _. apply of_count_nonneg. Qed.

(** X21: the target made from a marker with at least one known genotype,
    normalized to a number of samples that fits [uint32_t], has
    non-negative entries that sum to that number of samples, and is in
    range for every map of that many samples: the targets that [run]
    hands to the fitters meet the range condition of the greedy
    fitter's properties. *)
Theorem loaded_target_in_range n_ploidy position infos log dosages_d
    (n_samples : nat) (haplotypes_m : haplotypes_map) :
  read_genotypes n_ploidy position infos (replicate (S n_ploidy) 0)
  = (log, Ok dosages_d) ->
  filter known infos <> [] ->
  length haplotypes_m = n_samples -> (Z.of_nat n_samples < 2 ^ 32)%Z ->
  let target := normalize_dosages_distribution dosages_d n_samples in
  Forall (λ d, 0 <= d) target /\
  accumulate target 0 == of_count n_samples /\
  target_in_range haplotypes_m target.
Proof.
  intros Hread Hknown Hlen Hfit. cbn zeta.
  assert (H0 : replicate (S n_ploidy) 0 = map of_count (replicate (S n_ploidy) 0%nat))
    by (rewrite fmap_replicate; reflexivity).
  rewrite H0 in Hread.
  destruct (read_genotypes_histogram _ _ _ _ _ _ Hread) as (Hd & _ & Hp).
  assert (Hsum : accumulate dosages_d 0 == of_count (length (filter known infos))).
  { rewrite Hd, accumulate_of_count, histogram_sum.
    - rewrite sum_list_replicate_0. unfold known_dosages. rewrite length_map.
      reflexivity.
    - rewrite length_replicate. unfold known_dosages. apply Forall_fmap.
      eapply Forall_impl; [exact Hp|]. intros gi Hgi. simpl.
      pose proof (get_dosage_le_length (read_genotype gi) "1"%char) as Hle.
      unfold get_ploidy in Hgi. lia. }
  assert (Hpos : 0 < accumulate dosages_d 0).
  { rewrite Hsum. unfold of_count. rewrite <- (Zlt_Qlt 0).
    destruct (filter known infos); [contradiction | simpl; lia]. }
  assert (Hnonneg : Forall (λ d, 0 <= d) dosages_d)
    by (rewrite Hd; apply histogram_nonneg_entries).
  assert (Htarget : Forall (λ d, 0 <= d)
                           (normalize_dosages_distribution dosages_d n_samples)).
  { unfold normalize_dosages_distribution. apply Forall_fmap.
    eapply Forall_impl; [exact Hnonneg|]. intros d Hd0. simpl.
    pose proof (of_count_nonneg n_samples) as Hn.
    apply Qle_shift_div_l; [exact Hpos|]. rewrite Qmult_0_l.
    apply Qmult_le_0_compat; assumption. }
  assert (Htotal : accumulate (normalize_dosages_distribution dosages_d n_samples) 0
                   == of_count n_samples).
  { unfold normalize_dosages_distribution. rewrite accumulate_scale. field. lra. }
  split; [exact Htarget|]. split; [exact Htotal|].
  apply normalized_target_in_range; [exact Htarget | |rewrite Hlen; exact Hfit].
  rewrite Hlen. exact Htotal.
Qed.

Lemma loaded_target_in_range_witness :
  let target := normalize_dosages_distribution [0; 0 + 1 + 1; 0 + 1] 2 in
  read_genotypes 2 (0, 7)%nat ["0/1"; "./."; "1|1:35"; "0/1"]%string (replicate 3 0)
  = ([LogUnknown (0, 7)%nat], Ok [0; 0 + 1 + 1; 0 + 1]) /\
  accumulate target 0 == of_count 2 /\
  target_in_range [[0; 1]; [1; 2]]%nat target.
Proof.
  cbn zeta.
  assert (H : read_genotypes 2 (0, 7)%nat ["0/1"; "./."; "1|1:35"; "0/1"]%string
                (replicate 3 0)
              = ([LogUnknown (0, 7)%nat], Ok [0; 0 + 1 + 1; 0 + 1])) by reflexivity.
  split; [exact H|].
  refine (proj2 (loaded_target_in_range 2 (0, 7)%nat _ _ _ 2 [[0; 1]; [1; 2]]%nat
                   H _ eq_refl _)).
  - discriminate.
  - reflexivity.
Defined.

(** ** The output file, loaded again *)





